(** * Dynamic pricing with a deep Q-network: the training engine

    A shallow embedding of the notebook's reinforcement-learning core
    ([notebook.ipynb], cells 3 and 10): the market simulator, the replay
    memory, the annealed epsilon-greedy policy, the Bellman-backup update
    and the episode loop, together with the baseline price searches of
    cells 5 and 6, followed by the properties established about them.

    Conventions of the embedding.
    - Python exceptions are values of [exn]; a computation that may raise
      returns an [outcome].
    - Integer arrays ([np.repeat(0, 2*T)] has dtype int64) are [list Z]
      with entries in the int64 range: a store converts into the range
      or raises, and the arithmetic of NumPy on the entries wraps
      around.
    - Floating-point numbers that are only added, multiplied and compared
      are rationals ([Q]); where the source calls [math.exp] or [np.sqrt]
      they are reals ([R]).  Rounding is not modelled; of the results
      beyond the float64 range, those of [math.exp] and of the quotient
      passed to it are.  The price vectors of the baselines, integer
      arrays that only enter the demand model, are lists of reals.
    - The pseudo-random generator is an explicit stream of draws read
      through a cursor.  A loop that need not end (the rejection loop of
      [random.sample]) is followed for a bounded number of rounds. *)

From Stdlib Require Import ZArith QArith Qround Qabs Qreals Reals Lra Lia.
From stdpp Require Import base tactics option list.

Set Default Proof Using "Type".

(** * Part I: the program *)

(** ** Exceptions and outcomes *)

Inductive value_error : Type :=
| CouldNotBroadcast          (* NumPy slice assignment of a wrong shape *)
| EmptyArgmax                (* np.argmax of an empty sequence *)
| EmptyRange                 (* random.randrange(0) *)
| SampleLargerThanPopulation.  (* random.sample(population, k), k > len *)

Inductive runtime_error : Type :=
| StackEmptyList             (* torch.stack([]) *)
| GatherIndexOutOfRange      (* tensor.gather with an index past the row *)
| MaxOverEmptyDim.           (* tensor.max(1) over rows of width 0 *)

Inductive exn : Type :=
| ZeroDivisionError
| IndexError
| TypeError
| OverflowError
| ValueError (why : value_error)
| RuntimeError (why : runtime_error).

(** [Unfinished] is no result of the program: the embedding follows a
    loop that need not end (the rejection loop of [random.sample]) for
    a bounded number of rounds, and reports a run that is still in the
    loop then as unfinished. *)
Inductive outcome (A : Type) : Type :=
| Ok (a : A)
| Raise (e : exn)
| Unfinished.
Arguments Ok {A} a.
Arguments Raise {A} e.
Arguments Unfinished {A}.

#[global] Instance outcome_ret : MRet outcome := λ A a, Ok a.
#[global] Instance outcome_bind : MBind outcome := λ A B f m,
  match m with
  | Ok a => f a
  | Raise e => Raise e
  | Unfinished => Unfinished
  end.

(** A computation that does not end in the insufficient-data error of
    [random.sample]. *)
Definition sample_safe {A : Type} (m : outcome A) : Prop :=
  m ≠ Raise (ValueError SampleLargerThanPopulation).

(** ** Python and NumPy sequence operations *)

Section Sequences.
Context {A : Type}.

(** [l[i]] for a non-negative subscript. *)
Definition getitem (l : list A) (i : nat) : outcome A :=
  match l !! i with
  | Some x => Ok x
  | None => Raise IndexError
  end.

(** [l[i] = v] for a non-negative subscript. *)
Definition setitem (l : list A) (i : nat) (v : A) : outcome (list A) :=
  if decide (i < length l) then Ok (<[i:=v]> l) else Raise IndexError.

(** A slice bound as Python normalises it against the length: negative
    bounds count from the end, and everything is clipped to [0, len]. *)
Definition slice_bound (len : nat) (i : Z) : nat :=
  if decide (i < 0)%Z then Z.to_nat (Z.max 0 (i + Z.of_nat len))
  else Z.to_nat (Z.min i (Z.of_nat len)).

(** [l[lo:hi]] *)
Definition get_slice (l : list A) (lo hi : Z) : list A :=
  let a := slice_bound (length l) lo in
  let b := slice_bound (length l) hi in
  take (b - a) (drop a l).

(** [l[lo:hi] = src] on a NumPy array: the shapes must agree, except
    that a one-element source is broadcast over the slice. *)
Definition set_slice (l : list A) (lo hi : Z) (src : list A)
  : outcome (list A) :=
  let a := slice_bound (length l) lo in
  let b := slice_bound (length l) hi in
  let m := b - a in
  if decide (length src = m) then Ok (take a l ++ src ++ drop (a + m) l)
  else match src with
       | [x] => Ok (take a l ++ replicate m x ++ drop (a + m) l)
       | _ => Raise (ValueError CouldNotBroadcast)
       end.

(** [a % b] on non-negative integers. *)
Definition py_mod (a b : nat) : outcome nat :=
  if decide (b = 0) then Raise ZeroDivisionError else Ok (a mod b).

(** [torch.stack(tensors)]: refuses an empty list.  (The tensors
    stacked by the program all have the shape of a state, an action or
    a reward, so the shape check of [stack] is not written out.) *)
Definition torch_stack (tensors : list A) : outcome (list A) :=
  match tensors with
  | [] => Raise (RuntimeError StackEmptyList)
  | _ => Ok tensors
  end.
End Sequences.

(** ** 64-bit integers

    The entries of an int64 array lie in the range of [in_int64], and
    the arithmetic of NumPy on them wraps around. *)
Definition in_int64 (z : Z) : Prop := (- 2 ^ 63 <= z < 2 ^ 63)%Z.

#[global] Instance in_int64_dec (z : Z) : Decision (in_int64 z).
Proof. unfold in_int64. apply _. Defined.

Definition wrap64 (z : Z) : Z := ((z + 2 ^ 63) mod 2 ^ 64 - 2 ^ 63)%Z.

(** [np.diff], [np.abs] and [np.sum] on an int64 array.  The absolute
    value of [- 2 ^ 63] is [- 2 ^ 63] again, and a sum is reduced once:
    the order of the additions does not matter modulo [2 ^ 64]. *)
Fixpoint np_diff (a : list Z) : list Z :=
  match a with
  | x :: (y :: _) as rest => wrap64 (y - x) :: np_diff rest
  | _ => []
  end.

Definition np_abs (a : list Z) : list Z := (λ x, wrap64 (Z.abs x)) <$> a.

Definition np_sum (a : list Z) : Z := wrap64 (foldr Z.add 0%Z a).

(** The same in unbounded integers: the consecutive differences of a
    sequence and the sum of their absolute values. *)
Fixpoint differences (a : list Z) : list Z :=
  match a with
  | x :: (y :: _) as rest => (y - x)%Z :: differences rest
  | _ => []
  end.

Definition total_variation (a : list Z) : Z :=
  foldr Z.add 0%Z (Z.abs <$> differences a).

(** Storing a float into an int64 array converts it by truncation
    toward zero.  Outside the int64 range the conversion, which goes
    through a Python integer, raises OverflowError; that is what is
    written out here.  (A NumPy that casts a float64 scalar of its own
    in C instead leaves the result undefined there.  The properties of
    the stored price take it inside the range.) *)
Definition float_to_int (x : Q) : outcome Z :=
  let z := Z.quot (Qnum x) (Z.pos (Qden x)) in
  if decide (in_int64 z) then Ok z else Raise OverflowError.

(** [a[i] = x] for a float [x] on an int64 array: the subscript is
    resolved first, then the value is converted. *)
Definition setitem_float (a : list Z) (i : nat) (x : Q) : outcome (list Z) :=
  if decide (i < length a) then p ← float_to_int x; Ok (<[i:=p]> a)
  else Raise IndexError.

(** [np.argmax]: the index of the first occurrence of the maximum. *)
Fixpoint argmax_from (best_i : nat) (best : Q) (i : nat) (l : list Q) : nat :=
  match l with
  | [] => best_i
  | x :: l' =>
      if Qle_bool x best then argmax_from best_i best (S i) l'
      else argmax_from i x (S i) l'
  end.

Definition np_argmax (q_values : list Q) : outcome nat :=
  match q_values with
  | [] => Raise (ValueError EmptyArgmax)
  | x :: l => Ok (argmax_from 0 x 1 l)
  end.

(** [row.max()] of one row of a batch of value vectors. *)
Definition row_max (row : list Q) : outcome Q :=
  match row with
  | [] => Raise (RuntimeError MaxOverEmptyDim)
  | x :: l => Ok (foldl (λ m y, if Qle_bool y m then m else y) x l)
  end.

(** [row.gather(index)] of one row. *)
Definition gather_row (row : list Q) (index : nat) : outcome Q :=
  match row !! index with
  | Some v => Ok v
  | None => Raise (RuntimeError GatherIndexOutOfRange)
  end.

(** [values[mask] = src]: the cells selected by the mask receive the
    entries of [src] in order. *)
Fixpoint masked_assign (values : list Q) (mask : list bool) (src : list Q)
  : list Q :=
  match values, mask with
  | v :: values', true :: mask' =>
      match src with
      | s :: src' => s :: masked_assign values' mask' src'
      | [] => v :: masked_assign values' mask' []
      end
  | v :: values', false :: mask' => v :: masked_assign values' mask' src
  | _, _ => values
  end.

(** ** The pseudo-random source

    Python's [random] module holds one generator.  Its output is a stream
    of draws; the state of the generator is the cursor into the stream.
    [uniform g] is what [random.random()] returns at cursor [g], and
    [bits g mod n] is what [randbelow(n)] returns there.  [patience] is
    the number of rounds for which the embedding follows a rejection
    loop of [random.sample]. *)

Class RandomSource : Type := {
  uniform : nat → R;
  bits : nat → nat;
  patience : nat
}.

Section Random.
Context `{RandomSource}.

(** [random.random()] *)
Definition random_random (g : nat) : R * nat := (uniform g, S g).

(** [random.randrange(n)] *)
Definition random_randrange (n : nat) (g : nat) : outcome nat * nat :=
  if decide (n = 0) then (Raise (ValueError EmptyRange), g)
  else (Ok (bits g mod n), S g).

(** [setsize] of [random.sample]: 21, plus [4 ** ceil(log(k * 3, 4))]
    for [k > 5]; [ceil(log(x, 4))] is half of [ceil(log(x, 2))],
    rounded up.  ([k * 3] is no power of 4, and for the length of a
    list the float logarithm stays clear of the integers.) *)
Definition setsize (k : nat) : nat :=
  21 + (if decide (5 < k) then 4 ^ ((Nat.log2_up (k * 3) + 1) / 2) else 0).

(** The branch of [random.sample] for [n <= setsize], which copies the
    population into a pool: [k] draws without replacement from [pool],
    of which the first [n - i] cells are still unselected; the selected
    cell is refilled with the last unselected one. *)
Fixpoint sample_loop {A : Type} (pool : list A) (n i k : nat) (g : nat)
  : list A :=
  match k with
  | 0 => []
  | S k' =>
      let j := bits g mod (n - i) in
      match pool !! j, pool !! (n - i - 1) with
      | Some x, Some y => x :: sample_loop (<[j:=y]> pool) n (S i) k' (S g)
      | _, _ => []
      end
  end.

(** The rejection loop of the other branch: [j = randbelow(n)], drawn
    again [while j in selected].  It returns the position with the
    cursor after it, or nothing when [fuel] draws were all selected
    positions. *)
Fixpoint draw_unselected (fuel n : nat) (selected : list nat) (g : nat)
  : option (nat * nat) :=
  match fuel with
  | 0 => None
  | S fuel' =>
      let j := bits g mod n in
      if decide (j ∈ selected) then draw_unselected fuel' n selected (S g)
      else Some (j, S g)
  end.

(** The branch of [random.sample] for [n > setsize], which tracks the
    selected positions in a set: [k] positions outside [selected], with
    the cells of the population at them.  (A drawn position is below
    [n], so the population has a cell there.) *)
Fixpoint sample_set {A : Type} (population : list A) (n : nat)
    (selected : list nat) (k g : nat) : option (list A * nat) :=
  match k with
  | 0 => Some ([], g)
  | S k' =>
      '(j, g) ← draw_unselected patience n selected g;
      x ← population !! j;
      '(result, g) ← sample_set population n (j :: selected) k' g;
      Some (x :: result, g)
  end.

(** [random.sample(population, k)] *)
Definition random_sample {A : Type} (population : list A) (k : nat)
    (g : nat) : outcome (list A) * nat :=
  let n := length population in
  if decide (k ≤ n) then
    if decide (n ≤ setsize k) then
      (Ok (sample_loop population n 0 k g), g + k)
    else
      match sample_set population n [] k g with
      | Some (result, g) => (Ok result, g)
      | None => (Unfinished, g)
      end
  else (Raise (ValueError SampleLargerThanPopulation), g).

(** The positions of a population of [n] cells that [random.sample]
    selects: the function run on the positions themselves. *)
Definition sample_positions (n k g : nat) : outcome (list nat) :=
  (random_sample (seq 0 n) k g).1.
End Random.

(** ** The demand model (cell 3) *)

Module Demand.
Local Open Scope R_scope.

Definition plus (x : R) : R := if Rlt_dec x 0 then 0 else x.

Definition minus (x : R) : R := if Rgt_dec x 0 then 0 else - x.

Definition shock (x : R) : R := sqrt x.

(** Demand at time step t for current price p_t and previous price
    p_t_1. *)
Definition q_t (p_t p_t_1 q_0 k a b : R) : R :=
  plus (q_0 - k * p_t - a * shock (plus (p_t - p_t_1))
        + b * shock (minus (p_t - p_t_1))).

(** Profit at time step t. *)
Definition profit_t (p_t p_t_1 q_0 k a b unit_cost : R) : R :=
  q_t p_t p_t_1 q_0 k a b * (p_t - unit_cost).

(** Environment parameters. *)
Definition q_0 : R := 5000.
Definition k : R := 20.
Definition unit_cost : R := 100.
Definition a_q : R := 300.
Definition b_q : R := 100.

(** The partial binding of cell 3. *)
Definition profit_t_response (p_t p_t_1 : R) : R :=
  profit_t p_t p_t_1 q_0 k a_q b_q unit_cost.
End Demand.

(** ** Configuration (cell 10, global config and hyperparameters) *)

Class Config : Type := {
  GAMMA : Q;
  TARGET_UPDATE : nat;
  BATCH_SIZE : nat;
  T : nat;
  price_grid : list Q
}.

(** ** The environment (cell 10) *)

Section Environment.
Context `{Config}.

(** [profit_t_response(price, prev_prices)], as cell 10 redefines it.
    Both arguments are taken from an integer state array. *)
Definition profit_t_response (price : Z) (prev_prices : list Z) : Q :=
  inject_Z price -
  (1 # 10) * inject_Z (np_sum (np_abs (np_diff prev_prices))).

(** [np.repeat(0, 2*T)]: an int64 array. *)
Definition env_initial_state : list Z := replicate (2 * T) 0%Z.

Definition env_step (t : nat) (state : list Z) (action : nat)
  : outcome (list Z * Q) :=
  (* np.zeros_like(state) keeps the integer dtype of [state] *)
  let next_state := replicate (length state) 0%Z in
  price ← getitem price_grid action;
  next_state ← setitem_float next_state 0 price;
  next_state ← set_slice next_state 1 (Z.of_nat T)
                 (get_slice state 0 (Z.of_nat T - 1));
  next_state ← setitem next_state (T + t) 1%Z;
  price0 ← getitem next_state 0;
  let reward :=
    profit_t_response price0 (get_slice next_state 1 (Z.of_nat T)) in
  Ok (next_state, reward).

(** The array a step builds from the entry [p] stored at index 0, the
    previous state and the time step: the previous window moved one
    place to the right, and the one-hot encoding of [t]. *)
Definition stepped (p : Z) (st : list Z) (t : nat) : list Z :=
  p :: take (T - 1) st ++ replicate t 0%Z ++ 1%Z :: replicate (T - S t) 0%Z.

(** The state of an episode in terms of the prices stored so far, the
    most recent first: the price window padded with zeros, then the
    one-hot encoding of the last time step.  Before the first step it
    is the initial state. *)
Definition episode_state (history : list Z) : list Z :=
  match history with
  | [] => env_initial_state
  | _ :: older =>
      take T (history ++ replicate T 0%Z) ++
      replicate (length older) 0%Z ++
      1%Z :: replicate (T - S (length older)) 0%Z
  end.
End Environment.

(** ** The transition record (cell 10)

    [Transition = namedtuple('Transition',
                             ('state', 'action', 'next_state', 'reward'))].
    [next_state] is [None] for the last step of an episode. *)

Record Transition : Type := mkTransition {
  state : list Z;
  action : nat;
  next_state : option (list Z);
  reward : Q
}.

(** ** Replay memory (cell 10, [class ReplayMemory]) *)

Module ReplayMemory.

(** A slot holds [None] between [append(None)] and the assignment that
    follows it, so the cells are optional transitions. *)
Record t : Type := mk {
  capacity : nat;
  memory : list (option Transition);
  position : nat
}.

(** [__init__] *)
Definition init (capacity : nat) : t :=
  {| capacity := capacity; memory := []; position := 0 |}.

(** [push] *)
Definition push (self : t) (tr : Transition) : outcome t :=
  let memory1 :=
    if decide (length (memory self) < capacity self)
    then memory self ++ [None]
    else memory self in
  memory2 ← setitem memory1 (position self) (Some tr);
  position' ← py_mod (position self + 1) (capacity self);
  Ok {| capacity := capacity self;
        memory := memory2;
        position := position' |}.

(** [sample] *)
Definition sample `{RandomSource} (self : t) (batch_size : nat) (g : nat)
  : outcome (list (option Transition)) * nat :=
  random_sample (memory self) batch_size g.

(** [__len__] *)
Definition len (self : t) : nat := length (memory self).

(** Pushing a sequence of transitions, oldest first. *)
Fixpoint push_all (self : t) (trs : list Transition) : outcome t :=
  match trs with
  | [] => Ok self
  | tr :: trs' => self' ← push self tr; push_all self' trs'
  end.

(** The stored cells read from the write cursor onwards, wrapping
    around: oldest first once the buffer is full. *)
Definition chronological (self : t) : list (option Transition) :=
  drop (position self) (memory self) ++ take (position self) (memory self).

(** The state reached after the pushes [trs] into a fresh buffer of
    capacity [C]. *)
Definition ring_inv (C : nat) (trs : list Transition) (self : t) : Prop :=
  capacity self = C ∧
  length (memory self) = length trs `min` C ∧
  position self = length trs mod C ∧
  chronological self = Some <$> drop (length trs - C) trs.

End ReplayMemory.

(** ** Results beyond the float64 range

    [float_max] is the largest float64.  A float division whose result
    lies beyond it returns inf, and [math.exp] of inf is inf; on a
    finite argument [math.exp] is the real exponential, and raises
    OverflowError when that lies beyond [float_max]. *)

Definition float_max : R := ((2 - / 2 ^ 52) * 2 ^ 1023)%R.

Definition math_exp (x : R) : outcome R :=
  if Rgt_dec (exp x) float_max then Raise OverflowError else Ok (exp x).

(** ** The exploration policy (cell 10, [class AnnealedEpsGreedyPolicy]) *)

Module AnnealedEpsGreedyPolicy.

Record t : Type := mk {
  eps_start : R;
  eps_end : R;
  eps_decay : R;
  steps_done : nat
}.

(** [__init__], whose defaults are 0.9, 0.05 and 400. *)
Definition init (eps_start eps_end eps_decay : R) : t :=
  {| eps_start := eps_start; eps_end := eps_end; eps_decay := eps_decay;
     steps_done := 0 |}.

(** The value bound to [eps_threshold] in [select_action], when
    [math.exp] returns a finite number. *)
Definition eps_threshold (self : t) : R :=
  (eps_end self + (eps_start self - eps_end self) *
   exp (-1 * INR (steps_done self) / eps_decay self))%R.

(** [self.steps_done += 1] *)
Definition count_step (self : t) : t :=
  {| eps_start := eps_start self; eps_end := eps_end self;
     eps_decay := eps_decay self; steps_done := steps_done self + 1 |}.

(** [select_action].  The object and the generator are mutated in
    place, so both are returned also when the call raises.  The float
    division by [eps_decay] raises when it is zero, and [math.exp]
    when its result is out of range, both before the counter is
    touched.  A quotient beyond the float64 range is inf, and so is
    its exponential: the threshold is then -inf for
    [eps_start < eps_end], which every draw exceeds, and inf or NaN
    otherwise, which no draw exceeds. *)
Definition select_action `{RandomSource} (self : t) (q_values : list Q)
    (g : nat) : t * nat * outcome nat :=
  let '(sample, g) := random_random g in
  if Req_dec_T (eps_decay self) 0 then (self, g, Raise ZeroDivisionError)
  else if Rgt_dec (-1 * INR (steps_done self) / eps_decay self) float_max then
    let self' := count_step self in
    if Rlt_dec (eps_start self) (eps_end self)
    then (self', g, np_argmax q_values)
    else
      let '(r, g) := random_randrange (length q_values) g in
      (self', g, r)
  else
    match math_exp (-1 * INR (steps_done self) / eps_decay self) with
    | Raise e => (self, g, Raise e)
    | Unfinished => (self, g, Unfinished)
    | Ok decay =>
        let threshold :=
          (eps_end self + (eps_start self - eps_end self) * decay)%R in
        let self := count_step self in
        if Rgt_dec sample threshold then (self, g, np_argmax q_values)
        else
          let '(r, g) := random_randrange (length q_values) g in
          (self, g, r)
    end.

(** A sequence of calls, one per value vector, whatever each returns. *)
Fixpoint select_actions `{RandomSource} (self : t)
    (calls : list (list Q)) (g : nat) : t * nat :=
  match calls with
  | [] => (self, g)
  | q_values :: calls' =>
      let '(self, g, _) := select_action self q_values g in
      select_actions self calls' g
  end.

End AnnealedEpsGreedyPolicy.

(** ** The value approximator

    [PolicyNetworkDQN] is used through its forward pass only; gradient
    computation and the AdamW update are one opaque operation on the
    trained parameters and the optimiser's state. *)

Class ValueApproximator : Type := {
  params : Type;
  optim : Type;
  (** [net(to_tensor(state))]: one value per action. *)
  forward : params → list Z → list Q;
  (** [optimizer.zero_grad(); loss.backward(); clamp the gradients;
      optimizer.step()] for the smooth-L1 loss between the values of the
      taken actions and the expected values. *)
  gradient_step :
    optim → params → list (list Z) → list nat → list Q → params * optim
}.

(** ** The training engine (cell 10) *)

Section Engine.
Context `{Config} `{RandomSource} `{ValueApproximator}.

(** The objects the main loop creates and mutates. *)
Record World : Type := mkWorld {
  policy_net : params;
  target_net : params;
  optimizer : optim;
  policy : AnnealedEpsGreedyPolicy.t;
  memory : ReplayMemory.t;
  rng : nat;
  return_trace : list Q;
  p_trace : list (list Q)
}.

(** The assignment to [batch]: the sampled rows are unpacked into
    [zip] and the four columns into [Transition].  A cell that is
    [None], or no row at all, is a [TypeError]. *)
Definition unzip_transitions (transitions : list (option Transition))
  : outcome (list Transition) :=
  match transitions with
  | [] => Raise TypeError
  | _ => mapM (λ c, match c with
                    | Some tr => Ok tr
                    | None => Raise TypeError
                    end) transitions
  end.

(** The body of [update_model] from the batch to the expected values
    (the Bellman targets).  It returns the stacked states and actions
    with them. *)
Definition expected_state_action_values (policy_net target_net : params)
    (transitions : list (option Transition))
  : outcome (list (list Z) * list nat * list Q * list Q) :=
  batch ← unzip_transitions transitions;
  let non_final_mask := (λ tr, bool_decide (is_Some (next_state tr))) <$> batch in
  non_final_next_states ← torch_stack (omap next_state batch);
  state_batch ← torch_stack (state <$> batch);
  action_batch ← torch_stack (action <$> batch);
  reward_batch ← torch_stack (reward <$> batch);
  state_action_values ←
    mapM (λ sa, gather_row (forward policy_net sa.1) sa.2)
         (zip state_batch action_batch);
  let next_state_values := replicate BATCH_SIZE 0%Q in
  maxima ← mapM (λ s, row_max (forward target_net s)) non_final_next_states;
  let next_state_values :=
    masked_assign next_state_values non_final_mask maxima in
  let expected :=
    zip_with (λ r v, (r + GAMMA * v)%Q) reward_batch next_state_values in
  Ok (state_batch, action_batch, state_action_values, expected).

(** [update_model] *)
Definition update_model (w : World) : outcome World :=
  if decide (ReplayMemory.len (memory w) < BATCH_SIZE) then Ok w
  else
    let '(sampled, g) :=
      ReplayMemory.sample (memory w) BATCH_SIZE (rng w) in
    transitions ← sampled;
    '(state_batch, action_batch, _, expected) ←
      expected_state_action_values (policy_net w) (target_net w) transitions;
    let '(policy_net', optimizer') :=
      gradient_step (optimizer w) (policy_net w)
                    state_batch action_batch expected in
    Ok {| policy_net := policy_net'; target_net := target_net w;
          optimizer := optimizer'; policy := policy w;
          memory := memory w; rng := g;
          return_trace := return_trace w; p_trace := p_trace w |}.

(** One iteration of [for t in range(T)].  [env_step] returns a fresh
    array and [to_tensor] copies, so the transition pushed here shares
    nothing with the state the loop goes on with. *)
Definition train_step (t : nat) (w : World) (st : list Z)
    (reward_trace p : list Q) : outcome (World * list Z * list Q * list Q) :=
  let q_values := forward (policy_net w) st in
  let '(policy', g, chosen) :=
    AnnealedEpsGreedyPolicy.select_action (policy w) q_values (rng w) in
  a ← chosen;
  '(next_st, r) ← env_step t st a;
  memory' ← ReplayMemory.push (memory w)
    {| state := st; action := a;
       next_state := if decide (t ≠ T - 1) then Some next_st else None;
       reward := r |};
  w ← update_model
    {| policy_net := policy_net w; target_net := target_net w;
       optimizer := optimizer w; policy := policy';
       memory := memory'; rng := g;
       return_trace := return_trace w; p_trace := p_trace w |};
  price ← getitem price_grid a;
  Ok (w, next_st, reward_trace ++ [r], p ++ [price]).

Fixpoint step_loop (ts : list nat) (w : World) (st : list Z)
    (reward_trace p : list Q) : outcome (World * list Q * list Q) :=
  match ts with
  | [] => Ok (w, reward_trace, p)
  | t :: ts' =>
      '(w, st, reward_trace, p) ← train_step t w st reward_trace p;
      step_loop ts' w st reward_trace p
  end.

(** [target_net.load_state_dict(policy_net.state_dict())] *)
Definition sync_target (w : World) : World :=
  {| policy_net := policy_net w; target_net := policy_net w;
     optimizer := optimizer w; policy := policy w;
     memory := memory w; rng := rng w;
     return_trace := return_trace w; p_trace := p_trace w |}.

(** One iteration of [for i_episode in range(num_episodes)]. *)
Definition run_episode (i_episode : nat) (w : World) : outcome World :=
  '(w, reward_trace, p) ← step_loop (seq 0 T) w env_initial_state [] [];
  let w :=
    {| policy_net := policy_net w; target_net := target_net w;
       optimizer := optimizer w; policy := policy w;
       memory := memory w; rng := rng w;
       return_trace := return_trace w ++ [foldl Qplus 0%Q reward_trace];
       p_trace := p_trace w ++ [p] |} in
  r ← py_mod i_episode TARGET_UPDATE;
  if decide (r = 0) then Ok (sync_target w) else Ok w.

Fixpoint episode_loop (episodes : list nat) (w : World) : outcome World :=
  match episodes with
  | [] => Ok w
  | i_episode :: episodes' =>
      w ← run_episode i_episode w; episode_loop episodes' w
  end.

(** The main training loop, from the objects as constructed. *)
Definition train (num_episodes : nat) (w : World) : outcome World :=
  episode_loop (seq 0 num_episodes) (sync_target w).
End Engine.

(** The transitions an episode stores when it takes the given actions
    from step [t] and state [st] on (the loop body without the policy
    and the update). *)
Fixpoint rollout `{Config} (t : nat) (st : list Z) (actions : list nat)
  : list Transition :=
  match actions with
  | [] => []
  | a :: actions' =>
      match env_step t st a with
      | Ok (next_st, r) =>
          {| state := st; action := a;
             next_state := if decide (t ≠ T - 1) then Some next_st else None;
             reward := r |} :: rollout (S t) next_st actions'
      | _ => []
      end
  end.

(** ** The notebook's configuration (cell 10) *)

(** [np.linspace(start, stop, num)] *)
Definition np_linspace (start stop : Q) (num : nat) : list Q :=
  (λ i : nat, start + inject_Z (Z.of_nat i) *
                      ((stop - start) / inject_Z (Z.of_nat (num - 1))))%Q
  <$> seq 0 num.

Module Notebook.
(** The grid prices are 80 + 40 i / 9.  Only the end points are integers,
    and NumPy stores those exactly, so truncating the rationals agrees
    with truncating the floats. *)
Definition config : Config :=
  {| GAMMA := 1; TARGET_UPDATE := 20; BATCH_SIZE := 512; T := 10;
     price_grid := np_linspace 80 120 10 |}.

(** [policy = AnnealedEpsGreedyPolicy()] *)
Definition policy : AnnealedEpsGreedyPolicy.t :=
  AnnealedEpsGreedyPolicy.init 0.9 0.05 400.

(** [memory = ReplayMemory(10000)] *)
Definition memory : ReplayMemory.t := ReplayMemory.init (100 * 100).

Definition num_episodes : nat := 1000.
End Notebook.

(** ** Stand-ins for the collaborators

    A generator, a value approximator and a small configuration on which
    the engine can be run inside the logic. *)

Module Standin.
(** Every uniform draw is 0: the policy always explores. *)
Definition zero_draws : RandomSource :=
  {| uniform := λ _, 0%R; bits := λ g, g; patience := 64 |}.

(** Every uniform draw is 1/2. *)
Definition half_draws : RandomSource :=
  {| uniform := λ _, (1 / 2)%R; bits := λ g, g; patience := 64 |}.

(** A table of one value per action, the same for every state; a
    gradient step replaces the table by the expected values. *)
Definition tabular : ValueApproximator :=
  {| params := list Q; optim := nat;
     forward := λ table _, table;
     gradient_step := λ count _ _ _ expected, (expected, S count) |}.

(** Two prices, two steps per episode, batches of two. *)
Definition small : Config :=
  {| GAMMA := 1; TARGET_UPDATE := 2; BATCH_SIZE := 2; T := 2;
     price_grid := [80; 100]%Q |}.

(** The same with one price, beyond the int64 range. *)
Definition overpriced : Config :=
  {| GAMMA := 1; TARGET_UPDATE := 2; BATCH_SIZE := 2; T := 2;
     price_grid := [inject_Z (10 ^ 19)] |}.

(** The notebook's policy with [eps_decay = - 1 / 1024], after one
    call. *)
Definition overflowing : AnnealedEpsGreedyPolicy.t :=
  AnnealedEpsGreedyPolicy.mk 0.9 0.05 (- / 1024) 1.

(** A transition that carries its tag in every field. *)
Definition tagged (terminal : bool) (n : nat) : Transition :=
  {| state := [Z.of_nat n]; action := n;
     next_state := if terminal then None else Some [Z.of_nat (S n)];
     reward := inject_Z (Z.of_nat n) |}.

(** The objects of the main loop before training. *)
Definition world0 : @World tabular :=
  @mkWorld tabular [0; 0]%Q [1; 1]%Q 0 Notebook.policy
           (ReplayMemory.init 4) 0 [] [].

(** The objects of the main loop with a full batch in the buffer: one
    transition with a next state and one without. *)
Definition world_mixed : @World tabular :=
  @mkWorld tabular [3; 7]%Q [2; 9; 4]%Q 0 Notebook.policy
           (ReplayMemory.mk 4 (Some <$> [tagged false 0; tagged true 1]) 2)
           0 [] [].

(** Every uniform draw is 0, and the raw integers are shifted by 3. *)
Definition late_draws : RandomSource :=
  {| uniform := λ _, 0%R; bits := λ g, g + 3; patience := 64 |}.

(** The raw integers of a table, then zeros. *)
Definition replaying (table : list nat) : RandomSource :=
  {| uniform := λ _, 0%R; bits := λ g, nth g table 0; patience := 64 |}.

(** The raw integers that make [random.sample] pick the positions
    5119, 5109, ..., 9 of a population of 5120 cells. *)
Definition descending_draws : RandomSource :=
  {| uniform := λ _, 0%R; bits := λ g, 512 * 10 - 1 - 10 * g;
     patience := 64 |}.

(** The ten transitions of an episode of the notebook's configuration
    that keeps the lowest price, and the last of them. *)
Definition episode_at_80 : list Transition :=
  @rollout Notebook.config 0 (@env_initial_state Notebook.config)
           (replicate 10 0).

Definition last_at_80 : Transition :=
  {| state := [80; 80; 80; 80; 80; 80; 80; 80; 80; 0;
               0; 0; 0; 0; 0; 0; 0; 0; 1; 0]%Z;
     action := 0; next_state := None; reward := 800 # 10 |}.

(** The objects of the main loop after 512 such episodes. *)
Definition world_512 : @World tabular :=
  @mkWorld tabular (replicate 10 0%Q) (replicate 10 0%Q) 0 Notebook.policy
           (ReplayMemory.mk (100 * 100)
              (Some <$> mjoin (replicate 512 episode_at_80)) (512 * 10))
           0 [] [].
End Standin.

(** ** The baseline strategies (cells 3, 5 and 6) *)

(** [l[i]] for any integer subscript: a negative one counts from the
    end. *)
Definition py_index {A : Type} (l : list A) (i : Z) : outcome A :=
  if decide (i < 0)%Z then
    if decide (0 <= i + Z.of_nat (length l))%Z
    then getitem l (Z.to_nat (i + Z.of_nat (length l)))
    else Raise IndexError
  else getitem l (Z.to_nat i).

(** [np.argmax] on real values: the index of the first occurrence of the
    maximum. *)
Fixpoint argmax_from_real (best_i : nat) (best : R) (i : nat) (l : list R)
  : nat :=
  match l with
  | [] => best_i
  | x :: l' =>
      if Rle_dec x best then argmax_from_real best_i best (S i) l'
      else argmax_from_real i x (S i) l'
  end.

Definition np_argmax_real (values : list R) : outcome nat :=
  match values with
  | [] => Raise (ValueError EmptyArgmax)
  | x :: l => Ok (argmax_from_real 0 x 1 l)
  end.

(** [np.arange(start, stop, step)] on integers, for a positive step as
    cell 3 calls it: [start + i * step] for the
    [ceil((stop - start) / step)] first [i]. *)
Definition np_arange (start stop : Z) (step : positive) : list Z :=
  (λ i : nat, (start + Z.of_nat i * Z.pos step)%Z) <$>
  seq 0 (Z.to_nat ((stop - start + Z.pos step - 1) / Z.pos step)).

Module Baseline.
Import Demand.
Local Open Scope R_scope.

(** Environment parameters and the price grid of cell 3. *)
Definition T : nat := 20.
Definition price_max : Z := 500.
Definition price_step : positive := 10.
Definition price_grid : list R :=
  IZR <$> np_arange (Z.pos price_step) price_max price_step.

(** Total profit for price vector p over len(p) time steps.  The sum
    runs over [range(len(p))], so its first term reads [p[-1]]. *)
Definition profit_total (p : list R) (unit_cost q_0 k a b : R) : outcome R :=
  p0 ← py_index p 0;
  let first := profit_t p0 p0 q_0 k 0 0 unit_cost in
  terms ← mapM (λ t : nat,
                  p_t ← py_index p (Z.of_nat t);
                  p_t_1 ← py_index p (Z.of_nat t - 1);
                  Ok (profit_t p_t p_t_1 q_0 k a b unit_cost))
               (seq 0 (length p));
  Ok (first + foldl Rplus 0 terms).

(** The partial binding of cell 3. *)
Definition profit_response (p : list R) : outcome R :=
  profit_total p unit_cost q_0 k a_q b_q.

(** Cell 5: the profits of the constant price vectors
    [np.repeat(p, T)], and the grid price with the largest one. *)
Definition constant_profits (T : nat) (price_grid : list R)
  : outcome (list R) :=
  mapM (λ p, profit_response (replicate T p)) price_grid.

Definition price_opt_const (T : nat) (price_grid : list R) : outcome R :=
  profits ← constant_profits T price_grid;
  p_idx ← np_argmax_real profits;
  getitem price_grid p_idx.

(** Cell 6.  [np.tile] makes one copy of [p_baseline] per grid price,
    the column assignment puts the grid prices at time [t], and the
    grid price of the most profitable row is returned.  (The baseline
    and the grid are integer arrays of cell 3, so no conversion takes
    place in the assignment.) *)
Definition find_optimal_price_t (p_baseline price_grid : list R) (t : nat)
  : outcome R :=
  let p_grid := replicate (length price_grid) p_baseline in
  p_grid ←
    (if decide (t < length p_baseline)%nat
     then Ok (zip_with (λ row c, <[t:=c]> row) p_grid price_grid)
     else Raise IndexError);
  profit_grid ← mapM profit_response p_grid;
  i ← np_argmax_real profit_grid;
  getitem price_grid i.

(** [for t in range(T): p_opt[t] = find_optimal_price_t(p_opt,
    price_grid, t)] *)
Fixpoint greedy_sweep (price_grid : list R) (ts : list nat)
    (p_opt : list R) : outcome (list R) :=
  match ts with
  | [] => Ok p_opt
  | t :: ts' =>
      price_t ← find_optimal_price_t p_opt price_grid t;
      p_opt ← setitem p_opt t price_t;
      greedy_sweep price_grid ts' p_opt
  end.

(** Cell 6 from the optimal constant price on. *)
Definition p_opt_greedy (T : nat) (price_grid : list R) : outcome (list R) :=
  price_opt_const ← price_opt_const T price_grid;
  greedy_sweep price_grid (seq 0 T) (replicate T price_opt_const).
End Baseline.

(** * Part II: properties *)

(** ** Outcomes *)

Lemma bind_Ok {A B} (a : A) (f : A → outcome B) : (Ok a ≫= f) = f a.
Proof. reflexivity. Qed.

Lemma bind_Raise {A B} (e : exn) (f : A → outcome B) :
  (Raise e ≫= f) = Raise e.
Proof. reflexivity. Qed.

Lemma mapM_cons {A B} (f : A → outcome B) (x : A) (l : list A) :
  mapM f (x :: l) = (f x ≫= λ y, mapM f l ≫= λ k, Ok (y :: k)).
Proof. reflexivity. Qed.

Lemma bind_Ok_inv {A B} (m : outcome A) (f : A → outcome B) (b : B) :
  m ≫= f = Ok b → ∃ a, m = Ok a ∧ f a = Ok b.
Proof. destruct m as [a|e|]; [eauto | discriminate..]. Qed.

(** ** Replay memory *)

Section ReplayMemoryFacts.
Import ReplayMemory.

Lemma push_all_snoc self trs tr :
  push_all self (trs ++ [tr]) = (self' ← push_all self trs; push self' tr).
Proof.
  revert self. induction trs as [|x trs IH]; intros self; simpl.
  - by destruct (push self tr).
  - destruct (push self x) as [self1|e|]; simpl; [apply IH | done..].
Qed.

Lemma ring_inv_init C : 1 ≤ C → ring_inv C [] (init C).
Proof.
  intros HC. unfold ring_inv, chronological; simpl.
  rewrite Nat.Div0.mod_0_l. done.
Qed.

(** While the buffer is not full a push appends. *)
Lemma push_grow C trs self tr :
  ring_inv C trs self → length trs < C →
  ∃ self', push self tr = Ok self' ∧
           memory self' = memory self ++ [Some tr] ∧
           ring_inv C (trs ++ [tr]) self'.
Proof.
  intros (Hcap & Hlen & Hpos & Hchr) Hn.
  destruct self as [cap mem pos]; simpl in *. subst cap.
  rewrite Nat.min_l in Hlen by lia.
  rewrite Nat.mod_small in Hpos by lia. subst pos.
  unfold chronological in Hchr; simpl in Hchr.
  rewrite <- Hlen, drop_ge, take_ge in Hchr by lia. simpl in Hchr.
  replace (length mem - C) with 0 in Hchr by lia. rewrite drop_0 in Hchr.
  unfold push, setitem, py_mod; simpl.
  rewrite !(decide_True (P:=length mem < C)) by lia.
  rewrite (decide_True (P:=length trs < length (mem ++ [None])))
    by (rewrite length_app; simpl; lia).
  rewrite (decide_False (P:=C = 0)) by lia. simpl.
  assert (Hins : <[length trs:=Some tr]> (mem ++ [None]) = mem ++ [Some tr]).
  { rewrite <- Hlen. replace (length mem) with (length mem + 0) at 1 by lia.
    by rewrite insert_app_r. }
  rewrite Hins. eexists; split; [done|]. split; [done|].
  unfold ring_inv, chronological; simpl.
  rewrite !length_app; simpl.
  split; [done|]. split; [lia|]. split; [done|].
  replace (length trs + 1 - C) with 0 by lia. rewrite drop_0, fmap_app.
  simpl. rewrite <- Hchr.
  destruct (decide (length trs + 1 = C)) as [HC|HC].
  - rewrite HC, Nat.Div0.mod_same. simpl. by rewrite app_nil_r.
  - rewrite Nat.mod_small by lia.
    rewrite drop_ge, take_ge by (rewrite length_app; simpl; lia). done.
Qed.

(** Once the buffer is full a push overwrites the cell under the cursor,
    which holds the oldest retained transition. *)
Lemma push_overwrite C trs self tr :
  1 ≤ C → ring_inv C trs self → C ≤ length trs →
  ∃ self', push self tr = Ok self' ∧
           memory self' = <[position self:=Some tr]> (memory self) ∧
           memory self !! position self = Some (trs !! (length trs - C)) ∧
           ring_inv C (trs ++ [tr]) self'.
Proof.
  intros HC (Hcap & Hlen & Hpos & Hchr) Hn.
  destruct self as [cap mem pos]; simpl in *. subst cap.
  rewrite Nat.min_r in Hlen by lia.
  assert (Hp : pos < C) by (subst pos; apply Nat.mod_upper_bound; lia).
  unfold chronological in Hchr; simpl in Hchr.
  unfold push, setitem, py_mod; simpl.
  rewrite !(decide_False (P:=length mem < C)) by lia.
  rewrite (decide_True (P:=pos < length mem)) by lia.
  rewrite (decide_False (P:=C = 0)) by lia. simpl.
  eexists; split; [done|]. split; [done|].
  destruct (lookup_lt_is_Some_2 mem pos) as [old Hold]; [lia|].
  rewrite (drop_S _ _ _ Hold) in Hchr.
  destruct (lookup_lt_is_Some_2 trs (length trs - C)) as [x Hx]; [lia|].
  rewrite (drop_S _ _ _ Hx), fmap_cons in Hchr.
  change ((old :: drop (S pos) mem) ++ take pos mem)
    with (old :: (drop (S pos) mem ++ take pos mem)) in Hchr.
  injection Hchr as Hhd Htl.
  split; [by rewrite Hold, Hx, Hhd|].
  unfold ring_inv, chronological; simpl.
  rewrite !length_app, length_insert; simpl.
  split; [done|]. split; [lia|].
  split; [by rewrite Hpos, Nat.Div0.add_mod_idemp_l|].
  replace (length trs + 1 - C) with (S (length trs - C)) by lia.
  rewrite drop_app_le by lia. rewrite fmap_app, <- Htl. simpl.
  rewrite insert_take_drop by lia.
  destruct (decide (pos + 1 = C)) as [HpC|HpC].
  - rewrite HpC, Nat.Div0.mod_same. simpl.
    rewrite (drop_ge mem (S pos)) by lia. by rewrite app_nil_r.
  - rewrite Nat.mod_small by lia.
    replace (pos + 1) with (length (take pos mem) + 1)
      by (rewrite length_take; lia).
    rewrite drop_app_add, take_app_add. simpl.
    rewrite drop_0, take_0. by rewrite <- app_assoc.
Qed.

Lemma push_ring_inv C trs self tr :
  1 ≤ C → ring_inv C trs self →
  ∃ self', push self tr = Ok self' ∧ ring_inv C (trs ++ [tr]) self'.
Proof.
  intros HC Hinv. destruct (decide (length trs < C)) as [Hn|Hn].
  - destruct (push_grow C trs self tr Hinv Hn) as (self' & ? & ? & ?); eauto.
  - destruct (push_overwrite C trs self tr HC Hinv) as (self' & ? & ? & ? & ?);
      [lia | eauto].
Qed.

Lemma push_all_ring_inv C trs :
  1 ≤ C → ∃ self, push_all (init C) trs = Ok self ∧ ring_inv C trs self.
Proof.
  intros HC. induction trs as [|tr trs IH] using rev_ind.
  - exists (init C). split; [done | by apply ring_inv_init].
  - destruct IH as (self & Hrun & Hinv).
    destruct (push_ring_inv C trs self tr HC Hinv) as (self' & Hpush & Hinv').
    exists self'. split; [|done].
    rewrite push_all_snoc, Hrun. exact Hpush.
Qed.

Lemma chronological_perm self : chronological self ≡ₚ memory self.
Proof.
  unfold chronological.
  rewrite (Permutation_app_comm (drop _ _)). by rewrite take_drop.
Qed.

(** C3.  After [C + k] pushes into a fresh buffer of capacity [C ≥ 1]
    every push has succeeded, [len] is [min (C + k) C], and the cells
    are exactly the [C] most recent transitions: read from the cursor
    they are the pushed sequence without its [k] oldest elements, none
    of which is left in the buffer when the transitions are pairwise
    distinct.  The cell under the cursor holds the oldest retained
    transition and is the one the next push overwrites.  Whatever the
    number of pushes, they succeed and [len] stays within the
    capacity. *)
Theorem replay_memory_ring (C k : nat) (trs : list Transition) :
  1 ≤ C → length trs = C + k →
  (∃ self,
     push_all (init C) trs = Ok self ∧
     len self = (C + k) `min` C ∧
     chronological self = Some <$> drop k trs ∧
     memory self ≡ₚ Some <$> drop k trs ∧
     (NoDup trs → ∀ tr, tr ∈ take k trs → Some tr ∉ memory self) ∧
     ∀ tr, ∃ oldest self',
       trs !! k = Some oldest ∧
       memory self !! position self = Some (Some oldest) ∧
       push self tr = Ok self' ∧
       memory self' = <[position self:=Some tr]> (memory self) ∧
       chronological self' = Some <$> drop (S k) (trs ++ [tr])) ∧
  (∀ pushed, ∃ self,
     push_all (init C) pushed = Ok self ∧
     len self = length pushed `min` C ∧ len self ≤ capacity self).
Proof.
  intros HC Hlen. split.
  - destruct (push_all_ring_inv C trs HC) as (self & Hrun & Hinv).
    exists self. pose proof Hinv as (Hcap & Hl & Hpos & Hchr).
    replace (length trs - C) with k in Hchr by lia.
    split; [done|]. split; [unfold len; by rewrite Hl, Hlen|].
    split; [done|].
    assert (Hcells : memory self ≡ₚ Some <$> drop k trs)
      by (by rewrite <- Hchr, chronological_perm).
    split; [done|]. split.
    { intros Hnd tr Htake Hin. rewrite Hcells in Hin.
      apply list_elem_of_fmap_inj in Hin; [|by intros ? ? [= ->]].
      rewrite <- (take_drop k trs) in Hnd.
      apply NoDup_app in Hnd as (_ & Hdisj & _). by eapply Hdisj. }
    intros tr.
    destruct (push_overwrite C trs self tr HC Hinv)
      as (self' & Hpush & Hmem & Hold & Hinv'); [lia|].
    replace (length trs - C) with k in Hold by lia.
    destruct (lookup_lt_is_Some_2 trs k) as [oldest Hk]; [lia|].
    exists oldest, self'. rewrite Hk in Hold.
    destruct Hinv' as (_ & _ & _ & Hchr').
    rewrite length_app in Hchr'; simpl in Hchr'.
    replace (length trs + 1 - C) with (S k) in Hchr' by lia.
    done.
  - intros pushed.
    destruct (push_all_ring_inv C pushed HC) as (self & Hrun & Hinv).
    exists self. destruct Hinv as (Hcap & Hl & _ & _).
    unfold len. rewrite Hl, Hcap. split; [done|]. split; [done | lia].
Qed.

End ReplayMemoryFacts.

(** ** Sampling without replacement *)

Section SamplingFacts.
Context `{RandomSource}.

(** Selecting cell [j] of the [m] unselected cells and refilling it
    with the last of them leaves the other [m - 1] unselected. *)
Lemma select_and_refill {A} (pool : list A) (m j : nat) (x y : A) :
  j < m → pool !! j = Some x → pool !! (m - 1) = Some y →
  x :: take (m - 1) (<[j:=y]> pool) ≡ₚ take m pool.
Proof.
  intros Hj Hx Hy.
  replace m with (S (m - 1)) at 2 by lia.
  rewrite (take_S_r _ _ _ Hy).
  destruct (decide (j = m - 1)) as [->|Hne].
  - rewrite take_insert_ge by lia.
    assert (x = y) by congruence. subst y.
    apply Permutation_cons_append.
  - rewrite take_insert_lt by lia.
    set (l := take (m - 1) pool).
    assert (Hl : l !! j = Some x).
    { unfold l. rewrite lookup_take_lt by lia. done. }
    assert (Hjl : j < length l) by (eapply lookup_lt_Some; eauto).
    rewrite insert_take_drop by done.
    rewrite <- (take_drop_middle l j x Hl) at 3.
    rewrite <- !app_assoc. simpl.
    rewrite (Permutation_middle (take j l) _ x).
    apply Permutation_app_head, Permutation_skip, Permutation_cons_append.
Qed.

Lemma sample_loop_spec {A} (k : nat) :
  ∀ (pool : list A) (n i g : nat),
    n ≤ length pool → i + k ≤ n →
    length (sample_loop pool n i k g) = k ∧
    sample_loop pool n i k g ⊆+ take (n - i) pool.
Proof.
  induction k as [|k IH]; intros pool n i g Hn Hk; simpl.
  - split; [done | apply submseteq_nil_l].
  - assert (Hj : bits g mod (n - i) < n - i)
      by (apply Nat.mod_upper_bound; lia).
    destruct (lookup_lt_is_Some_2 pool (bits g mod (n - i))) as [x Hx];
      [lia|].
    destruct (lookup_lt_is_Some_2 pool (n - i - 1)) as [y Hy]; [lia|].
    rewrite Hx, Hy.
    destruct (IH (<[bits g mod (n - i):=y]> pool) n (S i) (S g)) as [IHl IHs];
      [by rewrite length_insert | lia |].
    split; [simpl; by rewrite IHl|].
    rewrite <- (select_and_refill pool (n - i) _ x y Hj Hx Hy).
    apply submseteq_skip.
    replace (n - i - 1) with (n - S i) by lia. done.
Qed.

(** A position that the rejection loop returns is an unselected
    position of the population. *)
Lemma draw_unselected_Some (fuel n : nat) (selected : list nat) :
  ∀ g j g', 0 < n → draw_unselected fuel n selected g = Some (j, g') →
            j < n ∧ j ∉ selected.
Proof.
  induction fuel as [|fuel IH]; intros g j g' Hn Hrun; [discriminate|].
  simpl in Hrun. case_decide as Hsel; [by eapply IH|].
  injection Hrun as <- <-. split; [by apply Nat.mod_upper_bound; lia | done].
Qed.

(** The loop returns when one of the [fuel] draws is unselected. *)
Lemma draw_unselected_returns (fuel n : nat) (selected : list nat) :
  ∀ g, (∃ d, d < fuel ∧ bits (g + d) mod n ∉ selected) →
       ∃ j g', draw_unselected fuel n selected g = Some (j, g').
Proof.
  induction fuel as [|fuel IH]; intros g (d & Hd & Hfresh); [lia|].
  simpl. case_decide as Hsel; [|eauto].
  apply IH. destruct d as [|d].
  - rewrite Nat.add_0_r in Hfresh. contradiction.
  - exists d. split; [lia|]. by replace (S g + d) with (g + S d) by lia.
Qed.

(** The set branch selects pairwise distinct unselected positions and
    returns the cells at them. *)
Lemma sample_set_spec {A} (population : list A) (n k : nat) :
  ∀ (selected : list nat) (g : nat) (result : list A) (g' : nat),
    0 < n →
    sample_set population n selected k g = Some (result, g') →
    ∃ positions,
      sample_set (seq 0 n) n selected k g = Some (positions, g') ∧
      length positions = k ∧ NoDup positions ∧
      (∀ p, p ∈ positions → p < n ∧ p ∉ selected) ∧
      Forall2 (λ p c, population !! p = Some c) positions result.
Proof.
  induction k as [|k IH]; intros selected g result g' Hn Hrun; simpl in *.
  - injection Hrun as <- <-. exists [].
    split; [done|]. split; [done|]. split; [constructor|].
    split; [|constructor]. intros p Hp. by apply elem_of_nil in Hp.
  - destruct (draw_unselected patience n selected g) as [[j g1]|] eqn:Hdraw;
      [|discriminate].
    apply draw_unselected_Some in Hdraw as [Hj Hfresh]; [|done].
    simpl in *. destruct (population !! j) as [x|] eqn:Hx; [|discriminate].
    simpl in Hrun.
    destruct (sample_set population n (j :: selected) k g1)
      as [[rest g2]|] eqn:Hrest; [|discriminate].
    simpl in Hrun. injection Hrun as <- <-.
    destruct (IH _ _ _ _ Hn Hrest) as (ps & Hps & Hlen & Hnd & Hin & Hcells).
    exists (j :: ps). rewrite lookup_seq_lt by done. simpl. rewrite Hps. simpl.
    split; [done|]. split; [by rewrite Hlen|]. split; [|split].
    + apply NoDup_cons. split; [|done]. intros Hjp.
      destruct (Hin j Hjp) as [_ Hnot]. apply Hnot, list_elem_of_here.
    + intros p Hp. apply elem_of_cons in Hp as [->|Hp]; [done|].
      destruct (Hin p Hp) as [Hlt Hnot]. split; [done|].
      intros Hsel. apply Hnot. by apply list_elem_of_further.
    + by constructor.
Qed.

(** With a generator whose draws leave the selected positions within
    [patience] rounds, the set branch returns. *)
Lemma sample_set_returns {A} (population : list A) (n k : nat) :
  (∀ g selected, length selected < n →
     ∃ d, d < patience ∧ bits (g + d) mod n ∉ selected) →
  n ≤ length population →
  ∀ (selected : list nat) (g : nat),
    length selected + k ≤ n →
    ∃ result g', sample_set population n selected k g = Some (result, g').
Proof.
  intros Hfair Hn. induction k as [|k IH]; intros selected g Hk; simpl.
  - eauto.
  - destruct (draw_unselected_returns patience n selected g)
      as (j & g1 & Hdraw); [apply Hfair; lia|].
    rewrite Hdraw. simpl.
    apply draw_unselected_Some in Hdraw as [Hj _]; [|lia].
    destruct (lookup_lt_is_Some_2 population j) as [x Hx]; [lia|].
    rewrite Hx. simpl.
    destruct (IH (j :: selected) g1) as (rest & g2 & Hrest); [simpl; lia|].
    rewrite Hrest. simpl. eauto.
Qed.

(** The cells the loop returns are the cells at the positions it selects. *)
Lemma sample_loop_positions {A} (population : list A) (k : nat) :
  ∀ (positions : list nat) (pool : list A) (n i g : nat),
    Forall2 (λ p c, population !! p = Some c) positions pool →
    Forall2 (λ p c, population !! p = Some c)
            (sample_loop positions n i k g) (sample_loop pool n i k g).
Proof.
  induction k as [|k IH]; intros positions pool n i g Hrel; simpl; [constructor|].
  destruct (positions !! (bits g mod (n - i))) as [p|] eqn:Hp.
  - destruct (Forall2_lookup_l _ _ _ _ _ Hrel Hp) as (c & Hc & Hpc).
    rewrite Hc.
    destruct (positions !! (n - i - 1)) as [q|] eqn:Hq.
    + destruct (Forall2_lookup_l _ _ _ _ _ Hrel Hq) as (d & Hd & Hqd).
      rewrite Hd. constructor; [done|]. apply IH. by apply Forall2_insert.
    + assert (pool !! (n - i - 1) = None) as ->.
      { apply lookup_ge_None. apply lookup_ge_None in Hq.
        by rewrite <- (Forall2_length _ _ _ Hrel). }
      constructor.
  - assert (pool !! (bits g mod (n - i)) = None) as ->.
    { apply lookup_ge_None. apply lookup_ge_None in Hp.
      by rewrite <- (Forall2_length _ _ _ Hrel). }
    constructor.
Qed.

Lemma positions_of_population {A} (population : list A) :
  Forall2 (λ p c, population !! p = Some c)
          (seq 0 (length population)) population.
Proof.
  apply Forall2_same_length_lookup. split; [by rewrite length_seq|].
  intros i p c Hp Hc. apply lookup_seq in Hp as [-> _]. done.
Qed.

Lemma submseteq_NoDup {A} (l k : list A) : l ⊆+ k → NoDup k → NoDup l.
Proof.
  intros Hsub Hk. apply submseteq_sublist_r in Hsub as (k' & Hp & Hsl).
  rewrite Hp. by eapply sublist_NoDup.
Qed.

(** Cells at pairwise distinct positions are a sub-multiset of the
    population. *)
Lemma cells_submseteq {A} (population : list A) (positions : list nat)
    (cells : list A) :
  NoDup positions →
  Forall2 (λ p c, population !! p = Some c) positions cells →
  cells ⊆+ population.
Proof.
  intros Hnd Hcells.
  assert (Hps : positions ⊆+ seq 0 (length population)).
  { apply NoDup_submseteq; [done|]. intros p Hp.
    apply list_elem_of_lookup in Hp as [i Hi].
    destruct (Forall2_lookup_l _ _ _ _ _ Hcells Hi) as (c & _ & Hc).
    apply elem_of_seq. apply lookup_lt_Some in Hc. lia. }
  destruct population as [|c0 population'] eqn:Hpop.
  { destruct Hcells as [|p c ps cs Hc _]; [done|]. discriminate. }
  rewrite <- Hpop in *.
  assert (Hmap : cells = (λ p, default c0 (population !! p)) <$> positions).
  { clear Hps Hnd. induction Hcells as [|p c ps cs Hc _ IH]; [done|].
    rewrite fmap_cons, Hc, <- IH. done. }
  assert (Hall : population
                 = (λ p, default c0 (population !! p)) <$>
                   seq 0 (length population)).
  { apply list_eq. intros i. rewrite list_lookup_fmap.
    destruct (decide (i < length population)) as [Hi|Hi].
    - rewrite lookup_seq_lt by done. simpl.
      destruct (lookup_lt_is_Some_2 population i Hi) as [c Hc].
      by rewrite Hc.
    - rewrite lookup_seq_ge by lia. simpl.
      by rewrite lookup_ge_None_2 by lia. }
  rewrite Hmap. etrans; [by apply fmap_submseteq|]. by rewrite <- Hall.
Qed.

(** What a sample that returns has returned. *)
Lemma random_sample_Ok {A} (population : list A) (k g : nat)
    (cells : list A) :
  (random_sample population k g).1 = Ok cells →
  k ≤ length population ∧ length cells = k ∧ cells ⊆+ population ∧
  ∃ positions,
    (random_sample (seq 0 (length population)) k g).1 = Ok positions ∧
    NoDup positions ∧
    Forall2 (λ p c, population !! p = Some c) positions cells.
Proof.
  unfold random_sample. rewrite length_seq.
  case_decide as Hk; [|discriminate]. case_decide as Hsmall; simpl.
  - intros [= <-].
    destruct (sample_loop_spec k population (length population) 0 g)
      as [Hl Hs]; [done | lia |].
    rewrite Nat.sub_0_r, take_ge in Hs by done.
    split; [done|]. split; [done|]. split; [done|].
    eexists. split; [done|]. split.
    + destruct (sample_loop_spec k (seq 0 (length population))
                  (length population) 0 g) as [_ Hsub];
        [by rewrite length_seq | lia |].
      eapply submseteq_NoDup; [exact Hsub|].
      rewrite Nat.sub_0_r, take_ge by (by rewrite length_seq).
      apply NoDup_seq.
    + apply sample_loop_positions, positions_of_population.
  - destruct (sample_set population (length population) [] k g)
      as [[result g']|] eqn:Hrun; [|discriminate].
    simpl. intros [= <-].
    assert (Hn : 0 < length population) by (unfold setsize in Hsmall; lia).
    destruct (sample_set_spec population _ k [] g result g' Hn Hrun)
      as (ps & Hps & Hlen & Hnd & Hin & Hcells).
    rewrite Hps. simpl.
    split; [done|]. split; [by rewrite <- (Forall2_length _ _ _ Hcells)|].
    split; [by eapply cells_submseteq|]. eauto.
Qed.

(** [random.sample] raises nothing for [k] within the population. *)
Lemma random_sample_no_raise {A} (population : list A) (k g : nat) (e : exn) :
  k ≤ length population → (random_sample population k g).1 ≠ Raise e.
Proof.
  intros Hk. unfold random_sample. rewrite decide_True by done.
  case_decide; [done|]. by destruct (sample_set _ _ _ _ _) as [[??]|].
Qed.

Lemma sample_Ok_length (self : ReplayMemory.t) (n g : nat)
    (batch : list (option Transition)) :
  (ReplayMemory.sample self n g).1 = Ok batch → length batch = n.
Proof. intros Hrun. by apply random_sample_Ok in Hrun as (_ & Hl & _). Qed.

End SamplingFacts.

(** The loop reads the generator at the cursors from [g] on only. *)
Lemma sample_loop_ext {A} (H1 H2 : RandomSource) (k : nat) :
  ∀ (pool : list A) (n i g : nat),
    (∀ c, g ≤ c → @bits H1 c = @bits H2 c) →
    @sample_loop H1 A pool n i k g = @sample_loop H2 A pool n i k g.
Proof.
  induction k as [|k IH]; intros pool n i g Hext; simpl; [done|].
  rewrite (Hext g) by lia.
  destruct (pool !! (@bits H2 g mod (n - i))); [|done].
  destruct (pool !! (n - i - 1)); [|done].
  f_equal. apply IH. intros c Hc. apply Hext. lia.
Qed.

(** Two runs that select the same positions made the same draws. *)
Lemma sample_loop_inj {A} (H1 H2 : RandomSource) (k : nat) :
  ∀ (pool : list A) (n i g1 g2 : nat),
    n ≤ length pool → i + k ≤ n → NoDup (take (n - i) pool) →
    @sample_loop H1 A pool n i k g1 = @sample_loop H2 A pool n i k g2 →
    ∀ m, m < k →
         @bits H1 (g1 + m) mod (n - i - m) = @bits H2 (g2 + m) mod (n - i - m).
Proof.
  induction k as [|k IH]; intros pool n i g1 g2 Hn Hk Hnd Heq m Hm; [lia|].
  simpl in Heq.
  assert (Hj1 : @bits H1 g1 mod (n - i) < n - i)
    by (apply Nat.mod_upper_bound; lia).
  assert (Hj2 : @bits H2 g2 mod (n - i) < n - i)
    by (apply Nat.mod_upper_bound; lia).
  destruct (lookup_lt_is_Some_2 pool (@bits H1 g1 mod (n - i))) as [x1 Hx1];
    [lia|].
  destruct (lookup_lt_is_Some_2 pool (@bits H2 g2 mod (n - i))) as [x2 Hx2];
    [lia|].
  destruct (lookup_lt_is_Some_2 pool (n - i - 1)) as [y Hy]; [lia|].
  rewrite Hx1, Hx2, Hy in Heq. injection Heq as Hx Hrest. subst x2.
  assert (Hj : @bits H1 g1 mod (n - i) = @bits H2 g2 mod (n - i)).
  { eapply (NoDup_lookup (take (n - i) pool)); [done| |];
      rewrite lookup_take_lt by lia; done. }
  destruct m as [|m].
  - by rewrite !Nat.add_0_r, !Nat.sub_0_r.
  - rewrite <- Hj in Hrest.
    replace (g1 + S m) with (S g1 + m) by lia.
    replace (g2 + S m) with (S g2 + m) by lia.
    replace (n - i - S m) with (n - S i - m) by lia.
    eapply (IH (<[@bits H1 g1 mod (n - i):=y]> pool) n (S i) (S g1) (S g2));
      [by rewrite length_insert | lia | | done | lia].
    pose proof (select_and_refill pool (n - i) _ x1 y Hj1 Hx1 Hy) as Hperm.
    rewrite <- Hperm in Hnd. apply NoDup_cons in Hnd as [_ Hnd].
    by replace (n - S i) with (n - i - 1) by lia.
Qed.

(** Every sequence of pairwise distinct cells of the unselected part of
    the pool is selected by some generator. *)
Lemma sample_loop_surj {A} (ps : list A) :
  ∀ (pool : list A) (n i g : nat),
    n ≤ length pool → i ≤ n → NoDup ps →
    (∀ p, p ∈ ps → p ∈ take (n - i) pool) →
    ∃ H : RandomSource, @sample_loop H A pool n i (length ps) g = ps.
Proof.
  induction ps as [|p ps IH]; intros pool n i g Hn Hi Hnd Hin.
  - by exists Standin.zero_draws.
  - apply NoDup_cons in Hnd as [Hp Hnd].
    destruct (proj1 (elem_of_take _ _ _) (Hin p (list_elem_of_here _ _)))
      as (j & Hj & Hlt).
    destruct (lookup_lt_is_Some_2 pool (n - i - 1)) as [y Hy]; [lia|].
    pose proof (select_and_refill pool (n - i) j p y Hlt Hj Hy) as Hperm.
    destruct (IH (<[j:=y]> pool) n (S i) (S g)) as [H' Hrun];
      [by rewrite length_insert | lia | done | |].
    { intros q Hq. replace (n - S i) with (n - i - 1) by lia.
      assert (Hq' : q ∈ p :: take (n - i - 1) (<[j:=y]> pool)).
      { rewrite Hperm. apply Hin. by apply list_elem_of_further. }
      apply elem_of_cons in Hq' as [->|Hq']; [contradiction | done]. }
    exists {| uniform := @uniform H';
              bits := λ c, if decide (c = g) then j else @bits H' c;
              patience := @patience H' |}.
    simpl. rewrite decide_True by done.
    rewrite Nat.mod_small by done. rewrite Hj, Hy. f_equal.
    etrans; [|exact Hrun]. apply sample_loop_ext.
    intros c Hc. simpl. by rewrite decide_False by lia.
Qed.

(** Relabelling the positions that the generator draws relabels the
    positions that the rejection loop and the set branch select. *)
Lemma draw_unselected_relabel (H1 H2 : RandomSource) (σ : nat → nat)
    (n : nat) :
  (∀ x y, x < n → y < n → σ x = σ y → x = y) →
  (∀ c, @bits H2 c mod n = σ (@bits H1 c mod n)) →
  0 < n →
  ∀ (fuel : nat) (selected : list nat) (g : nat),
    (∀ p, p ∈ selected → p < n) →
    @draw_unselected H2 fuel n (σ <$> selected) g
    = (λ jg : nat * nat, (σ jg.1, jg.2)) <$>
      @draw_unselected H1 fuel n selected g.
Proof.
  intros Hinj Hbits Hn fuel selected. induction fuel as [|fuel IH];
    intros g Hsel; [done|].
  simpl. rewrite Hbits.
  assert (Hj : @bits H1 g mod n < n) by (by apply Nat.mod_upper_bound; lia).
  destruct (decide (@bits H1 g mod n ∈ selected)) as [Hin|Hout].
  - rewrite decide_True by (by apply list_elem_of_fmap_2).
    by apply IH.
  - rewrite decide_False; [done|]. intros Hin.
    apply list_elem_of_fmap in Hin as (y & Heq & Hy).
    apply Hinj in Heq; [|done|by apply Hsel]. by subst y.
Qed.

Lemma sample_set_relabel (H1 H2 : RandomSource) (σ : nat → nat) (n : nat) :
  (∀ x y, x < n → y < n → σ x = σ y → x = y) →
  (∀ x, x < n → σ x < n) →
  (∀ c, @bits H2 c mod n = σ (@bits H1 c mod n)) →
  @patience H2 = @patience H1 →
  0 < n →
  ∀ (k : nat) (selected : list nat) (g : nat),
    (∀ p, p ∈ selected → p < n) →
    @sample_set H2 nat (seq 0 n) n (σ <$> selected) k g
    = (λ rg : list nat * nat, (σ <$> rg.1, rg.2)) <$>
      @sample_set H1 nat (seq 0 n) n selected k g.
Proof.
  intros Hinj Hrange Hbits Hpat Hn k. induction k as [|k IH];
    intros selected g Hsel; [done|].
  simpl. rewrite Hpat.
  rewrite (draw_unselected_relabel H1 H2 σ n Hinj Hbits Hn) by done.
  destruct (@draw_unselected H1 (@patience H1) n selected g)
    as [[j g1]|] eqn:Hdraw; [|done].
  apply draw_unselected_Some in Hdraw as [Hj _]; [|done].
  simpl. rewrite !lookup_seq_lt by auto. simpl.
  change (σ j :: (σ <$> selected)) with (σ <$> j :: selected).
  rewrite IH.
  - by destruct (@sample_set H1 nat (seq 0 n) n (j :: selected) k g1)
      as [[rest g2]|].
  - intros p Hp. apply elem_of_cons in Hp as [->|Hp]; auto.
Qed.

(** Every sequence of pairwise distinct positions is selected by the
    set branch for some generator: the one that draws them. *)
Lemma sample_set_surj (n : nat) (ps : list nat) :
  NoDup ps → (∀ p, p ∈ ps → p < n) →
  ∃ H : RandomSource,
    @sample_set H nat (seq 0 n) n [] (length ps) 0 = Some (ps, length ps).
Proof.
  intros Hnd Hlt.
  set (H := {| uniform := λ _, 0%R; bits := λ c, default 0 (ps !! c);
               patience := 1 |}).
  exists H.
  assert (Hgen : ∀ (rest drawn selected : list nat),
    ps = drawn ++ rest → (∀ p, p ∈ selected → p ∈ drawn) →
    @sample_set H nat (seq 0 n) n selected (length rest) (length drawn)
    = Some (rest, length drawn + length rest)).
  { induction rest as [|p rest IH]; intros drawn selected Hps Hsel.
    - simpl. by rewrite Nat.add_0_r.
    - assert (Hp : ps !! length drawn = Some p)
        by (rewrite Hps; by apply list_lookup_middle).
      assert (Hpn : p < n) by (eapply Hlt, list_elem_of_lookup_2, Hp).
      assert (Hfresh : p ∉ selected).
      { intros Hin. apply Hsel in Hin. rewrite Hps in Hnd.
        apply NoDup_app in Hnd as (_ & Hdis & _).
        apply (Hdis p Hin), list_elem_of_here. }
      cbn [sample_set length]. cbn [patience H draw_unselected bits].
      rewrite Hp. cbn [default from_option id].
      rewrite Nat.mod_small by done. rewrite decide_False by done.
      cbn [mbind option_bind]. rewrite lookup_seq_lt by done. simpl.
      specialize (IH (drawn ++ [p]) (p :: selected)).
      rewrite length_app in IH. simpl in IH.
      replace (S (length drawn)) with (length drawn + 1) by lia.
      rewrite IH.
      + simpl. do 2 f_equal. lia.
      + by rewrite <- app_assoc.
      + intros q Hq. apply elem_of_cons in Hq as [->|Hq].
        * apply elem_of_app. right. apply list_elem_of_here.
        * apply elem_of_app. left. by apply Hsel. }
  apply (Hgen ps [] []); [done|]. intros p Hp. by apply elem_of_nil in Hp.
Qed.

(** The rejection loop reads the raw integers only, and more rounds do
    not change what it has returned. *)
Lemma draw_unselected_more (H1 H2 : RandomSource) (n : nat)
    (selected : list nat) :
  (∀ c, @bits H1 c = @bits H2 c) →
  ∀ (fuel1 fuel2 g : nat) (r : nat * nat),
    fuel1 ≤ fuel2 →
    @draw_unselected H1 fuel1 n selected g = Some r →
    @draw_unselected H2 fuel2 n selected g = Some r.
Proof.
  intros Hbits. induction fuel1 as [|fuel1 IH]; intros fuel2 g r Hle Hrun;
    [discriminate|].
  destruct fuel2 as [|fuel2]; [lia|]. simpl in *. rewrite <- Hbits.
  case_decide; [|done]. apply IH; [lia | done].
Qed.

(** With raw integers that leave every selection of fewer than [n]
    positions at some point, the set branch returns once the loops are
    followed for enough rounds. *)
Lemma sample_set_enough {A} (uniform0 : nat → R) (bits0 : nat → nat)
    (population : list A) (n : nat) :
  (∀ g selected, length selected < n →
     ∃ d, bits0 (g + d) mod n ∉ selected) →
  n ≤ length population →
  ∀ (k : nat) (selected : list nat) (g : nat),
    length selected + k ≤ n →
    ∃ (P : nat) (result : list A) (g' : nat),
      ∀ p, P ≤ p →
        @sample_set {| uniform := uniform0; bits := bits0; patience := p |}
                    A population n selected k g
        = Some (result, g').
Proof.
  intros Hfair Hn. induction k as [|k IH]; intros selected g Hk.
  - exists 0, [], g. done.
  - destruct (Hfair g selected ltac:(lia)) as [d Hd].
    set (H0 := {| uniform := uniform0; bits := bits0; patience := 0 |}).
    destruct (@draw_unselected_returns H0 (S d) n selected g)
      as (j & g1 & Hdraw); [exists d; split; [lia | done]|].
    pose proof Hdraw as Hj.
    apply (@draw_unselected_Some H0) in Hj as [Hj _]; [|lia].
    destruct (lookup_lt_is_Some_2 population j) as [x Hx]; [lia|].
    destruct (IH (j :: selected) g1) as (P & rest & g2 & Hrest);
      [simpl; lia|].
    exists (S d `max` P), (x :: rest), g2. intros p Hp.
    cbn [sample_set patience].
    rewrite (draw_unselected_more H0
               {| uniform := uniform0; bits := bits0; patience := p |}
               n selected ltac:(done) (S d) p g (j, g1) ltac:(lia) Hdraw).
    simpl. rewrite Hx. simpl. rewrite Hrest by lia. done.
Qed.

(** Raw integers that run through consecutive values leave any
    selection of fewer than [n] positions within [n] draws. *)
Lemma consecutive_draws_leave (n base : nat) (selected : list nat) :
  length selected < n →
  ∃ d, d < n ∧ (base + d) mod n ∉ selected.
Proof.
  intros Hlen.
  destruct (decide (Exists (λ d, (base + d) mod n ∉ selected) (seq 0 n)))
    as [Hex|Hall].
  - apply Exists_exists in Hex as (d & Hd & Hout).
    apply elem_of_seq in Hd. exists d. split; [lia | done].
  - exfalso. apply not_Exists_Forall in Hall; [|intros d; apply _].
    assert (Hsub : seq 0 n ⊆ selected).
    { intros r Hr. apply elem_of_seq in Hr.
      rewrite Forall_forall in Hall.
      specialize (Hall ((r + n - base mod n) mod n)).
      simpl in Hall.
      assert (Hd : (r + n - base mod n) mod n ∈ seq 0 n).
      { apply elem_of_seq.
        pose proof (Nat.mod_upper_bound (r + n - base mod n) n). lia. }
      specialize (Hall Hd). apply dec_stable in Hall.
      replace ((base + (r + n - base mod n) mod n) mod n) with r in Hall;
        [done|].
      pose proof (Nat.mod_upper_bound base n ltac:(lia)) as Hb.
      rewrite Nat.Div0.add_mod_idemp_r.
      rewrite (Nat.div_mod_eq base n) at 1.
      replace (n * (base / n) + base mod n + (r + n - base mod n))
        with (r + (1 + base / n) * n) by lia.
      rewrite Nat.Div0.mod_add. rewrite Nat.mod_small; lia. }
    apply NoDup_submseteq in Hsub; [|apply NoDup_seq].
    apply submseteq_length in Hsub. rewrite length_seq in Hsub. lia.
Qed.

(** C6.  [sample(n)] with [n] at most the number of stored cells never
    raises, and what it returns are [n] cells: the cells at [n]
    pairwise distinct positions of the memory (so a sub-multiset of the
    stored cells), whatever the generator draws.  It returns on a
    memory of at most [setsize n] cells, where the library selects from
    a copy of the population, and on a larger one, where the library
    draws again while the position is selected already, whenever these
    rejection loops end: within the rounds that are followed, or, for
    raw integers that leave every incomplete selection at some point,
    once they are followed for enough rounds.  The draw is uniform in
    this sense.  On the copy, the sequences of [n]
    values that [randbelow] returns and the ordered selections of [n]
    distinct positions correspond one to one.  With the rejection
    loops, a relabelling of the positions that the generator draws
    relabels the positions selected in the same way, so that draws
    which are equally likely for every position make every ordered
    selection equally likely.  In both cases every ordered selection of
    [n] distinct positions is made by some generator.  With [n] larger
    than the number of stored cells [sample] raises the [ValueError] of
    [random.sample] instead of returning fewer. *)
Theorem sample_without_replacement (self : ReplayMemory.t) (n : nat) :
  (n ≤ ReplayMemory.len self →
   (∀ (H : RandomSource) (g : nat),
      (∀ e, (ReplayMemory.sample self n g).1 ≠ Raise e) ∧
      (ReplayMemory.len self ≤ setsize n ∨
       (∀ g' selected, length selected < ReplayMemory.len self →
          ∃ d, d < patience ∧
               bits (g' + d) mod ReplayMemory.len self ∉ selected) →
       ∃ batch, (ReplayMemory.sample self n g).1 = Ok batch) ∧
      (∀ batch,
         (ReplayMemory.sample self n g).1 = Ok batch →
         length batch = n ∧
         batch ⊆+ ReplayMemory.memory self ∧
         ∃ positions,
           sample_positions (ReplayMemory.len self) n g = Ok positions ∧
           NoDup positions ∧
           Forall2 (λ p c, ReplayMemory.memory self !! p = Some c)
                   positions batch)) ∧
   (∀ (uniform0 : nat → R) (bits0 : nat → nat) (g : nat),
      (∀ g' selected, length selected < ReplayMemory.len self →
         ∃ d, bits0 (g' + d) mod ReplayMemory.len self ∉ selected) →
      ∃ P, ∀ p, P ≤ p →
        ∃ batch,
          (@ReplayMemory.sample
             {| uniform := uniform0; bits := bits0; patience := p |}
             self n g).1 = Ok batch) ∧
   (ReplayMemory.len self ≤ setsize n →
    ∀ (H1 H2 : RandomSource) (g1 g2 : nat),
      @sample_positions H1 (ReplayMemory.len self) n g1
      = @sample_positions H2 (ReplayMemory.len self) n g2 →
      ∀ m, m < n →
           @bits H1 (g1 + m) mod (ReplayMemory.len self - m)
           = @bits H2 (g2 + m) mod (ReplayMemory.len self - m)) ∧
   (setsize n < ReplayMemory.len self →
    ∀ (H1 H2 : RandomSource) (g : nat) (σ : nat → nat),
      (∀ x y, x < ReplayMemory.len self → y < ReplayMemory.len self →
              σ x = σ y → x = y) →
      (∀ x, x < ReplayMemory.len self → σ x < ReplayMemory.len self) →
      (∀ c, @bits H2 c mod ReplayMemory.len self
            = σ (@bits H1 c mod ReplayMemory.len self)) →
      @patience H2 = @patience H1 →
      @sample_positions H2 (ReplayMemory.len self) n g
      = (@sample_positions H1 (ReplayMemory.len self) n g
         ≫= λ positions : list nat, Ok (σ <$> positions))) ∧
   (∀ positions : list nat,
      length positions = n → NoDup positions →
      (∀ p, p ∈ positions → p < ReplayMemory.len self) →
      ∃ H : RandomSource,
        @sample_positions H (ReplayMemory.len self) n 0 = Ok positions)) ∧
  (ReplayMemory.len self < n →
   ∀ (H : RandomSource) (g : nat),
     (ReplayMemory.sample self n g).1
     = Raise (ValueError SampleLargerThanPopulation)).
Proof.
  unfold ReplayMemory.sample, ReplayMemory.len, sample_positions.
  set (population := ReplayMemory.memory self). split.
  - intros Hn. split; [|split; [|split; [|split]]].
    + intros H g. split; [|split].
      * intros e. by apply random_sample_no_raise.
      * intros Hret. unfold random_sample. rewrite decide_True by done.
        case_decide as Hsmall; [by eexists|].
        destruct Hret as [Hle|Hfair]; [lia|].
        destruct (sample_set_returns population (length population) n
                    Hfair ltac:(done) [] g) as (result & g' & ->);
          [simpl; lia|].
        by eexists.
      * intros batch Hrun.
        apply random_sample_Ok in Hrun as (_ & Hl & Hsub & Hps). done.
    + intros uniform0 bits0 g Hfair.
      destruct (sample_set_enough uniform0 bits0 population
                  (length population) Hfair ltac:(done) n [] g)
        as (P & result & g' & Hrun); [simpl; lia|].
      exists P. intros p Hp. unfold random_sample.
      rewrite decide_True by done.
      case_decide as Hsmall; [by eexists|].
      rewrite Hrun by done. by eexists.
    + intros Hsmall H1 H2 g1 g2. unfold random_sample.
      rewrite !length_seq.
      do 2 rewrite (decide_True (P:=n ≤ length population)) by done.
      do 2 rewrite (decide_True (P:=length population ≤ setsize n)) by done.
      simpl.
      intros [= Heq] m Hm.
      pose proof (sample_loop_inj H1 H2 n (seq 0 (length population))
                    (length population) 0 g1 g2) as Hinj.
      rewrite Nat.sub_0_r in Hinj. apply Hinj; try done.
      * by rewrite length_seq.
      * rewrite take_ge by (by rewrite length_seq). apply NoDup_seq.
    + intros Hlarge H1 H2 g σ Hinj Hrange Hbits Hpat. unfold random_sample.
      rewrite !length_seq.
      do 2 rewrite (decide_True (P:=n ≤ length population)) by done.
      do 2 rewrite (decide_False (P:=length population ≤ setsize n)) by lia.
      pose proof (sample_set_relabel H1 H2 σ (length population) Hinj Hrange
                    Hbits Hpat ltac:(unfold setsize in Hlarge; lia)
                    n [] g) as Hrel.
      simpl in Hrel. rewrite Hrel.
      * by destruct (@sample_set H1 nat _ _ _ _ _) as [[ps g']|].
      * intros p Hp. by apply elem_of_nil in Hp.
    + intros positions Hlen Hnd Hin. subst n. unfold random_sample.
      rewrite !length_seq.
      destruct (decide (length population ≤ setsize (length positions)))
        as [Hsmall|Hlarge].
      * destruct (sample_loop_surj positions (seq 0 (length population))
                    (length population) 0 0) as [H Hrun];
          [by rewrite length_seq | lia | done | |].
        { intros p Hp. rewrite Nat.sub_0_r, take_ge by (by rewrite length_seq).
          apply elem_of_seq. specialize (Hin p Hp). lia. }
        exists H. rewrite !decide_True by done. simpl. by rewrite Hrun.
      * destruct (sample_set_surj (length population) positions Hnd Hin)
          as [H Hrun].
        exists H. rewrite decide_True by done. by rewrite Hrun.
  - intros Hn H g. unfold random_sample. rewrite decide_False by lia. done.
Qed.

(** ** The environment *)

Section EnvironmentFacts.
Context `{Config}.

Lemma slice_bound_of_nat (len n : nat) :
  slice_bound len (Z.of_nat n) = n `min` len.
Proof. unfold slice_bound. rewrite decide_False by lia. lia. Qed.

Lemma slice_bound_0 (len : nat) : slice_bound len 0 = 0.
Proof. apply (slice_bound_of_nat len 0). Qed.

Lemma slice_bound_1 (len : nat) : slice_bound len 1 = 1 `min` len.
Proof. apply (slice_bound_of_nat len 1). Qed.

Lemma slice_bound_pred (len n : nat) :
  1 ≤ n → slice_bound len (Z.of_nat n - 1) = (n - 1) `min` len.
Proof. intros Hn. unfold slice_bound. rewrite decide_False by lia. lia. Qed.

(** Within the range nothing wraps around. *)
Lemma wrap64_id (z : Z) : in_int64 z → wrap64 z = z.
Proof.
  unfold in_int64, wrap64. intros Hz. rewrite Z.mod_small by lia. lia.
Qed.

Lemma wrap64_in_int64 (z : Z) : in_int64 (wrap64 z).
Proof.
  unfold in_int64, wrap64.
  pose proof (Z.mod_pos_bound (z + 2 ^ 63) (2 ^ 64) ltac:(lia)). lia.
Qed.

Lemma differences_bounded (M : Z) (a : list Z) :
  Forall (λ x, (Z.abs x <= M)%Z) a →
  Forall (λ d, (Z.abs d <= 2 * M)%Z) (differences a) ∧
  length (differences a) = length a - 1.
Proof.
  induction 1 as [|x a Hx Ha IH]; [by split|].
  destruct Ha as [|y a Hy Ha]; [by split|].
  change (differences (x :: y :: a))
    with ((y - x)%Z :: differences (y :: a)).
  destruct IH as [IH Hl]. split; [constructor; [lia | exact IH]|].
  simpl in *. lia.
Qed.

Lemma sum_abs_bounded (N : Z) (ds : list Z) :
  Forall (λ d, (Z.abs d <= N)%Z) ds →
  (0 <= foldr Z.add 0 (Z.abs <$> ds) <= N * Z.of_nat (length ds))%Z.
Proof.
  induction 1 as [|d ds Hd _ IH]; [simpl; lia|].
  rewrite fmap_cons. cbn [foldr length]. lia.
Qed.

(** On entries of absolute value at most [M], with [2 * M * len] inside
    the range, the NumPy expression of the penalty is the total
    variation. *)
Lemma np_total_variation (M : Z) (a : list Z) :
  Forall (λ x, (Z.abs x <= M)%Z) a →
  (2 * M * Z.of_nat (length a) < 2 ^ 63)%Z →
  np_sum (np_abs (np_diff a)) = total_variation a.
Proof.
  intros Ha HM.
  destruct (differences_bounded M a Ha) as [Hds Hlen].
  pose proof (sum_abs_bounded (2 * M) (differences a) Hds) as Hsum.
  assert (Hsmall : ∀ d, d ∈ differences a → (Z.abs d < 2 ^ 63)%Z).
  { intros d Hd. rewrite Forall_forall in Hds. specialize (Hds d Hd).
    destruct a as [|x a]; [by apply elem_of_nil in Hd|].
    simpl length in HM. nia. }
  assert (Hdiff : np_diff a = differences a).
  { clear Hsum Hlen Hds HM Ha. induction a as [|x a IH]; [done|].
    destruct a as [|y a]; [done|].
    change (np_diff (x :: y :: a)) with (wrap64 (y - x) :: np_diff (y :: a)).
    change (differences (x :: y :: a))
      with ((y - x)%Z :: differences (y :: a)) in *.
    rewrite wrap64_id, IH; [done| |].
    - intros d Hd. apply Hsmall. by apply list_elem_of_further.
    - specialize (Hsmall (y - x)%Z (list_elem_of_here _ _)).
      unfold in_int64. lia. }
  assert (Habs : np_abs (differences a) = Z.abs <$> differences a).
  { unfold np_abs. apply list_fmap_ext. intros i d Hd.
    apply list_elem_of_lookup_2 in Hd. specialize (Hsmall d Hd).
    apply wrap64_id. unfold in_int64. lia. }
  unfold np_sum, total_variation. rewrite Hdiff, Habs.
  apply wrap64_id. unfold in_int64. nia.
Qed.

Lemma setitem_float_0 (n : nat) (price : Q) (p : Z) :
  float_to_int price = Ok p →
  setitem_float (replicate (S n) 0%Z) 0 price = Ok (p :: replicate n 0%Z).
Proof.
  intros Hp. unfold setitem_float.
  rewrite length_replicate, decide_True by lia. by rewrite Hp.
Qed.

Lemma env_step_spec (t : nat) (st : list Z) (a : nat) (price : Q) (p : Z) :
  length st = 2 * T → t < T → price_grid !! a = Some price →
  float_to_int price = Ok p →
  env_step t st a =
    Ok (stepped p st t, profit_t_response p (take (T - 1) st)).
Proof.
  intros Hlen Ht Hprice Hp.
  assert (E1 : setitem_float (replicate (length st) 0%Z) 0 price
               = Ok (p :: replicate (2 * T - 1) 0%Z)).
  { rewrite Hlen. replace (2 * T) with (S (2 * T - 1)) at 1 by lia.
    by apply setitem_float_0. }
  assert (E2 : get_slice st 0 (Z.of_nat T - 1) = take (T - 1) st).
  { unfold get_slice. rewrite slice_bound_pred by lia.
    rewrite slice_bound_0.
    rewrite Nat.sub_0_r, drop_0, Nat.min_l by lia. done. }
  assert (E3 : set_slice (p :: replicate (2 * T - 1) 0%Z) 1 (Z.of_nat T)
                 (take (T - 1) st)
               = Ok (p :: take (T - 1) st ++ replicate T 0%Z)).
  { unfold set_slice. simpl length. rewrite length_replicate.
    rewrite slice_bound_1, slice_bound_of_nat.
    rewrite !Nat.min_l by lia.
    rewrite decide_True by (rewrite length_take; lia).
    simpl. do 3 f_equal. rewrite drop_replicate. f_equal. lia. }
  assert (E4 : setitem (p :: take (T - 1) st ++ replicate T 0%Z) (T + t) 1%Z
               = Ok (stepped p st t)).
  { unfold setitem, stepped.
    rewrite decide_True
      by (simpl; rewrite length_app, length_take, length_replicate; lia).
    f_equal.
    replace (T + t) with (S (length (take (T - 1) st) + t))
      by (rewrite length_take; lia).
    simpl. rewrite insert_app_r, insert_replicate_lt by lia. done. }
  assert (E5 : getitem (stepped p st t) 0 = Ok p) by done.
  assert (E6 : get_slice (stepped p st t) 1 (Z.of_nat T) = take (T - 1) st).
  { unfold get_slice, stepped.
    rewrite slice_bound_1, slice_bound_of_nat.
    assert (Hl : length (p :: take (T - 1) st ++ replicate t 0%Z ++
                           1%Z :: replicate (T - S t) 0%Z) = 2 * T).
    { simpl. rewrite !length_app, length_take. simpl.
      rewrite !length_replicate. lia. }
    rewrite Hl, !Nat.min_l by lia. simpl. rewrite drop_0.
    rewrite take_app_le by (rewrite length_take; lia).
    rewrite take_take. f_equal. lia. }
  assert (E0 : getitem price_grid a = Ok price)
    by (unfold getitem; by rewrite Hprice).
  unfold env_step. rewrite E0, bind_Ok.
  rewrite E1, bind_Ok, E2, E3, bind_Ok, E4, bind_Ok, E5, bind_Ok, E6.
  done.
Qed.

(** C1 (amended).  On an int64 state of length [2 * T] whose entries
    have absolute value at most [M], with [2 * M * T] inside the int64
    range, a time step below [T] and a valid action whose grid price
    converts to the int64 [p], the reward of [env_step] is
    [p - 0.1 * sum |s[i+1] - s[i]|] over the [T - 1] most recent
    prices [s[0 .. T-2]] of the previous state, and [p] is the entry
    the step writes at index 0 of the next state.  No demand, unit cost
    or clamp enters it. *)
Theorem env_step_reward (t : nat) (st : list Z) (a : nat) (price : Q)
    (p M : Z) :
  length st = 2 * T → t < T → price_grid !! a = Some price →
  float_to_int price = Ok p →
  Forall (λ x, (Z.abs x <= M)%Z) st →
  (2 * M * Z.of_nat T < 2 ^ 63)%Z →
  ∃ next_st : list Z,
    env_step t st a =
      Ok (next_st,
          (inject_Z p - (1 # 10) *
           inject_Z (total_variation (take (T - 1) st)))%Q) ∧
    next_st !! 0 = Some p.
Proof.
  intros Hlen Ht Hprice Hp Hst HM.
  exists (stepped p st t). split; [|done].
  rewrite (env_step_spec t st a price p) by done.
  unfold profit_t_response.
  rewrite (np_total_variation M); [done | by apply Forall_take |].
  rewrite length_take.
  assert (0 <= M)%Z.
  { destruct st as [|x st]; [simpl in Hlen; lia|].
    apply Forall_cons in Hst as [Hx _]. lia. }
  nia.
Qed.

(** The layout of the state after a step: the stored price at index 0,
    the previous window one place to the right, and the one-hot
    encoding of [t] in the second half. *)
Lemma env_step_layout (t : nat) (st : list Z) (a : nat) (price : Q) (p : Z) :
  length st = 2 * T → t < T → price_grid !! a = Some price →
  float_to_int price = Ok p →
  ∃ next_st r,
    env_step t st a = Ok (next_st, r) ∧
    length next_st = 2 * T ∧
    next_st !! 0 = Some p ∧
    (∀ i, 1 ≤ i < T → next_st !! i = st !! (i - 1)) ∧
    (∀ j, j < T → next_st !! (T + j) = Some (if decide (j = t) then 1 else 0)%Z).
Proof.
  intros Hlen Ht Hprice Hp. eexists _, _.
  split; [by apply (env_step_spec t st a price p)|].
  unfold stepped.
  assert (Htk : length (take (T - 1) st) = T - 1)
    by (rewrite length_take; lia).
  split.
  { simpl. rewrite !length_app, Htk. simpl. rewrite !length_replicate. lia. }
  split; [done|]. split.
  - intros i Hi. destruct i as [|i]; [lia|]. simpl.
    rewrite lookup_app_l by lia.
    rewrite lookup_take_lt by lia. by rewrite Nat.sub_0_r.
  - intros j Hj. replace (T + j) with (S (length (take (T - 1) st) + j))
      by lia.
    simpl. rewrite lookup_app_r by lia.
    replace (length (take (T - 1) st) + j - length (take (T - 1) st))
      with j by lia.
    case_decide as Hjt.
    + subst j. rewrite lookup_app_r by (rewrite length_replicate; lia).
      by rewrite length_replicate, Nat.sub_diag.
    + destruct (decide (j < t)) as [Hlt|Hge].
      * rewrite lookup_app_l by (rewrite length_replicate; lia).
        by rewrite lookup_replicate_2.
      * rewrite lookup_app_r by (rewrite length_replicate; lia).
        rewrite length_replicate.
        destruct (j - t) as [|d] eqn:Hd; [lia|]. simpl.
        rewrite lookup_replicate_2 by lia. done.
Qed.

Lemma env_initial_state_zero (i : nat) :
  i < 2 * T → env_initial_state !! i = Some 0%Z.
Proof. intros Hi. unfold env_initial_state. by rewrite lookup_replicate_2. Qed.

End EnvironmentFacts.

(** ** The exploration policy *)

Section PolicyFacts.
Context `{RandomSource}.
Import AnnealedEpsGreedyPolicy.

Lemma float_max_gt_1 : (1 < float_max)%R.
Proof.
  unfold float_max.
  assert (H52 : (1 <= 2 ^ 52)%R) by (apply pow_R1_Rle; lra).
  assert (H1023 : (1 <= 2 ^ 1022)%R) by (apply pow_R1_Rle; lra).
  assert (Hinv : (0 < / 2 ^ 52 <= 1)%R).
  { split; [apply Rinv_0_lt_compat; lra|].
    rewrite <- Rinv_1. apply Rinv_le_contravar; lra. }
  change (2 ^ 1023)%R with (2 * 2 ^ 1022)%R. nra.
Qed.

(** The exponential outgrows the powers of two. *)
Lemma exp_INR_ge_pow (n : nat) : (2 ^ n <= exp (INR n))%R.
Proof.
  induction n as [|n IH]; [simpl; rewrite exp_0; lra|].
  rewrite S_INR, exp_plus. cbn [pow].
  pose proof (exp_ineq1 1 ltac:(lra)). pose proof (exp_pos (INR n)).
  pose proof (pow_lt 2 n ltac:(lra)). nra.
Qed.

Lemma float_max_lt_pow : (float_max < 2 ^ 1024)%R.
Proof.
  unfold float_max. change (2 ^ 1024)%R with (2 * 2 ^ 1023)%R.
  pose proof (pow_lt 2 1023 ltac:(lra)).
  pose proof (Rinv_0_lt_compat (2 ^ 52) (pow_lt 2 52 ltac:(lra))). nra.
Qed.

(** For a positive [eps_decay] the decay factor lies in (0, 1]. *)
Lemma decay_factor_bounds (n : nat) (d : R) :
  (0 < d)%R → (0 < exp (-1 * INR n / d) <= 1)%R.
Proof.
  intros Hd. split; [apply exp_pos|].
  rewrite <- exp_0. destruct (Req_dec (INR n) 0) as [Hn|Hn].
  - rewrite Hn. right. f_equal. unfold Rdiv. ring.
  - left. apply exp_increasing. pose proof (pos_INR n).
    apply Rmult_lt_reg_r with d; [done|]. unfold Rdiv.
    rewrite Rmult_assoc, Rinv_l by lra. lra.
Qed.

Lemma select_action_zero_decay self q_values g :
  eps_decay self = 0%R →
  select_action self q_values g = (self, S g, Raise ZeroDivisionError).
Proof.
  intros Hd. unfold select_action, random_random.
  destruct (Req_dec_T (eps_decay self) 0); [done | contradiction].
Qed.

(** A quotient beyond the float64 range: nothing is raised, and the
    branch does not depend on the draw. *)
Lemma select_action_infinite self q_values g :
  eps_decay self ≠ 0%R →
  (-1 * INR (steps_done self) / eps_decay self > float_max)%R →
  select_action self q_values g
  = if Rlt_dec (eps_start self) (eps_end self)
    then (count_step self, S g, np_argmax q_values)
    else (count_step self, (random_randrange (length q_values) (S g)).2,
          (random_randrange (length q_values) (S g)).1).
Proof.
  intros Hd Hq. unfold select_action, random_random.
  destruct (Req_dec_T (eps_decay self) 0); [contradiction|].
  destruct (Rgt_dec _ float_max); [|contradiction].
  destruct (Rlt_dec _ _); [done|].
  by destruct (random_randrange (length q_values) (S g)).
Qed.

Lemma select_action_overflow self q_values g :
  eps_decay self ≠ 0%R →
  ¬ (-1 * INR (steps_done self) / eps_decay self > float_max)%R →
  (exp (-1 * INR (steps_done self) / eps_decay self) > float_max)%R →
  select_action self q_values g = (self, S g, Raise OverflowError).
Proof.
  intros Hd Hq Hexp. unfold select_action, random_random, math_exp.
  destruct (Req_dec_T (eps_decay self) 0); [contradiction|].
  destruct (Rgt_dec _ float_max); [contradiction|].
  destruct (Rgt_dec _ _); [done | contradiction].
Qed.

(** The two branches, when the threshold is computed. *)
Lemma select_action_above self q_values g :
  eps_decay self ≠ 0%R →
  ¬ (-1 * INR (steps_done self) / eps_decay self > float_max)%R →
  ¬ (exp (-1 * INR (steps_done self) / eps_decay self) > float_max)%R →
  (uniform g > eps_threshold self)%R →
  select_action self q_values g
  = (count_step self, S g, np_argmax q_values).
Proof.
  intros Hd Hq Hexp Hs. unfold select_action, random_random, math_exp.
  destruct (Req_dec_T (eps_decay self) 0); [contradiction|].
  destruct (Rgt_dec _ float_max); [contradiction|].
  destruct (Rgt_dec (exp _) float_max); [contradiction|].
  fold (eps_threshold self).
  destruct (Rgt_dec (uniform g) (eps_threshold self)); [done | contradiction].
Qed.

Lemma select_action_below self q_values g :
  eps_decay self ≠ 0%R →
  ¬ (-1 * INR (steps_done self) / eps_decay self > float_max)%R →
  ¬ (exp (-1 * INR (steps_done self) / eps_decay self) > float_max)%R →
  ¬ (uniform g > eps_threshold self)%R →
  select_action self q_values g
  = (count_step self, (random_randrange (length q_values) (S g)).2,
     (random_randrange (length q_values) (S g)).1).
Proof.
  intros Hd Hq Hexp Hs. unfold select_action, random_random, math_exp.
  destruct (Req_dec_T (eps_decay self) 0); [contradiction|].
  destruct (Rgt_dec _ float_max); [contradiction|].
  destruct (Rgt_dec (exp _) float_max); [contradiction|].
  fold (eps_threshold self).
  destruct (Rgt_dec (uniform g) (eps_threshold self)); [contradiction|].
  by destruct (random_randrange (length q_values) (S g)).
Qed.

Lemma decay_in_range (n : nat) (d : R) :
  (0 < d)%R → ¬ (exp (-1 * INR n / d) > float_max)%R.
Proof.
  intros Hd. pose proof (decay_factor_bounds n d Hd).
  pose proof float_max_gt_1. lra.
Qed.

Lemma quotient_in_range (n : nat) (d : R) :
  (0 < d)%R → ¬ (-1 * INR n / d > float_max)%R.
Proof.
  intros Hd. pose proof float_max_gt_1. pose proof (pos_INR n).
  assert (-1 * INR n / d <= 0)%R; [|lra].
  apply Rmult_le_reg_r with d; [done|]. unfold Rdiv.
  rewrite Rmult_assoc, Rinv_l by lra. lra.
Qed.

Lemma select_action_greedy self q_values g :
  (0 < eps_decay self)%R → (uniform g > eps_threshold self)%R →
  select_action self q_values g
  = (count_step self, S g, np_argmax q_values).
Proof.
  intros Hd Hs.
  apply select_action_above;
    [lra | by apply quotient_in_range | by apply decay_in_range | done].
Qed.

Lemma select_action_explore self q_values g :
  (0 < eps_decay self)%R → ¬ (uniform g > eps_threshold self)%R →
  select_action self q_values g
  = (count_step self, (random_randrange (length q_values) (S g)).2,
     (random_randrange (length q_values) (S g)).1).
Proof.
  intros Hd Hs.
  apply select_action_below;
    [lra | by apply quotient_in_range | by apply decay_in_range | done].
Qed.

Lemma select_action_counts self q_values g :
  (0 < eps_decay self)%R →
  (select_action self q_values g).1.1 = count_step self.
Proof.
  intros Hd.
  destruct (Rgt_dec (uniform g) (eps_threshold self)) as [Hs|Hs].
  - by rewrite select_action_greedy.
  - by rewrite select_action_explore.
Qed.

(** The running maximum of [np.argmax]: [best] is the first maximum of
    the cells scanned so far. *)
Lemma argmax_from_spec (l : list Q) :
  ∀ (pre : list Q) (best_i : nat) (best : Q),
    pre !! best_i = Some best →
    (∀ j v, pre !! j = Some v → (v <= best)%Q) →
    (∀ j v, j < best_i → pre !! j = Some v → (v < best)%Q) →
    ∃ m, (pre ++ l) !! argmax_from best_i best (length pre) l = Some m ∧
         (∀ j v, (pre ++ l) !! j = Some v → (v <= m)%Q) ∧
         (∀ j v, j < argmax_from best_i best (length pre) l →
                 (pre ++ l) !! j = Some v → (v < m)%Q).
Proof.
  induction l as [|x l IH]; intros pre best_i best Hbest Hmax Hfirst; simpl.
  - rewrite app_nil_r. eauto.
  - assert (Hlen : S (length pre) = length (pre ++ [x]))
      by (rewrite length_app; simpl; lia).
    assert (Hbi : best_i < length pre) by (eapply lookup_lt_Some; eauto).
    rewrite (cons_middle x pre l), app_assoc, Hlen.
    destruct (Qle_bool x best) eqn:Hcmp.
    + apply Qle_bool_iff in Hcmp. apply IH.
      * by rewrite lookup_app_l.
      * intros j v Hj. apply lookup_app_Some in Hj as [Hj|[_ Hj]]; [eauto|].
        apply list_lookup_singleton_Some in Hj as [_ <-]. done.
      * intros j v Hlt Hj. rewrite lookup_app_l in Hj by lia. eauto.
    + assert (Hlt : (best < x)%Q).
      { apply Qnot_le_lt. intros Hle. apply Qle_bool_iff in Hle. congruence. }
      apply IH.
      * rewrite lookup_app_r by lia. by rewrite Nat.sub_diag.
      * intros j v Hj. apply lookup_app_Some in Hj as [Hj|[_ Hj]].
        -- apply Qlt_le_weak. eapply Qle_lt_trans; eauto.
        -- apply list_lookup_singleton_Some in Hj as [_ <-]. apply Qle_refl.
      * intros j v Hj Hv. rewrite lookup_app_l in Hv by lia.
        eapply Qle_lt_trans; eauto.
Qed.

Lemma np_argmax_spec (q_values : list Q) :
  q_values ≠ [] →
  ∃ i m, np_argmax q_values = Ok i ∧ q_values !! i = Some m ∧
         (∀ j v, q_values !! j = Some v → (v <= m)%Q) ∧
         (∀ j v, j < i → q_values !! j = Some v → (v < m)%Q).
Proof.
  destruct q_values as [|x l]; [done|]. intros _. simpl.
  destruct (argmax_from_spec l [x] 0 x) as (m & Hm & Hmax & Hfirst).
  - done.
  - intros j v Hj. apply list_lookup_singleton_Some in Hj as [_ <-].
    apply Qle_refl.
  - intros j v Hj. lia.
  - exists (argmax_from 0 x 1 l), m. eauto.
Qed.

(** The threshold stays above a positive [eps_end]. *)
Lemma eps_threshold_pos self :
  (0 < eps_end self)%R → (eps_end self <= eps_start self)%R →
  (0 < eps_threshold self)%R.
Proof.
  intros He Hs. unfold eps_threshold.
  pose proof (exp_pos (-1 * INR (steps_done self) / eps_decay self)).
  nra.
Qed.


End PolicyFacts.

Section PolicyClaims.
Import AnnealedEpsGreedyPolicy.


(** C5 (amended).  With [eps_start = eps_end = 0] and a positive
    [eps_decay] the threshold is 0, and every strictly positive draw
    returns [argmax(q_values)]. *)
Theorem select_action_zero_eps `{RandomSource} self (q_values : list Q) g :
  eps_start self = 0%R → eps_end self = 0%R → (0 < eps_decay self)%R →
  (0 < uniform g)%R →
  (select_action self q_values g).2 = np_argmax q_values.
Proof.
  intros Hs He Hd Hpos.
  rewrite select_action_greedy; [done | done |].
  unfold eps_threshold. rewrite Hs, He. lra.
Qed.

Lemma select_actions_counts `{RandomSource} (calls : list (list Q)) :
  ∀ self g, (0 < eps_decay self)%R →
    steps_done (select_actions self calls g).1
    = steps_done self + length calls.
Proof.
  induction calls as [|q_values calls IH]; intros self g Hd; simpl.
  - lia.
  - pose proof (select_action_counts self q_values g Hd) as Hc.
    destruct (select_action self q_values g) as [[self' g'] r].
    simpl in Hc. subst self'. rewrite IH by done. simpl. lia.
Qed.

(** C10 (amended).  On a policy with a positive [eps_decay] every call
    of [select_action] adds exactly 1 to [steps_done], whichever branch
    the draw selects and whatever the call returns; after [m] calls the
    counter is its initial value plus [m]. *)
Theorem steps_done_counts_calls `{RandomSource} self g :
  (0 < eps_decay self)%R →
  (∀ q_values : list Q,
     steps_done (select_action self q_values g).1.1 = steps_done self + 1) ∧
  (∀ calls : list (list Q),
     steps_done (select_actions self calls g).1
     = steps_done self + length calls).
Proof.
  intros Hd. split.
  - intros q_values. by rewrite select_action_counts.
  - intros calls. by apply select_actions_counts.
Qed.

End PolicyClaims.

(** ** The update step and the training loop *)

Lemma sample_safe_Ok {A} (a : A) : sample_safe (Ok a).
Proof. unfold sample_safe; discriminate. Qed.

Lemma sample_safe_Raise {A} (e : exn) :
  e ≠ ValueError SampleLargerThanPopulation → sample_safe (@Raise A e).
Proof. unfold sample_safe; congruence. Qed.

Lemma sample_safe_bind {A B} (m : outcome A) (f : A → outcome B) :
  sample_safe m → (∀ a, sample_safe (f a)) → sample_safe (m ≫= f).
Proof.
  unfold sample_safe. intros Hm Hf.
  destruct m as [a|e|]; simpl; [apply Hf | congruence | discriminate].
Qed.

Lemma sample_safe_mapM {A B} (f : A → outcome B) (l : list A) :
  (∀ a, sample_safe (f a)) → sample_safe (mapM f l).
Proof.
  intros Hf. induction l as [|x l IH]; simpl; [exact (sample_safe_Ok [])|].
  apply sample_safe_bind; [apply Hf|]. intros y.
  apply sample_safe_bind; [apply IH|]. intros k.
  exact (sample_safe_Ok (y :: k)).
Qed.

Create HintDb safe discriminated.

#[local] Hint Resolve sample_safe_Ok : safe.
#[local] Hint Extern 1 (sample_safe (Raise _)) =>
  apply sample_safe_Raise; discriminate : safe.
#[local] Hint Extern 2 (sample_safe (mapM _ _)) =>
  apply sample_safe_mapM; intros : safe.

(** Walks through the binds and case distinctions of a computation and
    leaves its primitive steps to the hints. *)
Ltac safe_step :=
  lazymatch goal with
  | |- sample_safe (_ ≫= _) => apply sample_safe_bind; [|intros ?]
  | |- sample_safe (if decide _ then _ else _) => case_decide
  | |- sample_safe (match ?x with _ => _ end) => destruct x
  end.

Ltac safe := repeat safe_step; auto with safe.

Lemma sample_safe_getitem {A} (l : list A) i : sample_safe (getitem l i).
Proof. unfold getitem. safe. Qed.

Lemma sample_safe_setitem {A} (l : list A) i v : sample_safe (setitem l i v).
Proof. unfold setitem. safe. Qed.

Lemma sample_safe_set_slice {A} (l : list A) lo hi src :
  sample_safe (set_slice l lo hi src).
Proof. unfold set_slice. safe. Qed.

Lemma sample_safe_torch_stack {A} (l : list A) : sample_safe (torch_stack l).
Proof. unfold torch_stack. safe. Qed.

Lemma sample_safe_py_mod a b : sample_safe (py_mod a b).
Proof. unfold py_mod. safe. Qed.

Lemma sample_safe_np_argmax q_values : sample_safe (np_argmax q_values).
Proof. unfold np_argmax. safe. Qed.

Lemma sample_safe_row_max row : sample_safe (row_max row).
Proof. unfold row_max. safe. Qed.

Lemma sample_safe_gather_row row index : sample_safe (gather_row row index).
Proof. unfold gather_row. safe. Qed.

Lemma sample_safe_float_to_int x : sample_safe (float_to_int x).
Proof. unfold float_to_int. safe. Qed.

#[local] Hint Resolve sample_safe_getitem sample_safe_setitem
  sample_safe_set_slice sample_safe_torch_stack sample_safe_py_mod
  sample_safe_np_argmax sample_safe_row_max sample_safe_gather_row
  sample_safe_float_to_int : safe.

Lemma sample_safe_setitem_float a i x : sample_safe (setitem_float a i x).
Proof. unfold setitem_float. safe. Qed.

#[local] Hint Resolve sample_safe_setitem_float : safe.

Lemma sample_safe_push self tr : sample_safe (ReplayMemory.push self tr).
Proof. unfold ReplayMemory.push. safe. Qed.

Lemma sample_safe_env_step `{Config} t st a : sample_safe (env_step t st a).
Proof. unfold env_step. safe. Qed.

Lemma sample_safe_select_action `{RandomSource} self q_values g :
  sample_safe (AnnealedEpsGreedyPolicy.select_action self q_values g).2.
Proof.
  unfold AnnealedEpsGreedyPolicy.select_action, random_random.
  destruct (Req_dec_T _ _); simpl; [safe|].
  destruct (Rgt_dec _ float_max); simpl.
  { destruct (Rlt_dec _ _); simpl; [safe|].
    unfold random_randrange. case_decide; simpl; safe. }
  destruct (math_exp _) as [decay|e|] eqn:Hexp; simpl.
  - destruct (Rgt_dec _ _); simpl; [safe|].
    unfold random_randrange. case_decide; simpl; safe.
  - unfold math_exp in Hexp. destruct (Rgt_dec _ _); [|discriminate].
    injection Hexp as <-. safe.
  - discriminate.
Qed.

#[local] Hint Resolve sample_safe_push sample_safe_env_step : safe.

Lemma masked_assign_length (values : list Q) :
  ∀ mask src, length (masked_assign values mask src) = length values.
Proof.
  induction values as [|v values IH]; intros mask src; [by destruct mask|].
  destruct mask as [|[] mask]; simpl; [done| |by rewrite IH].
  destruct src; simpl; by rewrite IH.
Qed.

(** A cell outside the mask keeps its value. *)
Lemma masked_assign_false (values : list Q) :
  ∀ mask src i,
    mask !! i = Some false →
    masked_assign values mask src !! i = values !! i.
Proof.
  induction values as [|v values IH]; intros mask src i Hi;
    [by destruct mask|].
  destruct mask as [|b mask]; [done|].
  destruct i as [|i]; simpl in Hi.
  - injection Hi as ->. done.
  - destruct b; simpl; [destruct src; simpl|]; by apply IH.
Qed.

Lemma torch_stack_Ok {A} (l l' : list A) : torch_stack l = Ok l' → l' = l.
Proof. destruct l; [discriminate | by intros [= <-]]. Qed.

Lemma mapM_cells_Ok (cells : list (option Transition)) :
  ∀ batch,
    mapM (λ c : option Transition,
            match c with Some tr => Ok tr | None => Raise TypeError end)
         cells = Ok batch →
    cells = Some <$> batch.
Proof.
  induction cells as [|c cells IH]; intros batch Hrun.
  - injection Hrun as <-. done.
  - rewrite mapM_cons in Hrun.
    apply bind_Ok_inv in Hrun as (tr & Hc & Hrun).
    apply bind_Ok_inv in Hrun as (k & Hk & Hrun).
    injection Hrun as <-. destruct c as [tr'|]; [|discriminate].
    injection Hc as ->. by rewrite (IH k Hk).
Qed.

Section EngineFacts.
Context `{Config} `{RandomSource} `{ValueApproximator}.

Lemma sample_safe_unzip_transitions transitions :
  sample_safe (unzip_transitions transitions).
Proof.
  unfold unzip_transitions. destruct transitions; [safe|].
  apply sample_safe_mapM. intros c. safe.
Qed.

Lemma sample_safe_expected pn tn transitions :
  sample_safe (expected_state_action_values pn tn transitions).
Proof.
  unfold expected_state_action_values.
  apply sample_safe_bind; [apply sample_safe_unzip_transitions|].
  intros batch. safe.
Qed.

(** Below the batch size the update returns at once. *)
Lemma update_model_skip (w : World) :
  ReplayMemory.len (memory w) < BATCH_SIZE → update_model w = Ok w.
Proof. intros Hlen. unfold update_model. by rewrite decide_True. Qed.

(** What a completed update can have changed. *)
Lemma update_model_inv (w w' : World) :
  update_model w = Ok w' →
  w' = w ∨
  (BATCH_SIZE ≤ ReplayMemory.len (memory w) ∧
   ∃ policy_net' optimizer' g,
     w' = {| policy_net := policy_net'; target_net := target_net w;
             optimizer := optimizer'; policy := policy w;
             memory := memory w; rng := g;
             return_trace := return_trace w; p_trace := p_trace w |}).
Proof.
  unfold update_model. case_decide as Hlen; [intros [= <-]; by left|].
  intros Hrun. right. split; [lia|].
  destruct (ReplayMemory.sample (memory w) BATCH_SIZE (rng w))
    as [[transitions|e|] g]; [|discriminate..].
  rewrite bind_Ok in Hrun.
  destruct (expected_state_action_values (policy_net w) (target_net w)
              transitions) as [[[[sb ab] sav] ex]|e|]; [|discriminate..].
  rewrite bind_Ok in Hrun.
  destruct (gradient_step (optimizer w) (policy_net w) sb ab ex)
    as [pn' opt'].
  injection Hrun as <-. eauto.
Qed.

Lemma sample_safe_update_model (w : World) : sample_safe (update_model w).
Proof.
  unfold update_model. case_decide as Hlen; [apply sample_safe_Ok|].
  pose proof (random_sample_no_raise (ReplayMemory.memory (memory w))
                BATCH_SIZE (rng w)
                (ValueError SampleLargerThanPopulation)) as Hsample.
  unfold ReplayMemory.sample.
  destruct (random_sample _ _ _) as [sampled g]. simpl in Hsample.
  apply sample_safe_bind.
  { apply Hsample. unfold ReplayMemory.len in Hlen. lia. }
  intros transitions.
  apply sample_safe_bind; [apply sample_safe_expected|].
  intros [[[sb ab] sav] ex].
  destruct (gradient_step (optimizer w) (policy_net w) sb ab ex).
  apply sample_safe_Ok.
Qed.

Lemma sample_safe_train_step t w st reward_trace p :
  sample_safe (train_step t w st reward_trace p).
Proof.
  unfold train_step.
  pose proof (sample_safe_select_action (policy w)
                (forward (policy_net w) st) (rng w)) as Hsel.
  destruct (AnnealedEpsGreedyPolicy.select_action _ _ _)
    as [[policy' g] chosen]. simpl in Hsel.
  apply sample_safe_bind; [done|]. intros a.
  apply sample_safe_bind; [apply sample_safe_env_step|]. intros [ns r].
  apply sample_safe_bind; [apply sample_safe_push|]. intros memory'.
  apply sample_safe_bind; [apply sample_safe_update_model|]. intros w'.
  apply sample_safe_bind; [apply sample_safe_getitem|]. intros price.
  apply sample_safe_Ok.
Qed.

Lemma sample_safe_step_loop ts :
  ∀ w st reward_trace p, sample_safe (step_loop ts w st reward_trace p).
Proof.
  induction ts as [|t ts IH]; intros w st reward_trace p; simpl.
  - apply sample_safe_Ok.
  - apply sample_safe_bind; [apply sample_safe_train_step|].
    intros [[[w' st'] rt'] p']. apply IH.
Qed.

Lemma sample_safe_run_episode i w : sample_safe (run_episode i w).
Proof.
  unfold run_episode.
  apply sample_safe_bind; [apply sample_safe_step_loop|].
  intros [[w' rt] p].
  apply sample_safe_bind; [apply sample_safe_py_mod|]. intros r.
  case_decide; apply sample_safe_Ok.
Qed.

Lemma sample_safe_episode_loop episodes :
  ∀ w, sample_safe (episode_loop episodes w).
Proof.
  induction episodes as [|i episodes IH]; intros w; simpl.
  - apply sample_safe_Ok.
  - apply sample_safe_bind; [apply sample_safe_run_episode | apply IH].
Qed.

(** C9.  [update_model] is the only caller of [sample], and it samples
    only behind its guard: with fewer stored transitions than the batch
    size it returns the world as it received it (networks, optimiser,
    buffer and generator untouched); an update that changed anything
    ran on at least [BATCH_SIZE] stored transitions; and neither an
    update nor a whole training run of any length can end in the
    insufficient-data error of [sample]. *)
Theorem update_guarded_by_batch_size :
  (∀ w, ReplayMemory.len (memory w) < BATCH_SIZE → update_model w = Ok w) ∧
  (∀ w w', update_model w = Ok w' → w' ≠ w →
           BATCH_SIZE ≤ ReplayMemory.len (memory w)) ∧
  (∀ w, update_model w ≠ Raise (ValueError SampleLargerThanPopulation)) ∧
  (∀ t w st reward_trace p,
     train_step t w st reward_trace p
     ≠ Raise (ValueError SampleLargerThanPopulation)) ∧
  (∀ num_episodes w,
     train num_episodes w ≠ Raise (ValueError SampleLargerThanPopulation)).
Proof.
  split; [apply update_model_skip|].
  split.
  { intros w w' Hrun Hne.
    destruct (update_model_inv w w' Hrun) as [->|[Hlen _]]; done. }
  split; [apply sample_safe_update_model|].
  split; [apply sample_safe_train_step|].
  intros n w. apply sample_safe_episode_loop.
Qed.

(** A training step whose draw does not exceed the threshold. *)
Lemma train_step_explore t w st reward_trace p :
  (0 < AnnealedEpsGreedyPolicy.eps_decay (policy w))%R →
  (uniform (rng w) <= AnnealedEpsGreedyPolicy.eps_threshold (policy w))%R →
  train_step t w st reward_trace p =
    (a ← (random_randrange (length (forward (policy_net w) st))
                           (S (rng w))).1;
     '(next_st, r) ← env_step t st a;
     memory' ← ReplayMemory.push (memory w)
       {| state := st; action := a;
          next_state := if decide (t ≠ T - 1) then Some next_st else None;
          reward := r |};
     w ← update_model
       {| policy_net := policy_net w; target_net := target_net w;
          optimizer := optimizer w;
          policy := AnnealedEpsGreedyPolicy.count_step (policy w);
          memory := memory';
          rng := (random_randrange (length (forward (policy_net w) st))
                                   (S (rng w))).2;
          return_trace := return_trace w; p_trace := p_trace w |};
     price ← getitem price_grid a;
     Ok (w, next_st, reward_trace ++ [r], p ++ [price])).
Proof.
  intros Hd Hs. unfold train_step.
  rewrite select_action_explore by (done || lra). done.
Qed.

Lemma train_step_target t w st reward_trace p w' st' reward_trace' p' :
  train_step t w st reward_trace p = Ok (w', st', reward_trace', p') →
  target_net w' = target_net w.
Proof.
  unfold train_step.
  destruct (AnnealedEpsGreedyPolicy.select_action _ _ _)
    as [[policy' g] chosen].
  intros Hrun.
  apply bind_Ok_inv in Hrun as (a & _ & Hrun).
  apply bind_Ok_inv in Hrun as ([ns r] & _ & Hrun).
  apply bind_Ok_inv in Hrun as (memory' & _ & Hrun).
  apply bind_Ok_inv in Hrun as (w1 & Hupd & Hrun).
  apply bind_Ok_inv in Hrun as (price & _ & Hrun).
  injection Hrun as <- <- <- <-.
  destruct (update_model_inv _ _ Hupd) as [->|(_ & pn & opt & g' & ->)];
    done.
Qed.

Lemma step_loop_target ts :
  ∀ w st reward_trace p w' reward_trace' p',
    step_loop ts w st reward_trace p = Ok (w', reward_trace', p') →
    target_net w' = target_net w.
Proof.
  induction ts as [|t ts IH]; intros w st rt p w' rt' p' Hrun; simpl in Hrun.
  - by injection Hrun as <- <- <-.
  - apply bind_Ok_inv in Hrun as ([[[w1 st1] rt1] p1] & Hstep & Hrun).
    rewrite (IH _ _ _ _ _ _ _ Hrun). by eapply train_step_target.
Qed.

Lemma run_episode_target i w w' :
  run_episode i w = Ok w' →
  TARGET_UPDATE ≠ 0 ∧
  (i mod TARGET_UPDATE = 0 → target_net w' = policy_net w') ∧
  (i mod TARGET_UPDATE ≠ 0 → target_net w' = target_net w).
Proof.
  unfold run_episode. intros Hrun.
  apply bind_Ok_inv in Hrun as ([[w1 rt] p] & Hloop & Hrun).
  apply step_loop_target in Hloop.
  unfold py_mod in Hrun. case_decide as Hz; [discriminate|].
  rewrite bind_Ok in Hrun. split; [done|].
  case_decide as Hr; injection Hrun as <-; simpl; split; intros; done.
Qed.

(** C8.  An episode whose index is a multiple of [TARGET_UPDATE] (episode
    0 among them) ends by overwriting the target parameters with the
    policy parameters, after which the two networks evaluate alike on
    every state; other episodes leave the target parameters as they
    found them.  The optimisation step changes neither the target
    parameters nor the buffer, the exploration policy or the traces
    (what it does change are the policy parameters, the optimiser's
    state and the generator's cursor), and a whole training step leaves
    the target parameters alone as well. *)
Theorem target_sync_cadence :
  (∀ i w w', run_episode i w = Ok w' →
     (i mod TARGET_UPDATE = 0 →
      target_net w' = policy_net w' ∧
      ∀ s, forward (target_net w') s = forward (policy_net w') s) ∧
     (i mod TARGET_UPDATE ≠ 0 → target_net w' = target_net w)) ∧
  (∀ w w', run_episode 0 w = Ok w' → target_net w' = policy_net w') ∧
  (∀ w w', update_model w = Ok w' →
     target_net w' = target_net w ∧ memory w' = memory w ∧
     policy w' = policy w ∧
     return_trace w' = return_trace w ∧ p_trace w' = p_trace w) ∧
  (∀ t w st reward_trace p w' st' reward_trace' p',
     train_step t w st reward_trace p = Ok (w', st', reward_trace', p') →
     target_net w' = target_net w).
Proof.
  split.
  { intros i w w' Hrun.
    destruct (run_episode_target i w w' Hrun) as (_ & Hsync & Hkeep).
    split; [|done]. intros Hi. specialize (Hsync Hi).
    split; [done|]. intros s. by rewrite Hsync. }
  split.
  { intros w w' Hrun.
    destruct (run_episode_target 0 w w' Hrun) as (Hz & Hsync & _).
    apply Hsync. by apply Nat.Div0.mod_0_l. }
  split.
  { intros w w' Hrun.
    destruct (update_model_inv _ _ Hrun) as [->|(_ & pn & opt & g' & ->)];
      done. }
  intros. by eapply train_step_target.
Qed.

Lemma mapM_Some_cells (batch : list Transition) :
  mapM (λ c : option Transition,
          match c with Some tr => Ok tr | None => Raise TypeError end)
       (Some <$> batch) = Ok batch.
Proof.
  induction batch as [|tr batch IH]; [done|].
  by rewrite fmap_cons, mapM_cons, bind_Ok, IH.
Qed.

Lemma omap_next_state_terminal (batch : list Transition) :
  Forall (λ tr, next_state tr = None) batch → omap next_state batch = [].
Proof.
  induction 1 as [|tr batch Htr _ IH]; [done|]. simpl. by rewrite Htr.
Qed.

Lemma expected_all_terminal pn tn (batch : list Transition) :
  batch ≠ [] → Forall (λ tr, next_state tr = None) batch →
  expected_state_action_values pn tn (Some <$> batch)
  = Raise (RuntimeError StackEmptyList).
Proof.
  intros Hne Hterm. unfold expected_state_action_values, unzip_transitions.
  destruct batch as [|tr batch]; [done|].
  change (Some <$> tr :: batch) with (Some tr :: (Some <$> batch)).
  cbv match. change (Some tr :: (Some <$> batch)) with (Some <$> tr :: batch).
  rewrite mapM_Some_cells, bind_Ok.
  by rewrite omap_next_state_terminal.
Qed.

(** In a batch that [update_model] gets through, the expected value of a
    row that ends its episode is its reward plus [GAMMA] times 0,
    whatever the target network returns. *)
Lemma expected_terminal_row pn tn transitions sb ab sav expected i tr :
  length transitions = BATCH_SIZE →
  expected_state_action_values pn tn transitions = Ok (sb, ab, sav, expected) →
  transitions !! i = Some (Some tr) → next_state tr = None →
  expected !! i = Some (reward tr + GAMMA * 0)%Q.
Proof.
  intros Hlen Hrun Hi Hterm. unfold expected_state_action_values in Hrun.
  apply bind_Ok_inv in Hrun as (batch & Hbatch & Hrun).
  assert (Hcells : transitions = Some <$> batch).
  { unfold unzip_transitions in Hbatch.
    destruct transitions; [discriminate|]. by apply mapM_cells_Ok. }
  subst transitions. rewrite length_fmap in Hlen.
  rewrite list_lookup_fmap in Hi.
  destruct (batch !! i) as [tr'|] eqn:Htr; [|discriminate].
  injection Hi as ->.
  apply bind_Ok_inv in Hrun as (nf & _ & Hrun).
  apply bind_Ok_inv in Hrun as (sb' & _ & Hrun).
  apply bind_Ok_inv in Hrun as (ab' & _ & Hrun).
  apply bind_Ok_inv in Hrun as (rb & Hrb & Hrun).
  apply torch_stack_Ok in Hrb. subst rb.
  apply bind_Ok_inv in Hrun as (sav' & _ & Hrun).
  apply bind_Ok_inv in Hrun as (maxima & _ & Hrun).
  injection Hrun as _ _ _ <-.
  rewrite lookup_zip_with, list_lookup_fmap, Htr. simpl.
  rewrite masked_assign_false.
  - rewrite lookup_replicate_2 by (rewrite <- Hlen; by eapply lookup_lt_Some).
    done.
  - rewrite list_lookup_fmap, Htr. simpl. rewrite Hterm.
    by rewrite bool_decide_false by (by intros [? ?]).
Qed.
(** C2 (the code at the failing input).  When every sampled row is the
    last step of its episode, [update_model] does not reach the
    targets: stacking the empty list of non-final next states raises. *)
Theorem update_model_all_terminal (w : World) (batch : list Transition) :
  1 ≤ BATCH_SIZE → BATCH_SIZE ≤ ReplayMemory.len (memory w) →
  (ReplayMemory.sample (memory w) BATCH_SIZE (rng w)).1
    = Ok (Some <$> batch) →
  Forall (λ tr, next_state tr = None) batch →
  update_model w = Raise (RuntimeError StackEmptyList).
Proof.
  intros Hb Hlen Hsample Hterm. unfold update_model.
  rewrite decide_False by lia.
  assert (Hne : batch ≠ []).
  { pose proof (sample_Ok_length _ _ _ _ Hsample) as Hn.
    rewrite length_fmap in Hn. destruct batch; simpl in *; [lia | done]. }
  destruct (ReplayMemory.sample (memory w) BATCH_SIZE (rng w))
    as [sampled g]. simpl in Hsample. subst sampled.
  rewrite bind_Ok, expected_all_terminal by done. done.
Qed.

End EngineFacts.

(** * Part III: the notebook's configuration and concrete runs *)

(** ** The simulator on the notebook's price grid *)

Lemma plus_nonneg (x : R) : (0 <= Demand.plus x)%R.
Proof. unfold Demand.plus. destruct (Rlt_dec x 0); lra. Qed.

Lemma q_t_nonneg (p_t p_t_1 q_0 k a b : R) :
  (0 <= Demand.q_t p_t p_t_1 q_0 k a b)%R.
Proof. apply plus_nonneg. Qed.

(** C1 (counterexample).  In the first step of an episode with the
    lowest grid price, 80, [env_step] returns the reward 80, whereas
    demand times [price - unit_cost] is at most 0 at that price, whatever
    the previous price: the unit cost is 100 and demand is not
    negative. *)
Lemma env_step_reward_not_demand_profit :
  ∃ (next_st : list Z) (r price : Q),
    @env_step Notebook.config 0 (@env_initial_state Notebook.config) 0
      = Ok (next_st, r) ∧
    @price_grid Notebook.config !! 0 = Some price ∧
    ∀ prev_price : R,
      Q2R r ≠ (Demand.q_t (Q2R price) prev_price Demand.q_0 Demand.k
                          Demand.a_q Demand.b_q
               * (Q2R price - Demand.unit_cost))%R.
Proof.
  eexists _, _, _. split; [vm_compute; reflexivity|].
  split; [vm_compute; reflexivity|].
  intros prev_price.
  pose proof (q_t_nonneg (Q2R (720 # 9)) prev_price Demand.q_0 Demand.k
                Demand.a_q Demand.b_q) as Hd.
  unfold Demand.unit_cost, Q2R in *. simpl in *. nra.
Qed.

Lemma env_step_reward_witness :
  ∃ next_st : list Z,
    @env_step Notebook.config 3 [97; 84; 120; 0; 0; 0; 0; 0; 0; 0;
                                 0; 0; 1; 0; 0; 0; 0; 0; 0; 0]%Z 0
      = Ok (next_st, (inject_Z 80 - (1 # 10) * inject_Z 169)%Q) ∧
    next_st !! 0 = Some 80%Z.
Proof.
  apply (@env_step_reward Notebook.config 3
           [97; 84; 120; 0; 0; 0; 0; 0; 0; 0;
            0; 0; 1; 0; 0; 0; 0; 0; 0; 0]%Z 0 (720 # 9) 80%Z 120%Z);
    [ reflexivity | vm_compute; lia | reflexivity | reflexivity
    | repeat (apply List.Forall_cons; [simpl; lia|]); apply List.Forall_nil
    | vm_compute; reflexivity ].
Defined.

(** C4 (the code at the failing input).  On the notebook's grid the
    second price is 760/9 = 84.44...; the step that chooses it stores 84
    at index 0 of the next state. *)
Theorem env_step_truncates_grid_price :
  ∃ (next_st : list Z) (r price : Q),
    @env_step Notebook.config 0 (@env_initial_state Notebook.config) 1
      = Ok (next_st, r) ∧
    @price_grid Notebook.config !! 1 = Some price ∧
    next_st !! 0 = Some 84%Z ∧
    (price == 760 # 9)%Q ∧ ¬ (inject_Z 84 == price)%Q.
Proof.
  eexists _, _, _. split; [vm_compute; reflexivity|].
  split; [vm_compute; reflexivity|]. split; [reflexivity|].
  split; [reflexivity|]. intros Heq. vm_compute in Heq. discriminate.
Qed.

(** ** The replay memory on tagged transitions *)

Lemma replay_memory_ring_witness :
  ∃ self,
    ReplayMemory.push_all (ReplayMemory.init 3)
                          (Standin.tagged false <$> seq 0 8) = Ok self ∧
    ReplayMemory.len self = 3 ∧
    ReplayMemory.chronological self
    = Some <$> (Standin.tagged false <$> [5; 6; 7]) ∧
    ReplayMemory.memory self
    = Some <$> (Standin.tagged false <$> [6; 7; 5]).
Proof.
  destruct (replay_memory_ring 3 5 (Standin.tagged false <$> seq 0 8))
    as [(self & Hrun & Hlen & Hchr & _) _]; [lia | reflexivity |].
  exists self. split; [exact Hrun|]. split; [exact Hlen|].
  split; [exact Hchr|].
  vm_compute in Hrun. injection Hrun as <-. reflexivity.
Defined.

Lemma sample_without_replacement_witness :
  (∃ batch,
     (@ReplayMemory.sample Standin.zero_draws
        (ReplayMemory.mk 3 (Some <$> (Standin.tagged false <$> [6; 7; 5])) 2)
        2 0).1 = Ok batch ∧
     length batch = 2 ∧
     batch ⊆+ Some <$> (Standin.tagged false <$> [6; 7; 5])) ∧
  (∃ batch,
     (@ReplayMemory.sample Standin.zero_draws
        (ReplayMemory.mk 30 (Some <$> (Standin.tagged false <$> seq 0 30)) 0)
        2 28).1 = Ok batch ∧
     length batch = 2 ∧
     batch ⊆+ Some <$> (Standin.tagged false <$> seq 0 30)) ∧
  (@ReplayMemory.sample Standin.zero_draws
     (ReplayMemory.mk 3 (Some <$> (Standin.tagged false <$> [6; 7; 5])) 2)
     4 0).1 = Raise (ValueError SampleLargerThanPopulation).
Proof.
  destruct (sample_without_replacement
              (ReplayMemory.mk 3
                 (Some <$> (Standin.tagged false <$> [6; 7; 5])) 2) 2)
    as [Hpool _].
  destruct (sample_without_replacement
              (ReplayMemory.mk 30
                 (Some <$> (Standin.tagged false <$> seq 0 30)) 0) 2)
    as [Hset _].
  destruct (sample_without_replacement
              (ReplayMemory.mk 3
                 (Some <$> (Standin.tagged false <$> [6; 7; 5])) 2) 4)
    as [_ Hfail].
  split; [|split].
  - destruct Hpool as [Hbatch _]; [vm_compute; lia|].
    destruct (Hbatch Standin.zero_draws 0) as (_ & Hret & Hok).
    destruct Hret as [batch Hb]; [left; vm_compute; lia|].
    destruct (Hok batch Hb) as (Hl & Hs & _). eauto.
  - destruct Hset as [Hbatch _]; [vm_compute; lia|].
    destruct (Hbatch Standin.zero_draws 28) as (_ & Hret & Hok).
    destruct Hret as [batch Hb].
    { right. intros g' selected Hlen.
      destruct (consecutive_draws_leave 30 g' selected Hlen)
        as (d & Hd & Hout).
      exists d. split; [simpl; lia | exact Hout]. }
    destruct (Hok batch Hb) as (Hl & Hs & _). eauto.
  - apply Hfail. vm_compute; lia.
Defined.

(** ** [random.sample] on both sides of [setsize]

    With the raw integers 15 and 27, two of 21 cells are selected from
    the pool (the second one is cell [27 mod 20] of a pool in which
    cell 15 has been refilled), and two of 22 cells by position (the
    second one is [27 mod 22]).  A position drawn twice is drawn again;
    a generator that is stuck on one position leaves the loop
    unfinished. *)
Lemma random_sample_pool :
  @random_sample (Standin.replaying [15; 27]) nat (seq 0 21) 2 0
  = (Ok [15; 7], 2).
Proof. reflexivity. Qed.

Lemma random_sample_set :
  @random_sample (Standin.replaying [15; 27]) nat (seq 0 22) 2 0
  = (Ok [15; 5], 2).
Proof. reflexivity. Qed.

Lemma random_sample_redraws :
  @random_sample (Standin.replaying [15; 37; 27]) nat (seq 0 22) 2 0
  = (Ok [15; 5], 3).
Proof. reflexivity. Qed.

Lemma random_sample_stuck :
  (@random_sample (Standin.replaying []) nat (seq 0 22) 2 0).1 = Unfinished.
Proof. reflexivity. Qed.

(** ** The exploration policy on concrete draws *)

(** C5 (counterexample).  With [eps_start = eps_end = 0] and the draw 0,
    which lies in [0, 1), the draw does not exceed the threshold 0: the
    call returns the index drawn by [randrange], here 1, and not the
    [argmax] of the values, which is 0. *)
Lemma select_action_zero_eps_zero_draw :
  (0 <= @uniform Standin.zero_draws 0 < 1)%R ∧
  (@AnnealedEpsGreedyPolicy.select_action Standin.zero_draws
     (AnnealedEpsGreedyPolicy.init 0 0 400) [2; 1]%Q 0).2 = Ok 1 ∧
  np_argmax [2; 1]%Q = Ok 0.
Proof.
  split; [simpl; lra|]. split; [|reflexivity].
  rewrite select_action_explore; [reflexivity | simpl; lra |].
  unfold AnnealedEpsGreedyPolicy.eps_threshold. simpl. lra.
Qed.

Lemma select_action_zero_eps_witness :
  (@AnnealedEpsGreedyPolicy.select_action Standin.half_draws
     (AnnealedEpsGreedyPolicy.init 0 0 400) [2; 1; 5; 5]%Q 0).2 = Ok 2.
Proof.
  rewrite (@select_action_zero_eps Standin.half_draws
             (AnnealedEpsGreedyPolicy.init 0 0 400) [2; 1; 5; 5]%Q 0);
    [reflexivity | reflexivity | reflexivity | simpl; lra | simpl; lra].
Defined.

(** On the policy with [eps_decay = - 1 / 1024] the exponent of the
    second call is 1024. *)
Lemma overflowing_quotient :
  (-1 * INR (AnnealedEpsGreedyPolicy.steps_done Standin.overflowing) /
   AnnealedEpsGreedyPolicy.eps_decay Standin.overflowing)%R = INR 1024.
Proof.
  rewrite INR_IZR_INZ. change (Z.of_nat 1024) with 1024%Z. simpl. field.
Qed.

Lemma overflowing_in_range :
  ¬ (-1 * INR (AnnealedEpsGreedyPolicy.steps_done Standin.overflowing) /
     AnnealedEpsGreedyPolicy.eps_decay Standin.overflowing
     > float_max)%R.
Proof.
  rewrite overflowing_quotient.
  rewrite INR_IZR_INZ. change (Z.of_nat 1024) with 1024%Z.
  assert (H10 : (1024 <= 2 ^ 1023)%R).
  { replace 1024%R with (2 ^ 10)%R by (simpl; lra).
    apply Rle_pow; [lra | lia]. }
  assert (Hinv : (/ 2 ^ 52 <= 1)%R).
  { rewrite <- Rinv_1. apply Rinv_le_contravar; [lra|].
    apply pow_R1_Rle. lra. }
  unfold float_max. nra.
Qed.

Lemma overflowing_exp :
  (exp (-1 * INR (AnnealedEpsGreedyPolicy.steps_done Standin.overflowing) /
        AnnealedEpsGreedyPolicy.eps_decay Standin.overflowing)
   > float_max)%R.
Proof.
  rewrite overflowing_quotient.
  pose proof (exp_INR_ge_pow 1024). pose proof float_max_lt_pow. lra.
Qed.



(** C10 (counterexample).  With [eps_decay = 0] the division raises
    ZeroDivisionError before the increment: the call leaves the counter
    at 0. *)
Lemma steps_done_zero_decay_not_counted :
  let self := AnnealedEpsGreedyPolicy.init 0.9 0.05 0 in
  AnnealedEpsGreedyPolicy.steps_done
    (@AnnealedEpsGreedyPolicy.select_action Standin.half_draws self
       [2; 1]%Q 0).1.1
  ≠ AnnealedEpsGreedyPolicy.steps_done self + 1 ∧
  (@AnnealedEpsGreedyPolicy.select_action Standin.half_draws self
     [2; 1]%Q 0).2 = Raise ZeroDivisionError.
Proof.
  intros self. rewrite select_action_zero_decay by reflexivity.
  split; [simpl; lia | reflexivity].
Qed.

Lemma steps_done_counts_calls_witness :
  AnnealedEpsGreedyPolicy.steps_done
    (@AnnealedEpsGreedyPolicy.select_actions Standin.half_draws
       Notebook.policy [[2; 1]; []; [5]]%Q 0).1 = 3.
Proof.
  destruct (@steps_done_counts_calls Standin.half_draws Notebook.policy 0)
    as [_ Hcalls]; [simpl; lra|].
  rewrite Hcalls. reflexivity.
Defined.

(** ** The engine on the stand-ins *)

Section StandinRuns.
Import AnnealedEpsGreedyPolicy.

#[local] Existing Instances Standin.small Standin.zero_draws Standin.tabular.

(** Rewrites a training step of a run in which the policy explores. *)
Ltac explore_step :=
  rewrite train_step_explore;
  [ | simpl; lra
    | match goal with
      | |- (_ <= eps_threshold ?p)%R =>
          pose proof (eps_threshold_pos p); simpl in *; lra
      end ].

(** Episode 0 from the initial objects: the first step only fills the
    buffer, the second one runs an optimisation step, and the episode
    ends with a synchronisation. *)
Lemma standin_episode0 :
  ∃ w', run_episode 0 Standin.world0 = Ok w' ∧
        policy_net w' = [1010 # 10; 1000 # 10]%Q ∧
        optimizer w' = 1 ∧
        ReplayMemory.len (memory w') = 2 ∧
        steps_done (policy w') = 2 ∧
        return_trace w' = [20000 # 100]%Q.
Proof.
  unfold run_episode. simpl seq. unfold step_loop.
  explore_step.
  lazy -[count_step Notebook.policy train_step].
  explore_step.
  lazy -[count_step Notebook.policy].
  eexists. split; [reflexivity|]. simpl. done.
Qed.

(** One episode of the whole training loop. *)
Lemma standin_train1 :
  ∃ w', train 1 Standin.world0 = Ok w' ∧
        policy_net w' = [1000 # 10; 1000 # 10]%Q ∧
        target_net w' = [1000 # 10; 1000 # 10]%Q ∧
        optimizer w' = 1.
Proof.
  unfold train. simpl seq. unfold episode_loop, run_episode.
  simpl seq. unfold step_loop.
  explore_step.
  lazy -[count_step Notebook.policy train_step].
  explore_step.
  lazy -[count_step Notebook.policy].
  eexists. split; [reflexivity|]. simpl. done.
Qed.

(** Two episodes: the second one, whose index is odd, trains the policy
    network and leaves the target as the first one set it. *)
Lemma standin_train2 :
  ∃ w', train 2 Standin.world0 = Ok w' ∧
        policy_net w' = [20000 # 100; 1000 # 10]%Q ∧
        target_net w' = [1000 # 10; 1000 # 10]%Q.
Proof.
  unfold train. simpl seq. unfold episode_loop, run_episode.
  simpl seq. unfold step_loop.
  explore_step.
  lazy -[count_step Notebook.policy train_step].
  explore_step.
  lazy -[count_step Notebook.policy train_step].
  explore_step.
  lazy -[count_step Notebook.policy train_step].
  explore_step.
  lazy -[count_step Notebook.policy].
  eexists. split; [reflexivity|]. simpl. done.
Qed.

Lemma target_sync_cadence_witness :
  ∃ w', run_episode 0 Standin.world0 = Ok w' ∧
        target_net w' = policy_net w' ∧
        ∀ s, forward (target_net w') s = forward (policy_net w') s.
Proof.
  destruct standin_episode0 as (w' & Hrun & _).
  exists w'. split; [exact Hrun|].
  destruct (@target_sync_cadence Standin.small Standin.zero_draws
              Standin.tabular) as (Hcadence & _).
  destruct (Hcadence 0 Standin.world0 w' Hrun) as [Hsync _].
  apply Hsync. reflexivity.
Defined.

Lemma update_guarded_by_batch_size_witness :
  update_model Standin.world0 = Ok Standin.world0 ∧
  train 1 Standin.world0 ≠ Raise (ValueError SampleLargerThanPopulation).
Proof.
  destruct (@update_guarded_by_batch_size Standin.small Standin.zero_draws
              Standin.tabular) as (Hskip & _ & _ & _ & Htrain).
  split; [apply Hskip; vm_compute; lia | apply Htrain].
Defined.

Lemma update_model_all_terminal_witness :
  @update_model Notebook.config Standin.descending_draws Standin.tabular
                Standin.world_512
  = Raise (RuntimeError StackEmptyList).
Proof.
  apply (@update_model_all_terminal Notebook.config Standin.descending_draws
           Standin.tabular Standin.world_512
           (replicate 512 Standin.last_at_80)).
  - vm_compute. lia.
  - apply Nat.leb_le. vm_compute. reflexivity.
  - vm_compute. reflexivity.
  - apply Forall_replicate. reflexivity.
Defined.

(** Two episodes of training in which, at the last step, the generator
    draws the two last steps of the episodes for the batch: the run ends
    in the error of [torch.stack]. *)
Lemma standin_train_raises :
  @train Standin.small Standin.late_draws Standin.tabular 2 Standin.world0
  = Raise (RuntimeError StackEmptyList).
Proof.
  unfold train. simpl seq. unfold episode_loop, run_episode.
  simpl seq. unfold step_loop.
  explore_step.
  lazy -[count_step Notebook.policy train_step].
  explore_step.
  lazy -[count_step Notebook.policy train_step].
  explore_step.
  lazy -[count_step Notebook.policy train_step].
  explore_step.
  lazy -[count_step Notebook.policy].
  reflexivity.
Qed.

End StandinRuns.

(** * Part IV: further properties *)

(** ** The demand model *)

Section DemandFacts.
Import Demand.
Local Open Scope R_scope.

Lemma minus_nonneg (x : R) : 0 <= minus x.
Proof. unfold minus. destruct (Rgt_dec x 0); lra. Qed.

Lemma plus_mono (x y : R) : x <= y → plus x <= plus y.
Proof. unfold plus. intros Hxy. destruct (Rlt_dec x 0), (Rlt_dec y 0); lra. Qed.

Lemma plus_of_nonpos (x : R) : x <= 0 → plus x = 0.
Proof. unfold plus. intros Hx. destruct (Rlt_dec x 0); lra. Qed.

Lemma plus_of_nonneg (x : R) : 0 <= x → plus x = x.
Proof. unfold plus. intros Hx. destruct (Rlt_dec x 0); lra. Qed.

Lemma minus_of_nonneg (x : R) : 0 <= x → minus x = 0.
Proof. unfold minus. intros Hx. destruct (Rgt_dec x 0); lra. Qed.

Lemma minus_of_nonpos (x : R) : x <= 0 → minus x = - x.
Proof. unfold minus. intros Hx. destruct (Rgt_dec x 0); lra. Qed.

Lemma shock_0 : shock 0 = 0.
Proof. apply sqrt_0. Qed.

Lemma shock_nonneg (x : R) : 0 <= shock x.
Proof. apply sqrt_pos. Qed.

(** With equal prices neither shock term is active. *)
Lemma q_t_steady (p q_0 k a b : R) : q_t p p q_0 k a b = plus (q_0 - k * p).
Proof.
  unfold q_t. replace (p - p) with 0 by lra.
  rewrite (plus_of_nonneg 0), (minus_of_nonneg 0), shock_0 by lra.
  f_equal. lra.
Qed.

Lemma profit_t_steady (p q_0 k a b unit_cost : R) :
  profit_t p p q_0 k a b unit_cost = plus (q_0 - k * p) * (p - unit_cost).
Proof. unfold profit_t. by rewrite q_t_steady. Qed.

(** X1.  Demand is never negative, so the profit of a step has the sign
    of the margin: it is not negative at a price of at least the unit
    cost and not positive at a price of at most the unit cost. *)
Theorem demand_clamped (p_t p_t_1 q_0 k a b unit_cost : R) :
  0 <= q_t p_t p_t_1 q_0 k a b ∧
  (unit_cost <= p_t → 0 <= profit_t p_t p_t_1 q_0 k a b unit_cost) ∧
  (p_t <= unit_cost → profit_t p_t p_t_1 q_0 k a b unit_cost <= 0).
Proof.
  assert (Hq : 0 <= q_t p_t p_t_1 q_0 k a b) by apply plus_nonneg.
  unfold profit_t. repeat split; [done | intros; nra | intros; nra].
Qed.

(** X2.  The response to a price change is one-sided: after a rise only
    the term with [a] acts, after a cut only the term with [b], each
    through the square root of the change; with non-negative [a] and
    [b] a rise never leaves more demand, and a cut never less, than the
    same price held steady. *)
Theorem demand_asymmetric_response (p_t p_t_1 q_0 k a b : R) :
  (p_t_1 <= p_t →
   q_t p_t p_t_1 q_0 k a b = plus (q_0 - k * p_t - a * sqrt (p_t - p_t_1))) ∧
  (p_t <= p_t_1 →
   q_t p_t p_t_1 q_0 k a b = plus (q_0 - k * p_t + b * sqrt (p_t_1 - p_t))) ∧
  (0 <= a → p_t_1 <= p_t →
   q_t p_t p_t_1 q_0 k a b <= q_t p_t p_t q_0 k a b) ∧
  (0 <= b → p_t <= p_t_1 →
   q_t p_t p_t q_0 k a b <= q_t p_t p_t_1 q_0 k a b).
Proof.
  assert (Hrise : p_t_1 <= p_t →
    q_t p_t p_t_1 q_0 k a b = plus (q_0 - k * p_t - a * sqrt (p_t - p_t_1))).
  { intros Hle. unfold q_t, shock.
    rewrite (plus_of_nonneg (p_t - p_t_1)) by lra.
    rewrite (minus_of_nonneg (p_t - p_t_1)) by lra.
    rewrite sqrt_0. f_equal. lra. }
  assert (Hcut : p_t <= p_t_1 →
    q_t p_t p_t_1 q_0 k a b = plus (q_0 - k * p_t + b * sqrt (p_t_1 - p_t))).
  { intros Hle. unfold q_t, shock.
    rewrite (plus_of_nonpos (p_t - p_t_1)) by lra.
    rewrite (minus_of_nonpos (p_t - p_t_1)) by lra.
    rewrite sqrt_0. f_equal.
    replace (- (p_t - p_t_1)) with (p_t_1 - p_t) by lra. lra. }
  split; [done|]. split; [done|]. split.
  - intros Ha Hle. rewrite (Hrise Hle), q_t_steady. apply plus_mono.
    pose proof (sqrt_pos (p_t - p_t_1)). nra.
  - intros Hb Hle. rewrite (Hcut Hle), q_t_steady. apply plus_mono.
    pose proof (sqrt_pos (p_t_1 - p_t)). nra.
Qed.

End DemandFacts.

(** ** The baseline strategies *)

Section BaselineFacts.
Import Demand.
Local Open Scope R_scope.

Lemma py_index_0 {A} (x : A) (l : list A) : py_index (x :: l) 0 = Ok x.
Proof. unfold py_index. by rewrite (decide_False (P:=(0 < 0)%Z)) by lia. Qed.

Lemma py_index_of_nat {A} (l : list A) (i : nat) :
  py_index l (Z.of_nat i) = getitem l i.
Proof.
  unfold py_index. rewrite (decide_False (P:=(Z.of_nat i < 0)%Z)) by lia.
  by rewrite Nat2Z.id.
Qed.

Lemma py_index_pred {A} (l : list A) (i : nat) :
  py_index l (Z.of_nat (S i) - 1) = getitem l i.
Proof.
  replace (Z.of_nat (S i) - 1)%Z with (Z.of_nat i) by lia.
  apply py_index_of_nat.
Qed.

Lemma lookup_length_cons {A} (x : A) (l : list A) :
  (x :: l) !! length l = Some (default x (last l)).
Proof.
  change (length l) with (pred (length (x :: l))).
  rewrite <- last_lookup, last_cons. by destruct (last l).
Qed.

(** The subscript [-1] reads the last element. *)
Lemma py_index_minus_1 {A} (x : A) (l : list A) :
  py_index (x :: l) (Z.of_nat 0 - 1) = Ok (default x (last l)).
Proof.
  unfold py_index. rewrite (decide_True (P:=(Z.of_nat 0 - 1 < 0)%Z)) by lia.
  rewrite decide_True by (simpl length; lia).
  replace (Z.to_nat (Z.of_nat 0 - 1 + Z.of_nat (length (x :: l))))
    with (length l) by (simpl length; lia).
  unfold getitem. by rewrite lookup_length_cons.
Qed.

Lemma mapM_seq_Ok {B} (f : nat → outcome B) (l : list B) (start : nat) :
  (∀ i y, l !! i = Some y → f (start + i)%nat = Ok y) →
  mapM f (seq start (length l)) = Ok l.
Proof.
  revert start. induction l as [|y l IH]; intros start Hf; [done|].
  simpl length. simpl seq. rewrite mapM_cons.
  rewrite <- (Nat.add_0_r start) at 1. rewrite (Hf 0%nat y eq_refl), bind_Ok.
  rewrite IH; [done|]. intros i z Hi.
  replace (S start + i)%nat with (start + S i)%nat by lia. by apply Hf.
Qed.

Lemma mapM_fmap_Ok {A B} (f : A → outcome B) (g : A → B) (l : list A) :
  (∀ x, x ∈ l → f x = Ok (g x)) → mapM f l = Ok (g <$> l).
Proof.
  induction l as [|x l IH]; intros Hf; [done|].
  rewrite mapM_cons, (Hf x), bind_Ok by apply list_elem_of_here.
  rewrite IH; [done|]. intros y Hy. apply Hf. by apply list_elem_of_further.
Qed.

Lemma foldl_Rplus_shift (l : list R) (x : R) :
  foldl Rplus x l = x + foldl Rplus 0 l.
Proof.
  revert x. induction l as [|y l IH]; intros x; simpl; [lra|].
  rewrite (IH (x + y)), (IH (0 + y)). lra.
Qed.

Lemma foldl_Rplus_replicate (n : nat) (x : R) :
  foldl Rplus 0 (replicate n x) = INR n * x.
Proof.
  induction n as [|n IH]; [simpl; lra|].
  rewrite replicate_S. cbn [foldl]. rewrite foldl_Rplus_shift, IH, S_INR. lra.
Qed.

(** The terms of [profit_total] on a non-empty vector: the extra term
    without shocks, the term of [t = 0] against [p[-1]], and one term
    for each pair of consecutive prices. *)
Lemma profit_total_cons (p0 : R) (rest : list R) (unit_cost q_0 k a b : R) :
  Baseline.profit_total (p0 :: rest) unit_cost q_0 k a b =
  Ok (profit_t p0 p0 q_0 k 0 0 unit_cost +
      foldl Rplus 0
        (profit_t p0 (default p0 (last rest)) q_0 k a b unit_cost ::
         zip_with (λ prev cur, profit_t cur prev q_0 k a b unit_cost)
                  (p0 :: rest) rest)).
Proof.
  unfold Baseline.profit_total. rewrite py_index_0, bind_Ok.
  simpl length. simpl seq. rewrite mapM_cons.
  rewrite py_index_of_nat, py_index_minus_1.
  change (getitem (p0 :: rest) 0) with (Ok p0). rewrite !bind_Ok.
  set (pairs := zip_with (λ prev cur, profit_t cur prev q_0 k a b unit_cost)
                         (p0 :: rest) rest).
  assert (Hlen : length rest = length pairs).
  { unfold pairs. rewrite length_zip_with_r; [done | simpl length; lia]. }
  rewrite Hlen, (mapM_seq_Ok _ pairs 1); [done|].
  intros i y Hi. unfold pairs in Hi.
  apply lookup_zip_with_Some in Hi as (prev & cur & -> & Hprev & Hcur).
  change (1 + i)%nat with (S i).
  rewrite py_index_of_nat, py_index_pred. unfold getitem.
  change ((p0 :: rest) !! S i) with (rest !! i). by rewrite Hcur, Hprev.
Qed.

Lemma profit_total_replicate (n : nat) (p unit_cost q_0 k a b : R) :
  Baseline.profit_total (replicate (S n) p) unit_cost q_0 k a b =
  Ok ((INR (S n) + 1) * (plus (q_0 - k * p) * (p - unit_cost))).
Proof.
  rewrite replicate_S, profit_total_cons. f_equal.
  assert (Hlast : default p (last (replicate n p)) = p).
  { destruct n as [|m]; [done|]. by rewrite replicate_S_end, last_snoc. }
  rewrite Hlast, <- replicate_S, zip_with_replicate_l
    by (rewrite length_replicate; lia).
  rewrite fmap_replicate, !profit_t_steady.
  cbn [foldl]. rewrite foldl_Rplus_shift, foldl_Rplus_replicate, S_INR. lra.
Qed.

Lemma profit_response_Ok (p : list R) :
  p ≠ [] → ∃ v, Baseline.profit_response p = Ok v.
Proof.
  destruct p as [|p0 rest]; [done|]. intros _.
  unfold Baseline.profit_response. rewrite profit_total_cons. eauto.
Qed.

Lemma argmax_from_real_spec (l : list R) :
  ∀ (pre : list R) (best_i : nat) (best : R),
    pre !! best_i = Some best →
    (∀ j v, pre !! j = Some v → v <= best) →
    (∀ j v, (j < best_i)%nat → pre !! j = Some v → v < best) →
    ∃ m, (pre ++ l) !! argmax_from_real best_i best (length pre) l = Some m ∧
         (∀ j v, (pre ++ l) !! j = Some v → v <= m) ∧
         (∀ j v, (j < argmax_from_real best_i best (length pre) l)%nat →
                 (pre ++ l) !! j = Some v → v < m).
Proof.
  induction l as [|x l IH]; intros pre best_i best Hbest Hmax Hfirst; simpl.
  - rewrite app_nil_r. eauto.
  - assert (Hlen : S (length pre) = length (pre ++ [x]))
      by (rewrite length_app; simpl; lia).
    assert (Hbi : (best_i < length pre)%nat) by (eapply lookup_lt_Some; eauto).
    rewrite (cons_middle x pre l), app_assoc, Hlen.
    destruct (Rle_dec x best) as [Hcmp|Hcmp].
    + apply IH.
      * by rewrite lookup_app_l.
      * intros j v Hj. apply lookup_app_Some in Hj as [Hj|[_ Hj]]; [eauto|].
        apply list_lookup_singleton_Some in Hj as [_ <-]. done.
      * intros j v Hlt Hj. rewrite lookup_app_l in Hj by lia. eauto.
    + assert (Hlt : best < x) by lra.
      apply IH.
      * rewrite lookup_app_r by lia. by rewrite Nat.sub_diag.
      * intros j v Hj. apply lookup_app_Some in Hj as [Hj|[_ Hj]].
        -- specialize (Hmax j v Hj). lra.
        -- apply list_lookup_singleton_Some in Hj as [_ <-]. lra.
      * intros j v Hj Hv. rewrite lookup_app_l in Hv by lia.
        specialize (Hmax j v Hv). lra.
Qed.

Lemma np_argmax_real_spec (values : list R) :
  values ≠ [] →
  ∃ i m, np_argmax_real values = Ok i ∧ values !! i = Some m ∧
         (∀ j v, values !! j = Some v → v <= m) ∧
         (∀ j v, (j < i)%nat → values !! j = Some v → v < m).
Proof.
  destruct values as [|x l]; [done|]. intros _. simpl.
  destruct (argmax_from_real_spec l [x] 0 x) as (m & Hm & Hmax & Hfirst).
  - done.
  - intros j v Hj. apply list_lookup_singleton_Some in Hj as [_ <-]. lra.
  - intros j v Hj. lia.
  - exists (argmax_from_real 0 x 1 l), m. eauto.
Qed.

(** [argmax] over the values of [g] on a non-empty grid, followed by
    the lookup of the grid price. *)
Lemma argmax_of_grid (g : R → R) (grid : list R) :
  grid ≠ [] →
  ∃ (i : nat) (c : R),
    (j ← np_argmax_real (g <$> grid); getitem grid j) = Ok c ∧
    grid !! i = Some c ∧
    (∀ c', c' ∈ grid → g c' <= g c) ∧
    (∀ j c', (j < i)%nat → grid !! j = Some c' → g c' < g c).
Proof.
  intros Hgrid.
  destruct (np_argmax_real_spec (g <$> grid)) as (i & m & Hi & Hm & Hmax & Hfst).
  { by destruct grid. }
  rewrite list_lookup_fmap in Hm.
  destruct (grid !! i) as [c|] eqn:Hc; [|done]. injection Hm as <-.
  exists i, c. split; [|split; [done|split]].
  - rewrite Hi, bind_Ok. unfold getitem. by rewrite Hc.
  - intros c' Hc'. apply list_elem_of_lookup in Hc' as [j Hj].
    apply (Hmax j). by rewrite list_lookup_fmap, Hj.
  - intros j c' Hlt Hj. apply (Hfst j); [done|].
    by rewrite list_lookup_fmap, Hj.
Qed.

(** The value of [profit_response] as a function of a non-empty price
    vector. *)
Lemma profit_response_fun :
  ∃ f : list R → R, ∀ p, p ≠ [] → Baseline.profit_response p = Ok (f p).
Proof.
  exists (λ p, match p with
               | [] => 0
               | p0 :: rest =>
                   profit_t p0 p0 q_0 k 0 0 unit_cost +
                   foldl Rplus 0
                     (profit_t p0 (default p0 (last rest)) q_0 k a_q b_q
                               unit_cost ::
                      zip_with (λ prev cur,
                                  profit_t cur prev q_0 k a_q b_q unit_cost)
                               (p0 :: rest) rest)
               end).
  intros [|p0 rest] Hp; [done|]. apply profit_total_cons.
Qed.

Lemma constant_profits_Ok (T : nat) (price_grid : list R) :
  (1 <= T)%nat →
  Baseline.constant_profits T price_grid =
  Ok ((λ p, (INR T + 1) * (plus (q_0 - k * p) * (p - unit_cost))) <$>
      price_grid).
Proof.
  intros HT. destruct T as [|n]; [lia|].
  apply mapM_fmap_Ok. intros p _. apply profit_total_replicate.
Qed.

Lemma find_optimal_price_t_spec (f : list R → R) (p price_grid : list R)
    (t : nat) :
  (∀ p, p ≠ [] → Baseline.profit_response p = Ok (f p)) →
  (t < length p)%nat → price_grid ≠ [] →
  ∃ (i : nat) (c : R),
    Baseline.find_optimal_price_t p price_grid t = Ok c ∧
    price_grid !! i = Some c ∧
    (∀ c', c' ∈ price_grid → f (<[t:=c']> p) <= f (<[t:=c]> p)) ∧
    (∀ j c', (j < i)%nat → price_grid !! j = Some c' →
             f (<[t:=c']> p) < f (<[t:=c]> p)).
Proof.
  intros Hf Ht Hgrid. unfold Baseline.find_optimal_price_t.
  rewrite decide_True, bind_Ok by done.
  rewrite zip_with_replicate_l by done.
  rewrite (mapM_fmap_Ok _ f).
  - rewrite bind_Ok, <- list_fmap_compose.
    apply (argmax_of_grid (f ∘ (λ c, <[t:=c]> p)) price_grid Hgrid).
  - intros row Hrow. apply list_elem_of_fmap in Hrow as (c & -> & _).
    apply Hf. intros Hnil. apply (f_equal length) in Hnil.
    rewrite length_insert in Hnil. simpl in Hnil. lia.
Qed.

Lemma greedy_sweep_improves (f : list R → R) (price_grid : list R)
    (ts : list nat) :
  (∀ p, p ≠ [] → Baseline.profit_response p = Ok (f p)) →
  price_grid ≠ [] →
  ∀ p, Forall (λ t, (t < length p)%nat) ts → Forall (.∈ price_grid) p →
       ∃ p', Baseline.greedy_sweep price_grid ts p = Ok p' ∧
             length p' = length p ∧ Forall (.∈ price_grid) p' ∧
             f p <= f p'.
Proof.
  intros Hf Hgrid. induction ts as [|t ts IH]; intros p Hts Hp.
  - exists p. repeat split; [done|lra].
  - apply Forall_cons in Hts as [Ht Hts]. cbn [Baseline.greedy_sweep].
    destruct (find_optimal_price_t_spec f p price_grid t Hf Ht Hgrid)
      as (i & c & -> & Hc & Hmax & _).
    rewrite bind_Ok. unfold setitem. rewrite decide_True, bind_Ok by done.
    destruct (IH (<[t:=c]> p)) as (p' & Hrun & Hlen & Hin & Hle).
    + by rewrite length_insert.
    + apply Forall_insert; [done|]. by eapply list_elem_of_lookup_2.
    + exists p'. rewrite length_insert in Hlen. repeat split; [done..|].
      destruct (lookup_lt_is_Some_2 p t Ht) as [p_t Hp_t].
      assert (Hold : p_t ∈ price_grid).
      { rewrite Forall_forall in Hp. apply Hp.
        by eapply list_elem_of_lookup_2. }
      specialize (Hmax p_t Hold). rewrite (list_insert_id p t p_t) in Hmax by done.
      lra.
Qed.

(** X3.  [profit_total] cannot take an empty price vector: [p[0]] raises
    IndexError.  On a non-empty one it adds, to an extra first term
    without shocks, one term for each pair of consecutive prices and a
    term of the first price against the LAST one, since the sum starts
    at [t = 0] and reads [p[-1]]. *)
Theorem profit_total_wraps_around (p0 : R) (rest : list R)
    (unit_cost q_0 k a b : R) :
  Baseline.profit_total [] unit_cost q_0 k a b = Raise IndexError ∧
  Baseline.profit_total (p0 :: rest) unit_cost q_0 k a b =
  Ok (profit_t p0 p0 q_0 k 0 0 unit_cost +
      foldl Rplus 0
        (profit_t p0 (default p0 (last rest)) q_0 k a b unit_cost ::
         zip_with (λ prev cur, profit_t cur prev q_0 k a b unit_cost)
                  (p0 :: rest) rest)).
Proof. split; [reflexivity | apply profit_total_cons]. Qed.

(** X4.  A constant price vector of n >= 1 steps earns n + 1 times the
    steady profit of one step, [plus(q_0 - k p) (p - unit_cost)]: no
    shock acts, and the extra first term counts once more. *)
Theorem profit_total_constant (n : nat) (p unit_cost q_0 k a b : R) :
  (1 <= n)%nat →
  Baseline.profit_total (replicate n p) unit_cost q_0 k a b =
  Ok ((INR n + 1) * (plus (q_0 - k * p) * (p - unit_cost))).
Proof.
  intros Hn. destruct n as [|m]; [lia|]. apply profit_total_replicate.
Qed.

(** X5.  Cell 5 returns a price of the grid whose constant vector earns
    at least as much as that of every grid price, and strictly more than
    that of every grid price before it (the first maximum). *)
Theorem price_opt_const_optimal (T : nat) (price_grid : list R) :
  (1 <= T)%nat → price_grid ≠ [] →
  ∃ (i : nat) (p_opt v_opt : R),
    Baseline.price_opt_const T price_grid = Ok p_opt ∧
    price_grid !! i = Some p_opt ∧
    Baseline.profit_response (replicate T p_opt) = Ok v_opt ∧
    (∀ p, p ∈ price_grid →
          ∃ v, Baseline.profit_response (replicate T p) = Ok v ∧
               v <= v_opt) ∧
    (∀ j p, (j < i)%nat → price_grid !! j = Some p →
            ∃ v, Baseline.profit_response (replicate T p) = Ok v ∧
                 v < v_opt).
Proof.
  intros HT Hgrid. unfold Baseline.price_opt_const.
  rewrite constant_profits_Ok, bind_Ok by done.
  set (g := λ p, (INR T + 1) * (plus (q_0 - k * p) * (p - unit_cost))).
  destruct (argmax_of_grid g price_grid Hgrid) as (i & c & Hrun & Hc & Hmax & Hfst).
  assert (Hval : ∀ p, Baseline.profit_response (replicate T p) = Ok (g p)).
  { intros p. destruct T as [|n]; [lia|]. apply profit_total_replicate. }
  exists i, c, (g c). repeat split; [done..| |].
  - intros p Hp. exists (g p). split; [apply Hval | by apply Hmax].
  - intros j p Hj Hp. exists (g p). split; [apply Hval | by eapply Hfst].
Qed.

(** X6.  Cell 5 fails on degenerate input: with an empty grid
    [np.argmax] raises ValueError, and with T = 0 the profit of the
    empty price vector raises IndexError first. *)
Theorem price_opt_const_errors (T : nat) (p : R) (price_grid : list R) :
  Baseline.price_opt_const T [] = Raise (ValueError EmptyArgmax) ∧
  Baseline.price_opt_const 0 (p :: price_grid) = Raise IndexError.
Proof. split; reflexivity. Qed.

(** X7.  [find_optimal_price_t] returns the grid price that, put at time
    t of the baseline, earns at least as much as every other grid price
    put there (the first such price of the grid).  A time step outside
    the baseline raises IndexError, an empty grid ValueError. *)
Theorem find_optimal_price_t_best_response (p price_grid : list R) (t : nat) :
  ((length p <= t)%nat →
   Baseline.find_optimal_price_t p price_grid t = Raise IndexError) ∧
  ((t < length p)%nat →
   Baseline.find_optimal_price_t p [] t = Raise (ValueError EmptyArgmax)) ∧
  ((t < length p)%nat → price_grid ≠ [] →
   ∃ (i : nat) (c v_opt : R),
     Baseline.find_optimal_price_t p price_grid t = Ok c ∧
     price_grid !! i = Some c ∧
     Baseline.profit_response (<[t:=c]> p) = Ok v_opt ∧
     (∀ c', c' ∈ price_grid →
            ∃ v, Baseline.profit_response (<[t:=c']> p) = Ok v ∧
                 v <= v_opt) ∧
     (∀ j c', (j < i)%nat → price_grid !! j = Some c' →
              ∃ v, Baseline.profit_response (<[t:=c']> p) = Ok v ∧
                   v < v_opt)).
Proof.
  split; [|split].
  - intros Ht. unfold Baseline.find_optimal_price_t.
    by rewrite decide_False by lia.
  - intros Ht. unfold Baseline.find_optimal_price_t.
    by rewrite decide_True by lia.
  - intros Ht Hgrid. destruct profit_response_fun as [f Hf].
    destruct (find_optimal_price_t_spec f p price_grid t Hf Ht Hgrid)
      as (i & c & Hrun & Hc & Hmax & Hfst).
    assert (Hval : ∀ c', Baseline.profit_response (<[t:=c']> p)
                         = Ok (f (<[t:=c']> p))).
    { intros c'. apply Hf. intros Hnil. apply (f_equal length) in Hnil.
      rewrite length_insert in Hnil. simpl in Hnil. lia. }
    exists i, c, (f (<[t:=c]> p)). repeat split; [done..| |].
    + intros c' Hc'. eexists. split; [apply Hval | by apply Hmax].
    + intros j c' Hj Hc'. eexists. split; [apply Hval | by eapply Hfst].
Qed.

(** X8.  The greedy search of cell 6 ends with a price vector of T grid
    prices that earns at least as much as the optimal constant price it
    starts from. *)
Theorem p_opt_greedy_improves (T : nat) (price_grid : list R) :
  (1 <= T)%nat → price_grid ≠ [] →
  ∃ (price_opt_const : R) (p_opt : list R) (v_const v_opt : R),
    Baseline.price_opt_const T price_grid = Ok price_opt_const ∧
    Baseline.p_opt_greedy T price_grid = Ok p_opt ∧
    length p_opt = T ∧ Forall (.∈ price_grid) p_opt ∧
    Baseline.profit_response (replicate T price_opt_const) = Ok v_const ∧
    Baseline.profit_response p_opt = Ok v_opt ∧
    v_const <= v_opt.
Proof.
  intros HT Hgrid. unfold Baseline.p_opt_greedy, Baseline.price_opt_const.
  rewrite constant_profits_Ok, bind_Ok by done.
  set (g := λ p, (INR T + 1) * (plus (q_0 - k * p) * (p - unit_cost))).
  destruct (argmax_of_grid g price_grid Hgrid) as (i & c & -> & Hc & _).
  rewrite bind_Ok. destruct profit_response_fun as [f Hf].
  destruct (greedy_sweep_improves f price_grid (seq 0 T) Hf Hgrid
              (replicate T c)) as (p' & Hrun & Hlen & Hin & Hle).
  - apply Forall_forall. intros t Ht. apply elem_of_seq in Ht.
    rewrite length_replicate. lia.
  - apply Forall_replicate. by eapply list_elem_of_lookup_2.
  - rewrite length_replicate in Hlen.
    exists c, p', (f (replicate T c)), (f p'). repeat split; try done.
    + apply Hf. destruct T; [lia|done].
    + apply Hf. destruct p'; [simpl in Hlen; lia|done].
Qed.

End BaselineFacts.

(** ** The environment over an episode *)

Section EpisodeFacts.
Context `{Config}.

Lemma take_pred_episode_state (history : list Z) :
  take (T - 1) (episode_state history)
  = take (T - 1) (history ++ replicate T 0%Z).
Proof.
  destruct history as [|p older].
  - unfold episode_state, env_initial_state. rewrite app_nil_l.
    rewrite !take_replicate. f_equal. lia.
  - unfold episode_state.
    rewrite take_app_le by (rewrite length_take, length_app, length_replicate; lia).
    rewrite take_take. f_equal. lia.
Qed.

Lemma length_episode_state (history : list Z) :
  length history ≤ T → length (episode_state history) = 2 * T.
Proof.
  intros Hlen. destruct history as [|p older].
  - apply length_replicate.
  - unfold episode_state. simpl in Hlen.
    rewrite !length_app, length_take, length_app. simpl.
    rewrite !length_replicate. lia.
Qed.

Lemma stepped_episode_state (p : Z) (history : list Z) :
  length history < T →
  stepped p (episode_state history) (length history)
  = episode_state (p :: history).
Proof.
  intros Hlen. unfold stepped. rewrite take_pred_episode_state.
  unfold episode_state.
  replace (take T ((p :: history) ++ replicate T 0%Z))
    with (p :: take (T - 1) (history ++ replicate T 0%Z)); [done|].
  destruct T as [|n]; [lia|]. simpl. by rewrite Nat.sub_0_r.
Qed.

Lemma sum_abs_app (l1 l2 : list Z) :
  foldr Z.add 0%Z (Z.abs <$> l1 ++ l2)
  = (foldr Z.add 0 (Z.abs <$> l1) + foldr Z.add 0 (Z.abs <$> l2))%Z.
Proof.
  rewrite fmap_app, foldr_app.
  generalize (foldr Z.add 0%Z (Z.abs <$> l2)). intros z.
  induction (Z.abs <$> l1) as [|x l IH]; simpl; lia.
Qed.

Lemma sum_abs_zeros (n : nat) :
  foldr Z.add 0%Z (Z.abs <$> replicate n 0%Z) = 0%Z.
Proof. induction n as [|n IH]; simpl; [done|]. exact IH. Qed.

(** The differences of a window that ends in padding: those of the
    prices, the drop from the oldest price to zero, and zeros. *)
Lemma differences_padded (older : list Z) (oldest : Z) (n : nat) :
  differences ((older ++ [oldest]) ++ replicate (S n) 0%Z)
  = differences (older ++ [oldest]) ++ (0 - oldest)%Z :: replicate n 0%Z.
Proof.
  induction older as [|x older IH].
  - simpl. f_equal. induction n as [|n IHn]; [done|].
    simpl. f_equal. exact IHn.
  - destruct older as [|y older].
    + simpl in *. by rewrite IH.
    + change (differences (((x :: y :: older) ++ [oldest]) ++
                           replicate (S n) 0%Z))
        with ((y - x)%Z ::
              differences (((y :: older) ++ [oldest]) ++ replicate (S n) 0%Z)).
      rewrite IH. done.
Qed.

Lemma total_variation_padded (history : list Z) (oldest : Z) (n : nat) :
  last history = Some oldest →
  total_variation (history ++ replicate (S n) 0%Z)
  = (total_variation history + Z.abs oldest)%Z.
Proof.
  intros Hlast. apply last_Some in Hlast as [older ->].
  unfold total_variation. rewrite differences_padded, sum_abs_app.
  rewrite fmap_cons. cbn [foldr].
  change (list_fmap Z Z Z.abs (replicate n 0%Z))
    with (Z.abs <$> replicate n 0%Z).
  rewrite sum_abs_zeros. lia.
Qed.

Lemma total_variation_nonneg (a : list Z) : (0 <= total_variation a)%Z.
Proof.
  unfold total_variation. induction (differences a) as [|x l IH]; [done|].
  rewrite fmap_cons. cbn [foldr]. lia.
Qed.

Lemma total_variation_zeros (n : nat) : total_variation (replicate n 0%Z) = 0%Z.
Proof.
  unfold total_variation.
  assert (Hd : differences (replicate n 0%Z) = replicate (n - 1) 0%Z).
  { induction n as [|n IH]; [done|]. destruct n as [|n]; [done|].
    change (differences (replicate (S (S n)) 0%Z))
      with ((0 - 0)%Z :: differences (replicate (S n) 0%Z)).
    rewrite IH. simpl. by rewrite Nat.sub_0_r. }
  rewrite Hd. apply sum_abs_zeros.
Qed.

(** A conversion that succeeds truncates toward zero. *)
Lemma float_to_int_le (x : Q) (p : Z) :
  float_to_int x = Ok p → (0 <= x)%Q → (inject_Z p <= x)%Q.
Proof.
  unfold float_to_int. case_decide as Hr; [|discriminate]. intros [= <-].
  destruct x as [n d]. unfold Qle, inject_Z. simpl.
  intros Hn. rewrite Z.quot_div_nonneg by lia.
  rewrite Z.mul_1_r in *. rewrite Z.mul_comm. apply Z.mul_div_le. lia.
Qed.

Lemma float_to_int_cases (x : Q) :
  (∃ p, float_to_int x = Ok p ∧ in_int64 p) ∨
  float_to_int x = Raise OverflowError.
Proof. unfold float_to_int. case_decide; eauto. Qed.

(** The statements of [env_step] before the one-hot assignment, on a
    state of length [2 * T] with [T ≥ 1]. *)
Lemma env_step_window (st : list Z) (price : Q) (p : Z) :
  length st = 2 * T → 1 ≤ T → float_to_int price = Ok p →
  (next_state ← setitem_float (replicate (length st) 0%Z) 0 price;
   set_slice next_state 1 (Z.of_nat T) (get_slice st 0 (Z.of_nat T - 1)))
  = Ok (p :: take (T - 1) st ++ replicate T 0%Z).
Proof.
  intros Hlen HT Hp.
  assert (E1 : setitem_float (replicate (length st) 0%Z) 0 price
               = Ok (p :: replicate (2 * T - 1) 0%Z)).
  { rewrite Hlen. replace (2 * T) with (S (2 * T - 1)) at 1 by lia.
    by apply setitem_float_0. }
  assert (E2 : get_slice st 0 (Z.of_nat T - 1) = take (T - 1) st).
  { unfold get_slice. rewrite slice_bound_pred by lia.
    rewrite slice_bound_0.
    rewrite Nat.sub_0_r, drop_0, Nat.min_l by lia. done. }
  rewrite E1, bind_Ok, E2.
  unfold set_slice. simpl length. rewrite length_replicate.
  rewrite slice_bound_1, slice_bound_of_nat.
  rewrite !Nat.min_l by lia.
  rewrite decide_True by (rewrite length_take; lia).
  simpl. do 3 f_equal. rewrite drop_replicate. f_equal. lia.
Qed.

Lemma padded_bounded (M : Z) (history : list Z) (n : nat) :
  (0 <= M)%Z → Forall (λ x, (Z.abs x <= M)%Z) history →
  Forall (λ x, (Z.abs x <= M)%Z) (history ++ replicate n 0%Z).
Proof.
  intros HM Hh. apply Forall_app. split; [done|].
  apply Forall_replicate. lia.
Qed.

(** X9.  Over an episode the state is the price history: after the
    int64 prices of [history] (most recent first) the step at time
    [len(history)], for a grid price that converts to the int64 [p],
    moves to the state of the history with [p] in front, and its
    reward is taken on the zero-padded window of the earlier prices. *)
Theorem env_step_episode_state (history : list Z) (a : nat) (price : Q)
    (p : Z) :
  length history < T → Forall in_int64 history →
  price_grid !! a = Some price → float_to_int price = Ok p →
  env_step (length history) (episode_state history) a =
  Ok (episode_state (p :: history),
      profit_t_response p (take (T - 1) (history ++ replicate T 0%Z))).
Proof.
  intros Hlen _ Hprice Hp.
  rewrite (env_step_spec _ _ a price p);
    [|by apply length_episode_state; lia|done..].
  by rewrite stepped_episode_state, take_pred_episode_state.
Qed.

(** X10.  While the window is not yet full, the zero padding counts as
    a price change: before step [T - 1] the penalty adds the absolute
    value of the oldest price to the changes between the prices set so
    far, so that also a constant price is penalised.  (Prices of
    absolute value at most [M], with [2 * M * T] inside the int64
    range, so that nothing wraps around.) *)
Theorem env_step_padding_penalty (history : list Z) (oldest : Z) (a : nat)
    (price : Q) (p M : Z) :
  last history = Some oldest → S (length history) < T →
  price_grid !! a = Some price → float_to_int price = Ok p →
  Forall (λ x, (Z.abs x <= M)%Z) history →
  (2 * M * Z.of_nat T < 2 ^ 63)%Z →
  ∃ next_st,
    env_step (length history) (episode_state history) a =
    Ok (next_st,
        (inject_Z p -
         (1 # 10) * inject_Z (total_variation history + Z.abs oldest))%Q).
Proof.
  intros Hlast Hlen Hprice Hp Hh HM. eexists.
  rewrite (env_step_spec _ _ a price p);
    [|by apply length_episode_state; lia|lia|done..].
  rewrite take_pred_episode_state. unfold profit_t_response.
  rewrite take_app_ge by lia. rewrite take_replicate.
  replace ((T - 1 - length history) `min` T) with (S (T - 2 - length history))
    by lia.
  assert (HM0 : (0 <= M)%Z).
  { apply last_Some in Hlast as [older ->].
    rewrite Forall_app, Forall_singleton in Hh. lia. }
  rewrite (np_total_variation M);
    [ by rewrite (total_variation_padded history oldest)
    | by apply padded_bounded
    | rewrite length_app, length_replicate; nia ].
Qed.

(** A conversion that raises ends the step, once the store has a cell
    to go to. *)
Lemma env_step_overflow (t : nat) (st : list Z) (a : nat) (price : Q) :
  length st = 2 * T → 1 ≤ T → price_grid !! a = Some price →
  float_to_int price = Raise OverflowError →
  env_step t st a = Raise OverflowError.
Proof.
  intros Hlen HT Hprice Hp. unfold env_step.
  assert (E0 : getitem price_grid a = Ok price)
    by (unfold getitem; by rewrite Hprice).
  rewrite E0, bind_Ok.
  assert (E1 : setitem_float (replicate (length st) 0%Z) 0 price
               = Raise OverflowError).
  { unfold setitem_float. rewrite length_replicate.
    rewrite decide_True by lia. by rewrite Hp. }
  by rewrite E1.
Qed.

(** X11.  On a state of length [2 * T], [env_step] returns (a state of
    the same length) for a time step below [T] and an action whose grid
    price converts to an int64.  With the grid prices inside the int64
    range, any other time step or action raises IndexError. *)
Theorem env_step_bounds (t : nat) (st : list Z) (a : nat) :
  length st = 2 * T →
  (t < T →
   ∀ price p, price_grid !! a = Some price → float_to_int price = Ok p →
     ∃ next_st r, env_step t st a = Ok (next_st, r) ∧
                  length next_st = length st) ∧
  (T ≤ t ∨ length price_grid ≤ a →
   (∀ price, price_grid !! a = Some price → ∃ p, float_to_int price = Ok p) →
   env_step t st a = Raise IndexError).
Proof.
  intros Hlen. split.
  - intros Ht price p Hprice Hp.
    destruct (env_step_layout t st a price p Hlen Ht Hprice Hp)
      as (next_st & r & Hrun & Hl & _).
    exists next_st, r. split; [done | lia].
  - intros Hbad Hrange. unfold env_step.
    destruct (decide (a < length price_grid)) as [Ha|Ha].
    + destruct Hbad as [Ht|Ha']; [|lia].
      destruct (lookup_lt_is_Some_2 price_grid a Ha) as [price Hprice].
      destruct (Hrange price Hprice) as [p Hp].
      assert (E0 : getitem price_grid a = Ok price)
        by (unfold getitem; by rewrite Hprice).
      rewrite E0, bind_Ok.
      destruct (decide (T = 0)) as [HT|HT].
      * assert (E1 : setitem_float (replicate (length st) 0%Z) 0 price
                     = Raise IndexError).
        { unfold setitem_float. rewrite length_replicate.
          by rewrite decide_False by lia. }
        by rewrite E1.
      * pose proof (env_step_window st price p Hlen ltac:(lia) Hp) as Hw.
        apply bind_Ok_inv in Hw as (ns1 & -> & Hw). rewrite bind_Ok, Hw, bind_Ok.
        assert (E4 : setitem (p :: take (T - 1) st ++ replicate T 0%Z)
                             (T + t) 1%Z = Raise IndexError).
        { unfold setitem. rewrite decide_False; [done|].
          simpl. rewrite length_app, length_take, length_replicate. lia. }
        by rewrite E4.
    + assert (E0 : getitem price_grid a = Raise IndexError)
        by (unfold getitem; by rewrite lookup_ge_None_2 by lia).
      by rewrite E0.
Qed.

(** X12.  Within the range of X10 the reward of a step never exceeds
    the price it stores, nor, for a grid price that is not negative,
    the grid price itself: what is subtracted is not negative.  In the
    first step of an episode nothing is subtracted. *)
Theorem env_step_reward_bounded (t : nat) (st : list Z) (a : nat)
    (price : Q) (p M : Z) :
  length st = 2 * T → t < T → price_grid !! a = Some price →
  float_to_int price = Ok p →
  Forall (λ x, (Z.abs x <= M)%Z) st →
  (2 * M * Z.of_nat T < 2 ^ 63)%Z →
  ∃ next_st r,
    env_step t st a = Ok (next_st, r) ∧
    (r <= inject_Z p)%Q ∧
    ((0 <= price)%Q → (r <= price)%Q) ∧
    (st = env_initial_state → (r == inject_Z p)%Q).
Proof.
  intros Hlen Ht Hprice Hp Hst HM. eexists _, _.
  split; [by apply (env_step_spec t st a price p)|]. unfold profit_t_response.
  assert (HM0 : (0 <= M)%Z).
  { destruct st as [|x st]; [simpl in Hlen; lia|].
    apply Forall_cons in Hst as [Hx _]. lia. }
  rewrite (np_total_variation M);
    [ | by apply Forall_take | rewrite length_take; nia ].
  assert (Hle : ∀ z, (0 <= z)%Z →
    (inject_Z p - (1 # 10) * inject_Z z <= inject_Z p)%Q).
  { intros z Hz. unfold Qle, Qminus, Qplus, Qmult, Qopp, inject_Z. simpl. lia. }
  split; [apply Hle, total_variation_nonneg|]. split.
  - intros Hpos. eapply Qle_trans; [apply Hle, total_variation_nonneg|].
    by apply float_to_int_le.
  - intros ->. unfold env_initial_state.
    rewrite take_replicate, total_variation_zeros.
    unfold Qeq, Qminus, Qplus, Qmult, Qopp, inject_Z. simpl. lia.
Qed.

End EpisodeFacts.

(** ** The failures of the policy *)

Section PolicyFailures.
Context `{RandomSource}.
Import AnnealedEpsGreedyPolicy.
Local Open Scope R_scope.

(** X15.  The failures of [select_action].  With [eps_decay = 0] the
    division raises ZeroDivisionError, and with a quotient inside the
    float64 range whose exponential is beyond it (which takes a
    negative [eps_decay]) [math.exp] raises OverflowError, both before
    the counter is touched.  A quotient beyond the range raises
    neither: the call is counted.  With a positive [eps_decay], on an
    empty value vector either branch raises ValueError, and the call
    has been counted all the same. *)
Theorem select_action_errors (self : t) (q_values : list Q) (g : nat) :
  (eps_decay self = 0 →
   (select_action self q_values g).2 = Raise ZeroDivisionError ∧
   (select_action self q_values g).1.1 = self) ∧
  (eps_decay self ≠ 0 →
   -1 * INR (steps_done self) / eps_decay self <= float_max →
   exp (-1 * INR (steps_done self) / eps_decay self) > float_max →
   (select_action self q_values g).2 = Raise OverflowError ∧
   (select_action self q_values g).1.1 = self) ∧
  (eps_decay self ≠ 0 →
   -1 * INR (steps_done self) / eps_decay self > float_max →
   (select_action self q_values g).2 ≠ Raise ZeroDivisionError ∧
   (select_action self q_values g).2 ≠ Raise OverflowError ∧
   (select_action self q_values g).1.1 = count_step self) ∧
  (0 < eps_decay self →
   (∃ why, (select_action self [] g).2 = Raise (ValueError why)) ∧
   (select_action self [] g).1.1 = count_step self).
Proof.
  split; [|split; [|split]].
  - intros Hd. by rewrite select_action_zero_decay.
  - intros Hd Hq Hexp. rewrite select_action_overflow; [done | done | lra | done].
  - intros Hd Hq. rewrite select_action_infinite by done.
    destruct (Rlt_dec _ _); simpl.
    + destruct q_values; simpl; by repeat split.
    + unfold random_randrange. case_decide; simpl; by repeat split.
  - intros Hd. split; [|by apply select_action_counts].
    destruct (Rgt_dec (uniform g) (eps_threshold self)) as [Hs|Hs].
    + exists EmptyArgmax. by rewrite select_action_greedy.
    + exists EmptyRange. by rewrite select_action_explore.
Qed.

End PolicyFailures.

(** ** The replay memory while it fills *)

Section FillingFacts.
Import ReplayMemory.

(** X16.  Until the buffer is full the cells are the pushed transitions
    in the order of the pushes, no [None] placeholder is left behind,
    and the cursor is the number of pushes (0 again when the buffer has
    just become full).  A buffer of capacity 0 takes no transition: the
    assignment to the cell raises IndexError, before the modulo is
    reached. *)
Theorem push_fills_in_order (C : nat) (trs : list Transition)
    (tr : Transition) :
  (length trs ≤ C →
   push_all (init C) trs
   = Ok {| capacity := C; memory := Some <$> trs;
           position := length trs mod C |}) ∧
  push_all (init 0) (tr :: trs) = Raise IndexError.
Proof.
  split; [|reflexivity]. intros Hlen.
  destruct (decide (C = 0)) as [->|HC].
  { destruct trs; [reflexivity | simpl in Hlen; lia]. }
  destruct (push_all_ring_inv C trs ltac:(lia))
    as ([cap mem pos] & -> & Hcap & Hl & Hpos & Hchr).
  unfold chronological in Hchr. simpl in *. subst cap pos.
  rewrite Nat.min_l in Hl by lia.
  replace (length trs - C) with 0 in Hchr by lia. rewrite drop_0 in Hchr.
  do 2 f_equal. rewrite <- Hchr.
  destruct (decide (length trs = C)) as [Heq|Hne].
  - rewrite Heq, Nat.Div0.mod_same. by rewrite drop_0, app_nil_r.
  - rewrite Nat.mod_small by lia.
    rewrite <- Hl, drop_all, take_ge by lia. done.
Qed.

End FillingFacts.

(** ** The Bellman targets *)

Section TargetFacts.
Context `{Config} `{RandomSource} `{ValueApproximator}.

Lemma row_max_fold (l : list Q) :
  ∀ x, foldl (λ m y, if Qle_bool y m then m else y) x l ∈ x :: l ∧
       ∀ y, y ∈ x :: l →
            (y <= foldl (λ m y, if Qle_bool y m then m else y) x l)%Q.
Proof.
  induction l as [|a l IH]; intros x.
  - split; [apply list_elem_of_here|]. intros y Hy.
    apply list_elem_of_singleton in Hy as ->. apply Qle_refl.
  - cbn [foldl]. set (x' := if Qle_bool a x then x else a).
    assert (Hx : (x <= x')%Q ∧ (a <= x')%Q ∧ (x' = x ∨ x' = a)).
    { unfold x'. destruct (Qle_bool a x) eqn:Hcmp.
      - apply Qle_bool_iff in Hcmp. split; [apply Qle_refl|]. auto.
      - split; [|split; [apply Qle_refl | auto]].
        apply Qlt_le_weak, Qnot_le_lt. intros Hle.
        apply Qle_bool_iff in Hle. congruence. }
    destruct Hx as (Hxx & Hax & Hsel). destruct (IH x') as [Hin Hmax].
    split.
    + apply elem_of_cons in Hin as [->|Hin].
      * destruct Hsel as [->| ->];
          [apply list_elem_of_here
          | apply list_elem_of_further, list_elem_of_here].
      * by do 2 apply list_elem_of_further.
    + intros y Hy. apply elem_of_cons in Hy as [->|Hy].
      * eapply Qle_trans; [exact Hxx|]. apply Hmax, list_elem_of_here.
      * apply elem_of_cons in Hy as [->|Hy].
        -- eapply Qle_trans; [exact Hax|]. apply Hmax, list_elem_of_here.
        -- by apply Hmax, list_elem_of_further.
Qed.

(** [row.max()] is an entry of the row that no entry exceeds. *)
Lemma row_max_spec (row : list Q) :
  row ≠ [] →
  ∃ m, row_max row = Ok m ∧ m ∈ row ∧ ∀ y, y ∈ row → (y <= m)%Q.
Proof.
  destruct row as [|x l]; [done|]. intros _. eexists. split; [done|].
  apply row_max_fold.
Qed.

Lemma mapM_Forall2 {A B} (f : A → outcome B) (l : list A) :
  (∀ x, x ∈ l → ∃ y, f x = Ok y) →
  ∃ ys, mapM f l = Ok ys ∧ Forall2 (λ x y, f x = Ok y) l ys.
Proof.
  induction l as [|x l IH]; intros Hf.
  - exists []. split; [done | constructor].
  - destruct (Hf x) as [y Hy]; [apply list_elem_of_here|].
    destruct IH as (ys & Hys & Hall).
    { intros z Hz. apply Hf. by apply list_elem_of_further. }
    exists (y :: ys). split; [|by constructor].
    by rewrite mapM_cons, Hy, bind_Ok, Hys, bind_Ok.
Qed.

(** The masked assignment puts the maxima at the rows with a next state
    and leaves 0 at the others. *)
Lemma masked_assign_next_states (P : list Z → Q → Prop)
    (batch : list Transition) :
  ∀ maxima,
    Forall2 P (omap next_state batch) maxima →
    Forall2 (λ tr v, match next_state tr with
                     | Some ns => P ns v
                     | None => v = 0%Q
                     end)
            batch
            (masked_assign (replicate (length batch) 0%Q)
               ((λ tr, bool_decide (is_Some (next_state tr))) <$> batch)
               maxima).
Proof.
  induction batch as [|tr batch IH]; intros maxima Hmax; [constructor|].
  rewrite fmap_cons. simpl length. rewrite replicate_S.
  simpl omap in Hmax. destruct (next_state tr) as [ns|] eqn:Hns.
  - apply Forall2_cons_inv_l in Hmax as (m & maxima' & Hm & Hmax & ->).
    rewrite bool_decide_true by done. simpl.
    constructor; [by rewrite Hns | by apply IH].
  - rewrite bool_decide_false by (by intros [? ?]). simpl.
    constructor; [by rewrite Hns | by apply IH].
Qed.

Lemma gather_taken_actions (pn : params) (batch : list Transition) :
  (∀ tr, tr ∈ batch → action tr < length (forward pn (state tr))) →
  ∃ sav,
    mapM (λ sa : list Z * nat, gather_row (forward pn sa.1) sa.2)
         (zip (state <$> batch) (action <$> batch)) = Ok sav ∧
    Forall2 (λ tr v, forward pn (state tr) !! action tr = Some v) batch sav.
Proof.
  induction batch as [|tr batch IH]; intros Hact.
  - exists []. split; [done | constructor].
  - destruct (lookup_lt_is_Some_2 (forward pn (state tr)) (action tr))
      as [v Hv]; [apply Hact, list_elem_of_here|].
    destruct IH as (sav & Hsav & Hall).
    { intros z Hz. apply Hact. by apply list_elem_of_further. }
    exists (v :: sav). split; [|by constructor].
    rewrite !fmap_cons.
    change (zip (state tr :: (state <$> batch))
                (action tr :: (action <$> batch)))
      with ((state tr, action tr) ::
            zip (state <$> batch) (action <$> batch)).
    assert (E : gather_row (forward pn (state tr)) (action tr) = Ok v)
      by (unfold gather_row; by rewrite Hv).
    rewrite mapM_cons. cbn beta. cbn [fst snd].
    by rewrite E, bind_Ok, Hsav, bind_Ok.
Qed.

Lemma expected_of_next_values (R : Transition → Q → Prop)
    (batch : list Transition) (values : list Q) :
  Forall2 R batch values →
  Forall2 (λ tr e, ∃ v, R tr v ∧ e = (reward tr + GAMMA * v)%Q) batch
          (zip_with (λ r v, (r + GAMMA * v)%Q) (reward <$> batch) values).
Proof.
  induction 1 as [|tr v batch values Hv _ IH]; [constructor|].
  rewrite fmap_cons. simpl. constructor; [eauto | exact IH].
Qed.

(** The run of the update up to the targets: the gathered values, the
    maxima of the rows with a next state, and the targets built from
    them. *)
Lemma expected_values_run (pn tn : params) (batch : list Transition) :
  (∃ tr, tr ∈ batch ∧ is_Some (next_state tr)) →
  (∀ tr, tr ∈ batch → action tr < length (forward pn (state tr))) →
  (∀ tr ns, tr ∈ batch → next_state tr = Some ns → forward tn ns ≠ []) →
  ∃ (state_action_values maxima : list Q),
    Forall2 (λ tr v, forward pn (state tr) !! action tr = Some v)
            batch state_action_values ∧
    Forall2 (λ ns m, row_max (forward tn ns) = Ok m)
            (omap next_state batch) maxima ∧
    expected_state_action_values pn tn (Some <$> batch)
    = Ok (state <$> batch, action <$> batch, state_action_values,
          zip_with (λ r v, (r + GAMMA * v)%Q) (reward <$> batch)
            (masked_assign (replicate BATCH_SIZE 0%Q)
               ((λ tr, bool_decide (is_Some (next_state tr))) <$> batch)
               maxima)).
Proof.
  intros (tr0 & Htr0 & Hnext0) Hact Hrows.
  assert (Hne : batch ≠ []) by (intros ->; by apply elem_of_nil in Htr0).
  assert (Hnf : omap next_state batch ≠ []).
  { destruct Hnext0 as [ns0 Hns0]. intros Hnil.
    assert (Hin : ns0 ∈ omap next_state batch)
      by (apply list_elem_of_omap; eauto).
    rewrite Hnil in Hin. by apply elem_of_nil in Hin. }
  destruct (gather_taken_actions pn batch Hact) as (sav & Hsav & Hsav_all).
  destruct (mapM_Forall2 (λ s, row_max (forward tn s)) (omap next_state batch))
    as (maxima & Hmaxima & Hmax_all).
  { intros ns Hns. apply list_elem_of_omap in Hns as (tr & Htr & Hns).
    destruct (row_max_spec (forward tn ns)) as (m & Hm & _); eauto. }
  exists sav, maxima. split; [exact Hsav_all|]. split; [exact Hmax_all|].
  unfold expected_state_action_values, unzip_transitions.
  destruct batch as [|tr batch']; [done|].
  change (Some <$> tr :: batch') with (Some tr :: (Some <$> batch')).
  cbv match.
  change (Some tr :: (Some <$> batch')) with (Some <$> tr :: batch').
  set (batch := tr :: batch') in *.
  rewrite mapM_Some_cells, bind_Ok.
  assert (Hstack : ∀ {A} (l : list A), l ≠ [] → torch_stack l = Ok l)
    by (by intros A [|??]).
  rewrite (Hstack _ (omap next_state batch)), bind_Ok by done.
  rewrite !Hstack, !bind_Ok by done.
  rewrite Hsav, bind_Ok, Hmaxima, bind_Ok. reflexivity.
Qed.

(** X17.  On a batch of [BATCH_SIZE] stored transitions of which at
    least one has a next state, with the taken actions inside the value
    vectors and the target network's value vectors not empty, the
    update computes the Bellman targets: for a row that ends its
    episode the reward plus [GAMMA] times 0, for any other row the
    reward plus [GAMMA] times the largest value the TARGET network gives
    the next state; the value compared with it is the one the POLICY
    network gives the taken action. *)
Theorem expected_values_bellman (pn tn : params) (batch : list Transition) :
  length batch = BATCH_SIZE →
  (∃ tr, tr ∈ batch ∧ is_Some (next_state tr)) →
  (∀ tr, tr ∈ batch → action tr < length (forward pn (state tr))) →
  (∀ tr ns, tr ∈ batch → next_state tr = Some ns → forward tn ns ≠ []) →
  ∃ (state_action_values expected : list Q),
    expected_state_action_values pn tn (Some <$> batch)
    = Ok (state <$> batch, action <$> batch, state_action_values, expected) ∧
    Forall2 (λ tr v, forward pn (state tr) !! action tr = Some v)
            batch state_action_values ∧
    Forall2 (λ tr e,
               match next_state tr with
               | None => e = (reward tr + GAMMA * 0)%Q
               | Some ns =>
                   ∃ m, m ∈ forward tn ns ∧
                        (∀ y, y ∈ forward tn ns → (y <= m)%Q) ∧
                        e = (reward tr + GAMMA * m)%Q
               end)
            batch expected.
Proof.
  intros Hlen Hnf Hact Hrows.
  destruct (expected_values_run pn tn batch Hnf Hact Hrows)
    as (sav & maxima & Hsav & Hmax & Hrun).
  eexists sav, _. split; [exact Hrun|]. split; [exact Hsav|].
  rewrite <- Hlen.
  pose proof (masked_assign_next_states
                (λ ns m, row_max (forward tn ns) = Ok m) batch maxima
                Hmax) as Hvalues.
  apply expected_of_next_values in Hvalues.
  eapply Forall2_impl; [exact Hvalues|].
  intros tr e (v & Hv & ->). destruct (next_state tr) as [ns|] eqn:Hns.
  - destruct (row_max_spec (forward tn ns)) as (m & Hm & Hin & Hle).
    { destruct (forward tn ns) eqn:Hrow; [discriminate | done]. }
    rewrite Hm in Hv. injection Hv as <-. eauto.
  - by rewrite Hv.
Qed.

(** X18.  With at least [BATCH_SIZE] stored transitions, a sampled
    batch of stored transitions as in X17 makes [update_model] complete
    with one optimisation step of the policy network on exactly these
    states, actions and targets; the target network, the buffer, the
    policy and the traces are left as they were. *)
Theorem update_model_optimises (w : World) (batch : list Transition) :
  BATCH_SIZE ≤ ReplayMemory.len (memory w) →
  (ReplayMemory.sample (memory w) BATCH_SIZE (rng w)).1
    = Ok (Some <$> batch) →
  (∃ tr, tr ∈ batch ∧ is_Some (next_state tr)) →
  (∀ tr, tr ∈ batch →
         action tr < length (forward (policy_net w) (state tr))) →
  (∀ tr ns, tr ∈ batch → next_state tr = Some ns →
            forward (target_net w) ns ≠ []) →
  ∃ (state_action_values expected : list Q) (w' : World),
    update_model w = Ok w' ∧
    expected_state_action_values (policy_net w) (target_net w)
                                 (Some <$> batch)
    = Ok (state <$> batch, action <$> batch, state_action_values, expected) ∧
    (policy_net w', optimizer w')
    = gradient_step (optimizer w) (policy_net w)
                    (state <$> batch) (action <$> batch) expected ∧
    target_net w' = target_net w ∧ memory w' = memory w ∧
    policy w' = policy w ∧
    return_trace w' = return_trace w ∧ p_trace w' = p_trace w.
Proof.
  intros Hlen Hsample Hnf Hact Hrows.
  destruct (expected_values_run (policy_net w) (target_net w) batch
              Hnf Hact Hrows) as (sav & maxima & _ & _ & Hrun).
  unfold update_model. rewrite decide_False by lia.
  destruct (ReplayMemory.sample (memory w) BATCH_SIZE (rng w))
    as [sampled g] eqn:Hs.
  simpl in Hsample. subst sampled. rewrite bind_Ok, Hrun, bind_Ok.
  destruct (gradient_step _ _ _ _ _) as [pn' opt'] eqn:Hstep.
  eexists sav, _, _. split; [reflexivity|]. split; [reflexivity|].
  simpl. done.
Qed.

End TargetFacts.

(** ** The bookkeeping of the training loop *)

Section LoopFacts.
Context `{Config} `{RandomSource} `{ValueApproximator}.
Import AnnealedEpsGreedyPolicy.

Lemma np_argmax_lt (q_values : list Q) (a : nat) :
  np_argmax q_values = Ok a → a < length q_values.
Proof.
  intros Ha. destruct (decide (q_values = [])) as [->|Hq]; [discriminate|].
  destruct (np_argmax_spec q_values Hq) as (i & m & Hi & Hm & _).
  rewrite Hi in Ha. injection Ha as <-. by eapply lookup_lt_Some.
Qed.

(** An action that [select_action] returns indexes the value vector,
    and the call has been counted. *)
Lemma select_action_Ok (self self' : t) (q_values : list Q) (g g' a : nat) :
  select_action self q_values g = (self', g', Ok a) →
  self' = count_step self ∧ a < length q_values.
Proof.
  intros Hsel. destruct (Req_dec_T (eps_decay self) 0) as [Hd|Hd].
  { rewrite select_action_zero_decay in Hsel by done. discriminate. }
  assert (Hrange : ∀ g1,
    (random_randrange (length q_values) g1).1 = Ok a → a < length q_values).
  { intros g1 Ha. unfold random_randrange in Ha.
    case_decide as Hlen; [discriminate|].
    injection Ha as <-. by apply Nat.mod_upper_bound. }
  destruct (Rgt_dec (-1 * INR (steps_done self) / eps_decay self) float_max)
    as [Hq|Hq].
  { rewrite select_action_infinite in Hsel by done.
    destruct (Rlt_dec _ _); injection Hsel as <- _ Ha;
      (split; [done|]); [by apply np_argmax_lt | by eapply Hrange]. }
  destruct (Rgt_dec (exp (-1 * INR (steps_done self) / eps_decay self))
                    float_max) as [Hexp|Hexp].
  { rewrite select_action_overflow in Hsel by done. discriminate. }
  destruct (Rgt_dec (uniform g) (eps_threshold self)) as [Hs|Hs].
  - rewrite select_action_above in Hsel by done.
    injection Hsel as <- _ Ha. split; [done | by apply np_argmax_lt].
  - rewrite select_action_below in Hsel by done.
    injection Hsel as <- _ Ha. split; [done | by eapply Hrange].
Qed.

Lemma push_capacity (self self' : ReplayMemory.t) (tr : Transition) :
  ReplayMemory.push self tr = Ok self' →
  ReplayMemory.capacity self' = ReplayMemory.capacity self.
Proof.
  unfold ReplayMemory.push. intros Hpush.
  apply bind_Ok_inv in Hpush as (m2 & _ & Hpush).
  apply bind_Ok_inv in Hpush as (pos & _ & Hpush).
  by injection Hpush as <-.
Qed.

(** What a completed step has done. *)
Lemma train_step_inv t w st reward_trace p w' st' reward_trace' p' :
  train_step t w st reward_trace p = Ok (w', st', reward_trace', p') →
  ∃ (a : nat) (r price : Q),
    a < length (forward (policy_net w) st) ∧
    env_step t st a = Ok (st', r) ∧
    price_grid !! a = Some price ∧
    ReplayMemory.push (memory w)
      {| state := st; action := a;
         next_state := if decide (t ≠ T - 1) then Some st' else None;
         reward := r |} = Ok (memory w') ∧
    reward_trace' = reward_trace ++ [r] ∧ p' = p ++ [price] ∧
    policy w' = count_step (policy w) ∧
    return_trace w' = return_trace w ∧ p_trace w' = p_trace w.
Proof.
  unfold train_step.
  destruct (select_action (policy w) (forward (policy_net w) st) (rng w))
    as [[policy' g] chosen] eqn:Hsel.
  intros Hrun.
  apply bind_Ok_inv in Hrun as (a & -> & Hrun).
  apply select_action_Ok in Hsel as [-> Ha].
  apply bind_Ok_inv in Hrun as ([ns r] & Hstep & Hrun).
  apply bind_Ok_inv in Hrun as (memory' & Hpush & Hrun).
  apply bind_Ok_inv in Hrun as (w1 & Hupd & Hrun).
  apply bind_Ok_inv in Hrun as (price & Hprice & Hrun).
  injection Hrun as <- <- <- <-.
  unfold getitem in Hprice.
  destruct (price_grid !! a) as [price'|] eqn:Hgrid; [|discriminate].
  injection Hprice as ->.
  exists a, r, price. split; [done|]. split; [done|]. split; [done|].
  destruct (update_model_inv _ _ Hupd) as [->|(_ & pn & opt & g' & ->)];
    simpl; done.
Qed.

Lemma step_loop_inv ts :
  ∀ w st reward_trace p w' reward_trace' p',
    step_loop ts w st reward_trace p = Ok (w', reward_trace', p') →
    ∃ (rewards prices : list Q),
      reward_trace' = reward_trace ++ rewards ∧ p' = p ++ prices ∧
      length rewards = length ts ∧ length prices = length ts ∧
      Forall (.∈ price_grid) prices ∧
      steps_done (policy w') = steps_done (policy w) + length ts ∧
      ReplayMemory.capacity (memory w') = ReplayMemory.capacity (memory w) ∧
      return_trace w' = return_trace w ∧ p_trace w' = p_trace w.
Proof.
  induction ts as [|t ts IH]; intros w st rt p w' rt' p' Hrun; simpl in Hrun.
  - injection Hrun as <- <- <-. exists [], [].
    rewrite !app_nil_r. repeat split; [constructor | simpl; lia].
  - apply bind_Ok_inv in Hrun as ([[[w1 st1] rt1] p1] & Hstep & Hrun).
    apply train_step_inv in Hstep
      as (a & r & price & _ & _ & Hprice & Hpush & -> & -> & Hpol & Hrt & Hpt).
    apply IH in Hrun
      as (rs & ps & -> & -> & Hrs & Hps & Hin & Hsteps & Hcap & Hrt' & Hpt').
    exists (r :: rs), (price :: ps).
    rewrite <- !app_assoc. simpl. repeat split; try done; try lia.
    + constructor; [by eapply list_elem_of_lookup_2 | done].
    + rewrite Hsteps, Hpol. simpl. lia.
    + rewrite Hcap. by eapply push_capacity.
    + congruence.
    + congruence.
Qed.

Lemma run_episode_inv i w w' :
  run_episode i w = Ok w' →
  ∃ (rewards prices : list Q),
    length rewards = T ∧ length prices = T ∧
    Forall (.∈ price_grid) prices ∧
    return_trace w' = return_trace w ++ [foldl Qplus 0%Q rewards] ∧
    p_trace w' = p_trace w ++ [prices] ∧
    steps_done (policy w') = steps_done (policy w) + T ∧
    ReplayMemory.capacity (memory w') = ReplayMemory.capacity (memory w).
Proof.
  unfold run_episode. intros Hrun.
  apply bind_Ok_inv in Hrun as ([[w1 rt] p] & Hloop & Hrun).
  apply step_loop_inv in Hloop
    as (rs & ps & -> & -> & Hrs & Hps & Hin & Hsteps & Hcap & Hrt & Hpt).
  rewrite length_seq in Hrs, Hps, Hsteps.
  apply bind_Ok_inv in Hrun as (r & _ & Hrun).
  exists rs, ps. simpl in *.
  case_decide; injection Hrun as <-; simpl; rewrite Hrt, Hpt; done.
Qed.

Lemma episode_loop_inv episodes :
  ∀ w w',
    episode_loop episodes w = Ok w' →
    ∃ (returns : list Q) (schedules : list (list Q)),
      return_trace w' = return_trace w ++ returns ∧
      p_trace w' = p_trace w ++ schedules ∧
      length returns = length episodes ∧
      length schedules = length episodes ∧
      Forall (λ p, length p = T ∧ Forall (.∈ price_grid) p) schedules ∧
      steps_done (policy w') = steps_done (policy w) + length episodes * T ∧
      ReplayMemory.capacity (memory w') = ReplayMemory.capacity (memory w).
Proof.
  induction episodes as [|i episodes IH]; intros w w' Hrun; simpl in Hrun.
  - injection Hrun as <-. exists [], []. rewrite !app_nil_r.
    repeat split; [constructor | simpl; lia].
  - apply bind_Ok_inv in Hrun as (w1 & Hep & Hrun).
    apply run_episode_inv in Hep
      as (rs & ps & Hrs & Hps & Hin & Hrt & Hpt & Hsteps & Hcap).
    apply IH in Hrun
      as (rets & scheds & Hrt' & Hpt' & Hl1 & Hl2 & Hall & Hsteps' & Hcap').
    exists (foldl Qplus 0%Q rs :: rets), (ps :: scheds).
    rewrite Hrt', Hpt', Hrt, Hpt, <- !app_assoc. simpl.
    repeat split; try done; try lia; try congruence.
    by constructor.
Qed.

(** X19.  A step of the loop that completes has taken an action that
    indexes both the value vector and the price grid, and has pushed
    exactly the transition from the state it was given to the state it
    returns, without a next state exactly at the last time step
    [T - 1]; it has appended the reward and the grid price of the
    action to the episode's traces and counted one policy call. *)
Theorem train_step_stores_transition t w st reward_trace p
    w' st' reward_trace' p' :
  train_step t w st reward_trace p = Ok (w', st', reward_trace', p') →
  ∃ (a : nat) (r price : Q),
    a < length (forward (policy_net w) st) ∧
    env_step t st a = Ok (st', r) ∧
    price_grid !! a = Some price ∧
    ReplayMemory.push (memory w)
      {| state := st; action := a;
         next_state := if decide (t ≠ T - 1) then Some st' else None;
         reward := r |} = Ok (memory w') ∧
    reward_trace' = reward_trace ++ [r] ∧ p' = p ++ [price] ∧
    steps_done (policy w') = steps_done (policy w) + 1.
Proof.
  intros Hrun. apply train_step_inv in Hrun
    as (a & r & price & Ha & Hstep & Hprice & Hpush & Hrt & Hp & Hpol & _).
  exists a, r, price. rewrite Hpol. done.
Qed.

(** X20.  A training run of [num_episodes] episodes that completes has
    appended one return and one price schedule per episode, each
    schedule of [T] prices of the grid; it has called the policy
    [num_episodes * T] times, and the capacity of the buffer is
    unchanged. *)
Theorem train_bookkeeping (num_episodes : nat) (w w' : World) :
  train num_episodes w = Ok w' →
  ∃ (returns : list Q) (schedules : list (list Q)),
    return_trace w' = return_trace w ++ returns ∧
    p_trace w' = p_trace w ++ schedules ∧
    length returns = num_episodes ∧ length schedules = num_episodes ∧
    Forall (λ p, length p = T ∧ Forall (.∈ price_grid) p) schedules ∧
    steps_done (policy w') = steps_done (policy w) + num_episodes * T ∧
    ReplayMemory.capacity (memory w') = ReplayMemory.capacity (memory w).
Proof.
  unfold train. intros Hrun. apply episode_loop_inv in Hrun
    as (rets & scheds & Hrt & Hpt & Hl1 & Hl2 & Hall & Hsteps & Hcap).
  rewrite length_seq in Hl1, Hl2, Hsteps. exists rets, scheds. done.
Qed.

Lemma episode_loop_app (l1 l2 : list nat) :
  ∀ w, episode_loop (l1 ++ l2) w = episode_loop l1 w ≫= episode_loop l2.
Proof.
  induction l1 as [|i l1 IH]; intros w; simpl; [done|].
  destruct (run_episode i w) as [w1|e|]; simpl; [apply IH | done | done].
Qed.

(** A run of [n + 1] episodes is a run of [n] episodes followed by
    episode [n]. *)
Lemma train_S (n : nat) (w : World) :
  train (S n) w = train n w ≫= run_episode n.
Proof.
  unfold train. rewrite seq_S, episode_loop_app. simpl.
  destruct (episode_loop (seq 0 n) (sync_target w)) as [w'|e|]; simpl;
    [|done..].
  by destruct (run_episode n w').
Qed.

Lemma mod_succ (m d : nat) :
  d ≠ 0 → S m mod d ≠ 0 → S m mod d = S (m mod d).
Proof.
  intros Hd Hnz. pose proof (Nat.mod_upper_bound m d Hd) as Hlt.
  pose proof (Nat.div_mod_eq m d) as Hm.
  destruct (decide (S (m mod d) = d)) as [Heq|Hne].
  - exfalso. apply Hnz.
    replace (S m) with (0 + S (m / d) * d) by lia.
    rewrite Nat.Div0.mod_add. by apply Nat.Div0.mod_0_l.
  - symmetry. apply Nat.mod_unique with (q := m / d); lia.
Qed.

(** X21.  The cadence over a whole run.  A run of [n + 1] episodes that
    completes is a run of [n] episodes followed by episode [n], and at
    its end the target parameters are the policy parameters as they
    were at the end of the last episode whose index is a multiple of
    [TARGET_UPDATE], which is episode [n - n mod TARGET_UPDATE]. *)
Theorem train_syncs_target (n : nat) (w w'' : World) :
  train (S n) w = Ok w'' →
  (∃ w', train n w = Ok w' ∧ run_episode n w' = Ok w'') ∧
  ∃ wk, train (S (n - n mod TARGET_UPDATE)) w = Ok wk ∧
        target_net w'' = policy_net wk.
Proof.
  intros Hrun.
  assert (Hlast : ∀ m v, train (S m) w = Ok v →
            ∃ w', train m w = Ok w' ∧ run_episode m w' = Ok v).
  { intros m v Hm. rewrite train_S in Hm.
    apply bind_Ok_inv in Hm as (w' & Hm & Hep). eauto. }
  split; [by apply Hlast|].
  revert w'' Hrun. induction n as [|m IH]; intros w'' Hrun.
  - destruct (Hlast 0 w'' Hrun) as (w' & _ & Hep).
    destruct (run_episode_target 0 w' w'' Hep) as (Hd & Hsync & _).
    rewrite Nat.Div0.mod_0_l. exists w''. split; [done|].
    apply Hsync. by apply Nat.Div0.mod_0_l.
  - destruct (Hlast (S m) w'' Hrun) as (w' & Hm & Hep).
    destruct (run_episode_target (S m) w' w'' Hep) as (Hd & Hsync & Hkeep).
    destruct (decide (S m mod TARGET_UPDATE = 0)) as [Hz|Hnz].
    + rewrite Hz, Nat.sub_0_r. exists w''. split; [done | by apply Hsync].
    + destruct (IH w' Hm) as (wk & Hk & Htarget).
      exists wk. rewrite (Hkeep Hnz), Htarget. split; [|done].
      rewrite <- Hk. f_equal. rewrite mod_succ by done.
      pose proof (Nat.Div0.mod_le m TARGET_UPDATE). lia.
Qed.

End LoopFacts.

(** ** The baselines on the grid of cell 3 *)

Section BaselineRuns.
Import Demand.
Local Open Scope R_scope.

(** The price grid of cell 3: 10, 20, ..., 490. *)
Lemma price_grid_values :
  Baseline.price_grid =
  [10; 20; 30; 40; 50; 60; 70; 80; 90; 100; 110; 120; 130; 140; 150; 160; 170; 180; 190; 200; 210; 220; 230; 240; 250; 260; 270; 280; 290; 300; 310; 320; 330; 340; 350; 360; 370; 380; 390; 400; 410; 420; 430; 440; 450; 460; 470; 480; 490].
Proof. reflexivity. Qed.

(** On the grid of cell 3 the steady profit is largest at 170 and at
    180; [argmax] takes the first. *)
Lemma notebook_grid_argmax (i : nat) (p_opt : R) :
  Baseline.price_grid !! i = Some p_opt →
  plus (q_0 - k * 170) * (170 - unit_cost) <=
    plus (q_0 - k * p_opt) * (p_opt - unit_cost) →
  ((16 < i)%nat → plus (q_0 - k * 170) * (170 - unit_cost) <
                  plus (q_0 - k * p_opt) * (p_opt - unit_cost)) →
  p_opt = 170.
Proof.
  rewrite price_grid_values. unfold plus, q_0, k, unit_cost.
  intros Hi Hmax Hfst.
  do 49 (destruct i as [|i];
         [ injection Hi as <-;
           try (assert (Hlt : (16 < 16)%nat → False) by lia);
           first [ reflexivity
                 | exfalso;
                   repeat match goal with
                          | H : context [Rlt_dec ?x ?y] |- _ =>
                              destruct (Rlt_dec x y)
                          end;
                   first [ lra | specialize (Hfst ltac:(lia)); 
                   repeat match goal with
                          | H : context [Rlt_dec ?x ?y] |- _ =>
                              destruct (Rlt_dec x y)
                          end; lra ] ]
         | ]).
  discriminate Hi.
Qed.

Lemma price_grid_170 : Baseline.price_grid !! 16%nat = Some 170.
Proof. by rewrite price_grid_values. Qed.

Lemma price_grid_nonempty : Baseline.price_grid ≠ [].
Proof. by rewrite price_grid_values. Qed.

Lemma profit_total_constant_witness :
  (1 <= Baseline.T)%nat ∧
  Baseline.profit_response (replicate Baseline.T 170) = Ok 2352000.
Proof.
  split; [unfold Baseline.T; lia|]. unfold Baseline.profit_response.
  rewrite (profit_total_constant Baseline.T 170 unit_cost q_0 k a_q b_q)
    by (unfold Baseline.T; lia).
  f_equal. unfold Baseline.T, q_0, k, unit_cost.
  rewrite plus_of_nonneg by lra. rewrite INR_IZR_INZ.
  change (Z.of_nat 20) with 20%Z. lra.
Defined.

Lemma price_opt_const_optimal_witness :
  (1 <= Baseline.T)%nat ∧ Baseline.price_grid ≠ [] ∧
  Baseline.price_opt_const Baseline.T Baseline.price_grid = Ok 170.
Proof.
  assert (HT : (1 <= Baseline.T)%nat) by (unfold Baseline.T; lia).
  split; [exact HT|]. split; [exact price_grid_nonempty|].
  destruct (price_opt_const_optimal Baseline.T Baseline.price_grid HT
              price_grid_nonempty)
    as (i & p_opt & v_opt & Hrun & Hi & Hv & Hmax & Hfst).
  rewrite Hrun. f_equal.
  assert (Hval : ∀ p, Baseline.profit_response (replicate Baseline.T p) =
                      Ok (21 * (plus (q_0 - k * p) * (p - unit_cost)))).
  { intros p. unfold Baseline.profit_response, Baseline.T.
    rewrite profit_total_replicate, INR_IZR_INZ.
    change (Z.of_nat 20) with 20%Z. f_equal. lra. }
  rewrite Hval in Hv. injection Hv as <-.
  apply (notebook_grid_argmax i p_opt Hi).
  - destruct (Hmax 170) as (v & Hv & Hle).
    { eapply list_elem_of_lookup_2, price_grid_170. }
    rewrite Hval in Hv. injection Hv as <-. lra.
  - intros Hlt. destruct (Hfst 16%nat 170 Hlt price_grid_170) as (v & Hv & Hle).
    rewrite Hval in Hv. injection Hv as <-. lra.
Defined.

Lemma p_opt_greedy_improves_witness :
  (1 <= Baseline.T)%nat ∧ Baseline.price_grid ≠ [] ∧
  ∃ (price_opt_const : R) (p_opt : list R) (v_const v_opt : R),
    Baseline.price_opt_const Baseline.T Baseline.price_grid
      = Ok price_opt_const ∧
    Baseline.p_opt_greedy Baseline.T Baseline.price_grid = Ok p_opt ∧
    length p_opt = Baseline.T ∧ Forall (.∈ Baseline.price_grid) p_opt ∧
    Baseline.profit_response (replicate Baseline.T price_opt_const)
      = Ok v_const ∧
    Baseline.profit_response p_opt = Ok v_opt ∧
    v_const <= v_opt.
Proof.
  assert (HT : (1 <= Baseline.T)%nat) by (unfold Baseline.T; lia).
  split; [exact HT|]. split; [exact price_grid_nonempty|].
  exact (p_opt_greedy_improves Baseline.T Baseline.price_grid HT
           price_grid_nonempty).
Defined.
End BaselineRuns.

(** ** The environment on the notebook's configuration *)

Lemma env_step_episode_state_witness :
  @env_step Notebook.config 2
    [84; 80; 0; 0; 0; 0; 0; 0; 0; 0; 0; 1; 0; 0; 0; 0; 0; 0; 0; 0]%Z 2
  = Ok ([88; 84; 80; 0; 0; 0; 0; 0; 0; 0; 0; 0; 1; 0; 0; 0; 0; 0; 0; 0]%Z,
        (796 # 10)%Q).
Proof.
  apply (@env_step_episode_state Notebook.config [84; 80]%Z 2 (800 # 9) 88%Z);
    [ vm_compute; lia
    | repeat (apply List.Forall_cons; [unfold in_int64; lia|]);
      apply List.Forall_nil
    | reflexivity | reflexivity ].
Defined.

Lemma env_step_padding_penalty_witness :
  ∃ next_st,
    @env_step Notebook.config 2
      [84; 80; 0; 0; 0; 0; 0; 0; 0; 0; 0; 1; 0; 0; 0; 0; 0; 0; 0; 0]%Z 2
    = Ok (next_st, (inject_Z 88 - (1 # 10) * inject_Z (4 + 80))%Q).
Proof.
  apply (@env_step_padding_penalty Notebook.config [84; 80]%Z 80%Z 2
           (800 # 9) 88%Z 120%Z);
    [ reflexivity | vm_compute; lia | reflexivity | reflexivity
    | repeat (apply List.Forall_cons; [simpl; lia|]); apply List.Forall_nil
    | vm_compute; reflexivity ].
Defined.

Lemma env_step_bounds_witness :
  (∃ next_st r,
     @env_step Notebook.config 9 (@env_initial_state Notebook.config) 9
     = Ok (next_st, r) ∧ length next_st = 20) ∧
  @env_step Notebook.config 10 (@env_initial_state Notebook.config) 9
  = Raise IndexError ∧
  @env_step Notebook.config 9 (@env_initial_state Notebook.config) 10
  = Raise IndexError.
Proof.
  pose proof (@env_step_bounds Notebook.config) as Hb.
  assert (Hrange : ∀ a price,
    @price_grid Notebook.config !! a = Some price →
    ∃ p, float_to_int price = Ok p).
  { intros a price Ha.
    do 10 (destruct a as [|a]; [injection Ha as <-; by eexists|]).
    discriminate Ha. }
  split; [|split].
  - apply (Hb 9 (@env_initial_state Notebook.config) 9 eq_refl)
      with (price := (1080 # 9)%Q) (p := 120%Z);
      [vm_compute; lia | reflexivity | reflexivity].
  - apply (Hb 10 (@env_initial_state Notebook.config) 9 eq_refl);
      [left; vm_compute; lia | apply Hrange].
  - apply (Hb 9 (@env_initial_state Notebook.config) 10 eq_refl);
      [right; vm_compute; lia | apply Hrange].
Defined.

(** A grid price of 10^19 does not fit: the store raises. *)
Lemma env_step_overpriced :
  @env_step Standin.overpriced 0 (@env_initial_state Standin.overpriced) 0
  = Raise OverflowError.
Proof.
  apply (@env_step_overflow Standin.overpriced 0 _ 0 (inject_Z (10 ^ 19)));
    [reflexivity | vm_compute; lia | reflexivity | reflexivity].
Qed.

Lemma env_step_reward_bounded_witness :
  ∃ next_st r,
    @env_step Notebook.config 0 (@env_initial_state Notebook.config) 1
    = Ok (next_st, r) ∧
    (r <= 84)%Q ∧ (r <= 760 # 9)%Q ∧ (r == 84)%Q.
Proof.
  destruct (@env_step_reward_bounded Notebook.config 0
              (@env_initial_state Notebook.config) 1 (760 # 9) 84%Z 0%Z)
    as (next_st & r & Hrun & Hle & Hprice & Hfirst);
    [ reflexivity | vm_compute; lia | reflexivity | reflexivity
    | apply Forall_replicate; simpl; lia | vm_compute; reflexivity | ].
  exists next_st, r. split; [exact Hrun|]. split; [exact Hle|].
  split; [apply Hprice; discriminate | exact (Hfirst eq_refl)].
Defined.

(** ** A policy whose exponential overflows *)

Lemma select_action_errors_witness :
  (@AnnealedEpsGreedyPolicy.select_action Standin.zero_draws
     Standin.overflowing [2; 1]%Q 0).2 = Raise OverflowError ∧
  AnnealedEpsGreedyPolicy.steps_done
    (@AnnealedEpsGreedyPolicy.select_action Standin.zero_draws
       Standin.overflowing [2; 1]%Q 0).1.1 = 1.
Proof.
  destruct (@select_action_errors Standin.zero_draws Standin.overflowing
              [2; 1]%Q 0) as (_ & Hoverflow & _).
  destruct Hoverflow as [Hraise Hself]; [| | apply overflowing_exp |].
  - simpl. pose proof (Rinv_0_lt_compat 1024 ltac:(lra)). lra.
  - pose proof overflowing_in_range. lra.
  - split; [exact Hraise|]. by rewrite Hself.
Defined.

(** ** The Bellman targets on the stand-ins *)

Lemma expected_values_bellman_witness :
  @expected_state_action_values Standin.small Standin.tabular
    [3; 7]%Q [2; 9; 4]%Q
    (Some <$> [Standin.tagged false 0; Standin.tagged true 1])
  = Ok ([[0]; [1]]%Z, [0; 1], [3; 7]%Q, [0 + 1 * 9; 1 + 1 * 0]%Q).
Proof.
  destruct (@expected_values_bellman Standin.small Standin.tabular
              [3; 7]%Q [2; 9; 4]%Q
              [Standin.tagged false 0; Standin.tagged true 1])
    as (sav & expected & Hrun & Hsav & Hexp).
  - reflexivity.
  - exists (Standin.tagged false 0). split; [apply list_elem_of_here | by eexists].
  - intros tr Htr. apply elem_of_cons in Htr as [->|Htr]; [simpl; lia|].
    apply list_elem_of_singleton in Htr as ->. simpl. lia.
  - intros tr ns _ _. discriminate.
  - rewrite Hrun. vm_compute in Hrun. injection Hrun as <- <-. reflexivity.
Defined.

(** ** The bookkeeping of a run of the stand-ins *)

Section StandinBookkeeping.
Import AnnealedEpsGreedyPolicy.

#[local] Existing Instances Standin.small Standin.zero_draws Standin.tabular.

(** The first step of the first episode. *)
Lemma standin_step0 :
  ∃ w' st' reward_trace' p',
    train_step 0 Standin.world0 env_initial_state [] []
    = Ok (w', st', reward_trace', p').
Proof.
  rewrite train_step_explore;
    [ | simpl; lra
      | pose proof (eps_threshold_pos Notebook.policy); simpl in *; lra ].
  lazy -[count_step Notebook.policy].
  eexists _, _, _, _. reflexivity.
Qed.

Lemma update_model_optimises_witness :
  ∃ w', update_model Standin.world_mixed = Ok w' ∧
        policy_net w' = [0 + 1 * 9; 1 + 1 * 0]%Q ∧ optimizer w' = 1 ∧
        target_net w' = [2; 9; 4]%Q.
Proof.
  destruct (update_model_optimises Standin.world_mixed
              [Standin.tagged false 0; Standin.tagged true 1])
    as (sav & expected & w' & Hrun & Hexp & Hstep & Htn & _).
  - vm_compute. lia.
  - reflexivity.
  - exists (Standin.tagged false 0).
    split; [apply list_elem_of_here | by eexists].
  - intros tr Htr. apply elem_of_cons in Htr as [->|Htr]; [simpl; lia|].
    apply list_elem_of_singleton in Htr as ->. simpl. lia.
  - intros tr ns _ _. discriminate.
  - exists w'. split; [exact Hrun|].
    vm_compute in Hexp. injection Hexp as <- <-.
    injection Hstep as -> ->. rewrite Htn. done.
Defined.

Lemma train_step_stores_transition_witness :
  ∃ w' st' (a : nat) (r price : Q),
    train_step 0 Standin.world0 env_initial_state [] []
    = Ok (w', st', [r], [price]) ∧
    a < 2 ∧
    env_step 0 env_initial_state a = Ok (st', r) ∧
    ReplayMemory.push (ReplayMemory.init 4)
      {| state := env_initial_state; action := a;
         next_state := Some st'; reward := r |} = Ok (memory w') ∧
    steps_done (policy w') = 1.
Proof.
  destruct standin_step0 as (w' & st' & rt' & p' & Hrun).
  destruct (train_step_stores_transition _ _ _ _ _ _ _ _ _ Hrun)
    as (a & r & price & Ha & Hstep & _ & Hpush & -> & -> & Hsteps).
  exists w', st', a, r, price. done.
Defined.

Lemma train_bookkeeping_witness :
  ∃ w' (ret : Q) (schedule : list Q),
    train 1 Standin.world0 = Ok w' ∧
    return_trace w' = [ret] ∧ p_trace w' = [schedule] ∧
    length schedule = 2 ∧ steps_done (policy w') = 2 ∧
    ReplayMemory.capacity (memory w') = 4.
Proof.
  destruct standin_train1 as (w' & Hrun & _).
  destruct (train_bookkeeping 1 Standin.world0 w' Hrun)
    as (rets & scheds & Hrt & Hpt & Hl1 & Hl2 & Hall & Hsteps & Hcap).
  destruct rets as [|ret [|??]]; try discriminate.
  destruct scheds as [|schedule [|??]]; try discriminate.
  apply Forall_cons in Hall as [[Hlen _] _].
  exists w', ret, schedule. done.
Defined.

Lemma train_syncs_target_witness :
  ∃ w1 w2, train 1 Standin.world0 = Ok w1 ∧ train 2 Standin.world0 = Ok w2 ∧
           run_episode 1 w1 = Ok w2 ∧
           target_net w2 = policy_net w1 ∧
           policy_net w2 ≠ policy_net w1.
Proof.
  destruct standin_train2 as (w2 & Hrun & Hpn & Htn).
  destruct (train_syncs_target 1 Standin.world0 w2 Hrun)
    as ((w1 & Hrun1 & Hep) & wk & Hk & Htarget).
  change (train (S (1 - 1 mod TARGET_UPDATE)) Standin.world0)
    with (train 1 Standin.world0) in Hk.
  rewrite Hrun1 in Hk. injection Hk as <-.
  exists w1, w2. repeat split; try done.
  rewrite <- Htarget, Hpn, Htn. discriminate.
Defined.

End StandinBookkeeping.
